(** * next-rate-limit: a shallow embedding of the rate-limit decision engine

    The development follows [src/next-rate-limit.ts] (the current engine:
    an [LRUCache] of per-identifier counters, optionally merged with an
    Upstash [Ratelimit] client) and the two in-memory predecessors kept in
    [src/next-rate-limit.js] (a fixed-window counter and a sliding log,
    both over one global [Map]).

    Conventions.
    - JavaScript numbers are modelled by [Z]: limits, windows, counts and
      millisecond timestamps are integers in every use the engine makes of
      them.  [Math.ceil (x / 1000)] is [ceil1000 x].
    - Strings are [string]; header values are byte strings, as Node and the
      Fetch API deliver them.
    - An exception is the [Throw] constructor of [Completion]. *)

From Stdlib Require Import ZArith Lia Ascii String.
From stdpp Require Import base option list sorting strings pretty gmap.

Local Open Scope Z_scope.

(** ** Completions: a returned value or a thrown exception *)

Inductive Completion (A : Type) : Type :=
| Return (a : A)
| Throw (msg : string).
Arguments Return {A} a.
Arguments Throw {A} msg.

(** [Math.ceil (x / 1000)] on an integer [x]. *)
Definition ceil1000 (x : Z) : Z := (x + 999) / 1000.

(** ** The [lru-cache] package *)

(** Modelled from the spec: the [LRUCache] class of the npm package
    [lru-cache], which [next-rate-limit.ts] imports at line 2 and whose code
    is not among the sources of the repository.  The specification gives
    its contract (sections 2, 3
    and 4.1): a capacity-bounded store from identity keys to a count and an
    expiry, which drops an entry once its window has elapsed and evicts the
    least recently touched key when a new key arrives at capacity.  Where
    the specification leaves a detail open, the model follows what the
    package documents for the options [{ max, ttl, ttlAutopurge }] that
    [initialize] passes.

    The entries are kept in recency order, most recently used first.  An
    entry remembers the clock reading of the [set] that stored it
    ([s_start]); it is stale once more than [ttl] milliseconds have passed
    since then ([updateAgeOnGet] is off, so [get] does not refresh it).
    [get] on a stale entry deletes it and answers [undefined]; [get] on a
    live entry makes it the most recently used one.  [set] stores at the
    front, restarts the entry's age, and evicts the least recently used
    entry when a new key arrives at [max] entries.  [ttlAutopurge] arms a
    timer per entry that deletes it once stale: [purgeStale].  The package
    times the entries on a clock of its own; the model hands it the
    reading [now] of the caller, in milliseconds. *)

Module LRU.
Section Cache.
Context {V : Type}.

Record slot : Type := Slot { s_key : string; s_val : V; s_start : Z }.

Record t : Type := Cache { max : Z; ttl : Z; items : list slot }.

Definition with_items (c : t) (l : list slot) : t :=
  {| max := max c; ttl := ttl c; items := l |}.

(** Modelled from the spec: [new LRUCache ({ max, ttl })] of the absent
    package.  The constructor validates its options: [max] is 0 (no bound)
    or a positive integer, [ttl] is 0 (no expiry) or a positive integer,
    and one of the two must be given. *)
Definition create (max_ ttl_ : Z) : Completion t :=
  if max_ <? 0 then Throw "max option must be a nonnegative integer"
  else if ttl_ <? 0 then Throw "ttl must be a positive integer if specified"
  else if (max_ =? 0) && (ttl_ =? 0)
       then Throw "At least one of max, maxSize, or ttl is required"
  else Return {| max := max_; ttl := ttl_; items := [] |}.

(** Modelled from the spec: the expiry test of the absent package.  An
    entry is stale when its age exceeds a non-zero [ttl]. *)
Definition isStale (c : t) (now : Z) (s : slot) : bool :=
  negb (ttl c =? 0) && (ttl c <? now - s_start s).

Definition has_key (k : string) (s : slot) : bool := bool_decide (s_key s = k).

Definition find (k : string) (l : list slot) : option slot :=
  List.find (has_key k) l.

Definition remove (k : string) (l : list slot) : list slot :=
  List.filter (fun s => negb (has_key k s)) l.

Definition keys (c : t) : list string := s_key <$> items c.

Definition size (c : t) : Z := Z.of_nat (length (items c)).

(** Modelled from the spec: [LRUCache.get] of the absent package. *)
Definition get (now : Z) (k : string) (c : t) : option V * t :=
  match find k (items c) with
  | None => (None, c)
  | Some s =>
      if isStale c now s
      then (None, with_items c (remove k (items c)))
      else (Some (s_val s), with_items c (s :: remove k (items c)))
  end.

(** Modelled from the spec: [LRUCache.set] of the absent package. *)
Definition set (now : Z) (k : string) (v : V) (c : t) : t :=
  match find k (items c) with
  | Some _ => with_items c (Slot k v now :: remove k (items c))
  | None =>
      let kept := if size c =? max c then removelast (items c) else items c in
      with_items c (Slot k v now :: kept)
  end.

(** Modelled from the spec: the timers that [ttlAutopurge] arms in the
    absent package, run at clock reading [now]. *)
Definition purgeStale (now : Z) (c : t) : t :=
  with_items c (List.filter (fun s => negb (isStale c now s)) (items c)).

(** A write through a reference obtained from the cache: the stored
    object is shared with the caller, so the cache sees the update, and
    neither recency nor age change. *)
Definition modify (k : string) (f : V -> V) (c : t) : t :=
  with_items c
    ((fun s => if has_key k s then Slot (s_key s) (f (s_val s)) (s_start s) else s)
       <$> items c).

(** What a [get] at [now] would answer, without the side effects. *)
Definition peek (now : Z) (k : string) (c : t) : option V :=
  match find k (items c) with
  | Some s => if isStale c now s then None else Some (s_val s)
  | None => None
  end.
End Cache.
Arguments slot : clear implicits.
Arguments t : clear implicits.
End LRU.

(** ** [next-rate-limit.ts]: the local counter *)

Record TokenData : Type := { count : Z; reset : Z }.

Record CheckResult : Type :=
  { chk_success : bool; chk_remaining : Z; chk_reset : Z }.

Definition bump (d : TokenData) : TokenData :=
  {| count := count d + 1; reset := reset d |}.

(** [checkRateLimit], with the module-level [tokenCache] passed explicitly
    and [Date.now ()] read as [now]. *)
Definition checkRateLimit (now : Z) (identifier : string) (limit window : Z)
    (tokenCache : LRU.t TokenData) : CheckResult * LRU.t TokenData :=
  let '(got, c1) := LRU.get now identifier tokenCache in
  let '(tokenData, c2) :=
    match got with
    | Some d => (d, c1)
    | None =>
        let d := {| count := 0; reset := now + window |} in
        (d, LRU.set now identifier d c1)
    end in
  let c3 := LRU.modify identifier bump c2 in
  let currentUsage := count (bump tokenData) in
  let success := currentUsage <=? limit in
  let remaining := if success then limit - currentUsage else 0 in
  let reset_ := ceil1000 (reset tokenData) in
  ({| chk_success := success; chk_remaining := remaining; chk_reset := reset_ |}, c3).

(** Successive calls on one identifier at the clock readings [ts]. *)
Fixpoint checkRateLimit_seq (ts : list Z) (identifier : string) (limit window : Z)
    (c : LRU.t TokenData) : list CheckResult * LRU.t TokenData :=
  match ts with
  | [] => ([], c)
  | now :: ts' =>
      let '(r, c') := checkRateLimit now identifier limit window c in
      let '(rs, c'') := checkRateLimit_seq ts' identifier limit window c' in
      (r :: rs, c'')
  end.

(** The operations that reach [tokenCache] during the life of the process:
    a [checkRateLimit] call, the write-back [tokenCache.set] that follows an
    Upstash answer, and a firing of the purge timers. *)
Inductive CacheOp : Type :=
| OpCheck (now : Z) (identifier : string) (limit window : Z)
| OpSet (now : Z) (identifier : string) (d : TokenData)
| OpPurge (now : Z).

Definition apply_op (c : LRU.t TokenData) (op : CacheOp) : LRU.t TokenData :=
  match op with
  | OpCheck now k limit window => (checkRateLimit now k limit window c).2
  | OpSet now k d => LRU.set now k d c
  | OpPurge now => LRU.purgeStale now c
  end.

Definition run_ops (ops : list CacheOp) (c : LRU.t TokenData) : LRU.t TokenData :=
  foldl apply_op c ops.

(** The identifier an operation touches, if any. *)
Definition op_key (op : CacheOp) : option string :=
  match op with
  | OpCheck _ k _ _ | OpSet _ k _ => Some k
  | OpPurge _ => None
  end.

Definition op_time (op : CacheOp) : Z :=
  match op with
  | OpCheck now _ _ _ | OpSet now _ _ | OpPurge now => now
  end.

(** ** JavaScript values and strings *)

Inductive JSValue : Type :=
| JUndefined
| JNull
| JBool (b : bool)
| JNum (n : Z)
| JStr (s : string).

Definition truthy (v : JSValue) : bool :=
  match v with
  | JUndefined | JNull => false
  | JBool b => b
  | JNum n => negb (n =? 0)
  | JStr s => negb (bool_decide (s = EmptyString))
  end.

(** [a || b] on values. *)
Definition js_or (a b : JSValue) : JSValue := if truthy a then a else b.

(** [a || b] where both sides are [string | null | undefined]; [None]
    stands for [null] and [undefined], which the code never tells apart. *)
Definition str_truthy (a : option string) : bool :=
  match a with
  | Some s => negb (bool_decide (s = EmptyString))
  | None => false
  end.

Definition or_else (a b : option string) : option string :=
  if str_truthy a then a else b.

Infix "|||" := or_else (at level 50, left associativity).

Definition of_str (a : option string) : JSValue :=
  match a with Some s => JStr s | None => JUndefined end.

(** [s.split (sep)] for a one-character separator: never empty. *)
Fixpoint split (sep : ascii) (s : string) : list string :=
  match s with
  | EmptyString => [EmptyString]
  | String c s' =>
      if bool_decide (c = sep) then EmptyString :: split sep s'
      else match split sep s' with
           | [] => [String c EmptyString]
           | x :: xs => String c x :: xs
           end
  end.

(** White space of [String.prototype.trim] among the code units below 256:
    TAB, LF, VT, FF, CR, SP and NBSP. *)
Definition is_ws (c : ascii) : bool :=
  let n := N_of_ascii c in
  ((9 <=? n) && (n <=? 13) || (n =? 32) || (n =? 160))%N.

Fixpoint trimStart (s : string) : string :=
  match s with
  | EmptyString => EmptyString
  | String c s' => if is_ws c then trimStart s' else s
  end.

Definition trim (s : string) : string :=
  String.rev (trimStart (String.rev (trimStart s))).

Fixpoint startsWith (p s : string) : bool :=
  match p, s with
  | EmptyString, _ => true
  | String a p', String b s' => bool_decide (a = b) && startsWith p' s'
  | String _ _, EmptyString => false
  end.

(** ** Requests and identity resolution *)

(** A header collection, keyed by lower-case header name. *)
Abbreviation Headers := (gmap string string).

(** Node's [IncomingMessage]: [req.headers] and [req.socket.remoteAddress]. *)
Record IncomingMessage : Type :=
  { headers : Headers; remoteAddress : option string }.

(** A Fetch [Request] (a [NextRequest]): [request.headers] and the [ip]
    property that the code reads through [(request as any).ip]. *)
Record Request : Type :=
  { request_headers : Headers; ip : option string }.

(** [header?.split (',').pop ()?.trim ()] *)
Definition forwarded_for (h : Headers) : option string :=
  xff ← h !! "x-forwarded-for"%string;
  trim <$> last (split ","%char xff).

(** Lines 104-106. *)
Definition identifier_of_req (identifier : option string) (r : IncomingMessage)
    : option string :=
  identifier ||| forwarded_for (headers r) ||| remoteAddress r
             ||| Some "127.0.0.1"%string.

(** Lines 108-110. *)
Definition identifier_of_request (identifier : option string) (r : Request)
    : option string :=
  identifier ||| forwarded_for (request_headers r) ||| ip r
             ||| request_headers r !! "x-real-ip"%string
             ||| request_headers r !! "x-client-ip"%string
             ||| Some "127.0.0.1"%string.

Definition resolve_identifier (req : option IncomingMessage) (request : option Request)
    (identifier : option string) : option string :=
  let identifier :=
    match req with
    | Some r => identifier_of_req identifier r
    | None => identifier
    end in
  match request with
  | Some r => identifier_of_request identifier r
  | None => identifier
  end.

(** ** Objects and [JSON.stringify]

    An object is the list of its own properties in insertion order, which
    is the order [JSON.stringify] writes them in.  Integers print in
    decimal (JavaScript does so below 1e21). *)

Abbreviation JSObject := (list (string * JSValue)).

Fixpoint prop_get (k : string) (o : JSObject) : JSValue :=
  match o with
  | [] => JUndefined
  | (k', v) :: o' => if bool_decide (k' = k) then v else prop_get k o'
  end.

(** [o.k = v]: an existing property keeps its place, a new one goes last. *)
Fixpoint prop_set (k : string) (v : JSValue) (o : JSObject) : JSObject :=
  match o with
  | [] => [(k, v)]
  | (k', v') :: o' =>
      if bool_decide (k' = k) then (k', v) :: o' else (k', v') :: prop_set k v o'
  end.

Definition dquote : ascii := ascii_of_nat 34.
Definition backslash : ascii := ascii_of_nat 92.

Definition hex_digit (n : N) : ascii :=
  if (n <? 10)%N then ascii_of_N (48 + n) else ascii_of_N (87 + n).

(** QuoteJSONString, one code unit at a time. *)
Definition json_escape (c : ascii) : string :=
  let n := N_of_ascii c in
  if (n =? 34)%N then String backslash (String dquote EmptyString)
  else if (n =? 92)%N then String backslash (String backslash EmptyString)
  else if (n =? 8)%N then String backslash "b"
  else if (n =? 9)%N then String backslash "t"
  else if (n =? 10)%N then String backslash "n"
  else if (n =? 12)%N then String backslash "f"
  else if (n =? 13)%N then String backslash "r"
  else if (n <? 32)%N then
    String backslash
      ("u00" +:+ String (hex_digit (n / 16)) (String (hex_digit (n mod 16)) EmptyString))
  else String c EmptyString.

Fixpoint json_escape_string (s : string) : string :=
  match s with
  | EmptyString => EmptyString
  | String c s' => json_escape c +:+ json_escape_string s'
  end.

Definition json_quote (s : string) : string :=
  String dquote (json_escape_string s +:+ String dquote EmptyString).

(** The JSON text of a property value; [undefined] has none, and the
    property is left out. *)
Definition json_value (v : JSValue) : option string :=
  match v with
  | JUndefined => None
  | JNull => Some "null"%string
  | JBool true => Some "true"%string
  | JBool false => Some "false"%string
  | JNum n => Some (pretty n)
  | JStr s => Some (json_quote s)
  end.

Definition json_member (k : string) (text : string) : string :=
  json_quote k +:+ ":" +:+ text.

Definition json_object (members : list string) : string :=
  "{" +:+ String.concat "," members +:+ "}".

Definition json_of_object (o : JSObject) : string :=
  json_object (omap (fun kv => json_member kv.1 <$> json_value kv.2) o).

(** ** Configuration and module state *)

(** [{ limit, window, upstash }] as [initialize] builds it. *)
Record Config : Type :=
  { cfg_limit : Z; cfg_window : Z; cfg_upstash : JSObject }.

(** [JSON.stringify (config)]; [None] is the initial [currentConfig = {}]. *)
Definition JSON_stringify (config : option Config) : string :=
  match config with
  | None => json_object []
  | Some c =>
      json_object
        [ json_member "limit" (pretty (cfg_limit c));
          json_member "window" (pretty (cfg_window c));
          json_member "upstash" (json_of_object (cfg_upstash c)) ]
  end.

Record Redis : Type := { redis_url : JSValue; redis_token : JSValue }.

(** [Ratelimit.slidingWindow (tokens, window)] and
    [Ratelimit.fixedWindow (tokens, window)]. *)
Inductive Algorithm : Type :=
| slidingWindow (tokens : Z) (window : string)
| fixedWindow (tokens : Z) (window : string).

Record Ratelimit : Type :=
  { rl_redis : Redis; limiter : Algorithm; analytics : JSValue }.

(** The module-level variables, and the log of the requests sent to Upstash
    (a ghost field: it records [ratelimit.limit] calls in order). *)
Record World : Type :=
  { currentConfig : option Config;
    tokenCache : option (LRU.t TokenData);
    redis : option Redis;
    ratelimit : option Ratelimit;
    upstash_calls : list (Ratelimit * string) }.

Definition initial_world : World :=
  {| currentConfig := None; tokenCache := None; redis := None;
     ratelimit := None; upstash_calls := [] |}.

Definition set_currentConfig (cfg : Config) (w : World) : World :=
  {| currentConfig := Some cfg; tokenCache := tokenCache w; redis := redis w;
     ratelimit := ratelimit w; upstash_calls := upstash_calls w |}.

Definition set_tokenCache (c : LRU.t TokenData) (w : World) : World :=
  {| currentConfig := currentConfig w; tokenCache := Some c; redis := redis w;
     ratelimit := ratelimit w; upstash_calls := upstash_calls w |}.

Definition set_clients (r : Redis) (rl : Ratelimit) (w : World) : World :=
  {| currentConfig := currentConfig w; tokenCache := tokenCache w; redis := Some r;
     ratelimit := Some rl; upstash_calls := upstash_calls w |}.

Definition log_upstash_call (rl : Ratelimit) (identifier : string) (w : World) : World :=
  {| currentConfig := currentConfig w; tokenCache := tokenCache w; redis := redis w;
     ratelimit := ratelimit w;
     upstash_calls := upstash_calls w ++ [(rl, identifier)] |}.

(** [enabled && url && token] *)
Definition upstash_active (upstash : JSObject) : bool :=
  truthy (prop_get "enabled" upstash) && truthy (prop_get "url" upstash)
  && truthy (prop_get "token" upstash).

Definition duration (window : Z) : string := pretty window +:+ " s".

Definition new_Ratelimit (config : Config) (r : Redis) : Ratelimit :=
  {| rl_redis := r;
     limiter :=
       if truthy (prop_get "sliding" (cfg_upstash config))
       then slidingWindow (cfg_limit config) (duration (cfg_window config))
       else fixedWindow (cfg_limit config) (duration (cfg_window config));
     analytics := prop_get "analytics" (cfg_upstash config) |}.

(** [initialize].  The world is returned also when the [LRUCache]
    constructor throws, since [currentConfig] has been assigned by then. *)
Definition initialize (config : Config) (w : World) : Completion unit * World :=
  if bool_decide (JSON_stringify (Some config) ≠ JSON_stringify (currentConfig w))
  then
    let w1 := set_currentConfig config w in
    match LRU.create (cfg_limit config) (cfg_window config * 1000) with
    | Throw msg => (Throw msg, w1)
    | Return cache =>
        let w2 := set_tokenCache cache w1 in
        if upstash_active (cfg_upstash config)
        then
          let r := {| redis_url := prop_get "url" (cfg_upstash config);
                      redis_token := prop_get "token" (cfg_upstash config) |} in
          (Return (), set_clients r (new_Ratelimit config r) w2)
        else (Return (), w2)
    end
  else (Return (), w).

(** ** [rateLimit] *)

(** [process.env] *)
Record Env : Type :=
  { UPSTASH_REDIS_REST_URL : option string;
    UPSTASH_REDIS_REST_TOKEN : option string }.

(** The options of a call.  [opt_response] is the header collection of the
    caller's response, read for its CORS headers.  The headers and status
    that the call writes on the caller's [response] and [res] objects, and
    the [url] and [token] it stores on the caller's [upstash] object, are
    effects on the caller's side and are not part of the model. *)
Record RateLimitOptions : Type :=
  { opt_request : option Request;
    opt_response : option Headers;
    opt_req : option IncomingMessage;
    opt_identifier : option string;
    opt_limit : option Z;
    opt_window : option Z;
    opt_upstash : option JSObject }.

Record Response : Type :=
  { status : Z; body : string; response_headers : Headers }.

(** The [pending] promise of an Upstash answer, an opaque handle. *)
Definition Pending : Type := nat.

(** What [ratelimit.limit (identifier)] resolves to; [up_reset] is in
    milliseconds. *)
Record UpstashResult : Type :=
  { up_success : bool; up_remaining : Z; up_reset : Z; up_pending : Pending }.

(** The answer of the network to [ratelimit.limit (identifier)] during one
    call: a result, or a rejected promise. *)
Abbreviation Backend := (Ratelimit -> string -> Completion UpstashResult).

Record RateLimitResponse : Type :=
  { success : bool;
    remaining : Z;
    reset_at : Z;
    rateLimitedResponse : option Response;
    pending : option Pending }.

(** [Response.json ({ message: "Too Many Requests" }, { status: 429 })],
    then the CORS headers of the caller's response and the limit header. *)
Definition new_rateLimitedResponse (response : option Headers) (limit : Z) : Response :=
  let cors :=
    filter (fun kv : string * string => startsWith "access-control-" kv.1 = true)
           (default ∅ response) in
  {| status := 429;
     body := json_object [json_member "message" (json_quote "Too Many Requests")];
     response_headers :=
       <["x-ratelimit-limit"%string := pretty limit]>
         (cors ∪ {["content-type"%string := "application/json"%string]}) |}.

Definition set_header (k v : string) (r : Response) : Response :=
  {| status := status r; body := body r;
     response_headers := <[k := v]> (response_headers r) |}.

Definition tag_remaining_reset (remaining reset_ : Z) (r : Response) : Response :=
  set_header "x-ratelimit-reset" (pretty reset_)
    (set_header "x-ratelimit-remaining" (pretty remaining) r).

(** [identifier!]: at the call sites the identifier is a non-empty string
    (lemma [resolve_identifier_truthy]). *)
Definition non_null (identifier : option string) : string := default EmptyString identifier.

(** [upstash.url = upstash.url || process.env.UPSTASH_REDIS_REST_URL] and the
    same for the token. *)
Definition with_env (env : Env) (upstash : JSObject) : JSObject :=
  let upstash :=
    prop_set "url" (js_or (prop_get "url" upstash) (of_str (UPSTASH_REDIS_REST_URL env)))
             upstash in
  prop_set "token" (js_or (prop_get "token" upstash) (of_str (UPSTASH_REDIS_REST_TOKEN env)))
           upstash.

(** [{ ...upstash, url: upstash.url, token: upstash.token }] *)
Definition spread_upstash (upstash : JSObject) : JSObject :=
  prop_set "token" (prop_get "token" upstash)
    (prop_set "url" (prop_get "url" upstash) upstash).

(** [rateLimit] at the clock reading [now]; [later] is the reading at the
    write-back that follows the Upstash answer.  One call runs to its end
    before the next starts. *)
Definition rateLimit (env : Env) (backend : Backend) (now later : Z)
    (o : RateLimitOptions) (w : World) : Completion RateLimitResponse * World :=
  let limit := default 60 (opt_limit o) in
  let window := default 60 (opt_window o) in
  let upstash := default [] (opt_upstash o) in
  if negb (bool_decide (is_Some (opt_req o)))
     && negb (bool_decide (is_Some (opt_request o)))
     && negb (str_truthy (opt_identifier o))
  then (Throw "Either Request or Identifier is Required", w)
  else
    let identifier :=
      non_null (resolve_identifier (opt_req o) (opt_request o) (opt_identifier o)) in
    let upstash := with_env env upstash in
    match initialize {| cfg_limit := limit; cfg_window := window;
                        cfg_upstash := spread_upstash upstash |} w with
    | (Throw msg, w1) => (Throw msg, w1)
    | (Return _, w1) =>
        let rateLimitedResponse := new_rateLimitedResponse (opt_response o) limit in
        match tokenCache w1 with
        | None => (Throw "TypeError: tokenCache is undefined", w1)
        | Some cache =>
            let '(local, cache1) := checkRateLimit now identifier limit window cache in
            let w2 := set_tokenCache cache1 w1 in
            if negb (chk_success local)
            then
              (Return {| success := chk_success local;
                         remaining := chk_remaining local;
                         reset_at := chk_reset local;
                         rateLimitedResponse :=
                           Some (tag_remaining_reset (chk_remaining local)
                                   (chk_reset local) rateLimitedResponse);
                         pending := None |}, w2)
            else if upstash_active upstash
            then
              match ratelimit w2 with
              | None => (Throw "TypeError: ratelimit is undefined", w2)
              | Some client =>
                  let w3 := log_upstash_call client identifier w2 in
                  match backend client identifier with
                  | Throw msg => (Throw msg, w3)
                  | Return upstashResult =>
                      let reset_ :=
                        Z.max (chk_reset local) (ceil1000 (up_reset upstashResult)) in
                      let remaining_ :=
                        Z.min (chk_remaining local) (up_remaining upstashResult) in
                      let success_ := up_success upstashResult in
                      let w4 :=
                        set_tokenCache
                          (LRU.set later identifier
                             {| count := limit - remaining_; reset := reset_ |} cache1)
                          w3 in
                      if negb success_
                      then
                        (Return {| success := success_;
                                   remaining := remaining_;
                                   reset_at := reset_;
                                   rateLimitedResponse :=
                                     Some (tag_remaining_reset remaining_ reset_
                                             rateLimitedResponse);
                                   pending := Some (up_pending upstashResult) |}, w4)
                      else
                        (Return {| success := true; remaining := remaining_;
                                   reset_at := reset_; rateLimitedResponse := None;
                                   pending := None |}, w4)
                  end
              end
            else
              (Return {| success := true; remaining := chk_remaining local;
                         reset_at := chk_reset local; rateLimitedResponse := None;
                         pending := None |}, w2)
        end
    end.

(** ** [next-rate-limit.js], first version: one fixed-window counter per key

    Lines 1-75.  [rateLimitMap] is one [Map] for both dimensions; a key is
    the address or the session identifier as it is ([None] is the key
    [undefined], which the address takes when the request has neither an
    [x-forwarded-for] header nor an [ip]). *)

Module FixedWindowJS.

Record Data : Type := { count : Z; lastReset : Z }.

(** The readings of the three [Date.now ()] calls of [handleRateLimiting],
    in the order of the source. *)
Record Clock : Type := { at_create : Z; at_check : Z; at_reset : Z }.

Definition handleRateLimiting (clk : Clock) (key : option string) (limit windowMs : Z)
    (rateLimitMap : gmap (option string) Data) : bool * gmap (option string) Data :=
  let data :=
    match rateLimitMap !! key with
    | Some d => d
    | None => {| count := 0; lastReset := at_create clk |}
    end in
  let data :=
    if at_check clk - lastReset data >? windowMs
    then {| count := 0; lastReset := at_reset clk |}
    else data in
  if count data >=? limit
  then (true, <[key := data]> rateLimitMap)
  else (false, <[key := {| count := count data + 1; lastReset := lastReset data |}]>
                 rateLimitMap).

Record NextResponse : Type := { nr_body : string; nr_status : Z }.

(** What a call hands back: the 429 response, if any, and the cookie it
    set on [nextResponse]. *)
Record Outcome : Type :=
  { returned : option NextResponse; set_cookie : option string }.

(** Line 54: [request.headers.get ("x-forwarded-for") || request.ip]. *)
Definition address_key (request : Request) : option string :=
  request_headers request !! "x-forwarded-for"%string ||| ip request.

(** Lines 55-60: the session identifier is the [session_id] cookie, or a
    new [uuidv4 ()] that is then set as the cookie.  [cookie] is
    [cookies ().get ('session_id')?.value] and [uuid] the value [uuidv4 ()]
    would give. *)
Definition session_key (cookie : option string) (uuid : string) : option string :=
  if str_truthy cookie then cookie else Some uuid.

Definition minted_cookie (cookie : option string) (uuid : string) : option string :=
  if str_truthy cookie then None else Some uuid.

Definition rateLimit (clk_ip clk_session : Clock) (uuid : string) (request : Request)
    (cookie : option string) (ipLimit sessionLimit windowMs : option Z)
    (rateLimitMap : gmap (option string) Data) : Outcome * gmap (option string) Data :=
  let ipLimit := default 300 ipLimit in
  let sessionLimit := default 30 sessionLimit in
  let windowMs := default (15 * 1000) windowMs in
  let ip := address_key request in
  let sessionId := session_key cookie uuid in
  let cookie_set := minted_cookie cookie uuid in
  let '(exceeded, m1) := handleRateLimiting clk_ip ip ipLimit windowMs rateLimitMap in
  if exceeded
  then ({| returned := Some {| nr_body := "Too Many Requests - IP Limit";
                               nr_status := 429 |};
           set_cookie := cookie_set |}, m1)
  else
    let '(exceeded, m2) := handleRateLimiting clk_session sessionId sessionLimit windowMs m1 in
    if exceeded
    then ({| returned := Some {| nr_body := "Too Many Requests - Session Limit";
                                 nr_status := 429 |};
             set_cookie := cookie_set |}, m2)
    else ({| returned := None; set_cookie := cookie_set |}, m2).

End FixedWindowJS.

(** ** [next-rate-limit.js], last version: a sliding log per key

    Lines 478-501.  The array stored by [rateLimitMap.set] is the one the
    later [push] extends, so the map sees the new timestamp. *)

Module SlidingLogJS.

Definition handleRateLimiting (currentTime : Z) (key : string) (limit windowMs : Z)
    (rateLimitMap : gmap string (list Z)) : bool * gmap string (list Z) :=
  let m1 :=
    match rateLimitMap !! key with
    | Some _ => rateLimitMap
    | None => <[key := []]> rateLimitMap
    end in
  let timestamps := default [] (m1 !! key) in
  let validTimestamps :=
    List.filter (fun timestamp => currentTime - timestamp <? windowMs) timestamps in
  let m2 := <[key := validTimestamps]> m1 in
  if Z.of_nat (length validTimestamps) >=? limit
  then (true, m2)
  else (false, <[key := validTimestamps ++ [currentTime]]> m2).

(** A call of the history of the process: its clock reading and arguments. *)
Record Call : Type :=
  { call_time : Z; call_key : string; call_limit : Z; call_window : Z }.

Definition apply_call (m : gmap string (list Z)) (c : Call) : gmap string (list Z) :=
  (handleRateLimiting (call_time c) (call_key c) (call_limit c) (call_window c) m).2.

Definition run_calls (cs : list Call) (m : gmap string (list Z)) : gmap string (list Z) :=
  foldl apply_call m cs.

End SlidingLogJS.

(** ** [next-rate-limit.js], last version: [rateLimit]

    Lines 436-476.  The two dimensions share the map of the sliding log,
    keyed by the bare address and the bare session identifier. *)

Module MiddlewareJS.

Record NextResponse : Type :=
  { nr_body : string; nr_status : Z; nr_headers : Headers }.

(** What a call hands back: the 429 response or [null], the cookie it set
    on [response], and the line it wrote with [console.warn]. *)
Record Outcome : Type :=
  { returned : option NextResponse; set_cookie : option string; warned : option string }.

(** [new NextResponse (JSON.stringify ({ message: "Too Many Requests" }),
    { status: 429, headers: { "Content-Type": "application/json" } })] *)
Definition too_many_requests : NextResponse :=
  {| nr_body := json_object [json_member "message" (json_quote "Too Many Requests")];
     nr_status := 429;
     nr_headers := {["content-type"%string := "application/json"%string]} |}.

(** Line 443: [request.headers.get ("x-forwarded-for") ||
    request.headers.get ("x-real-ip")]. *)
Definition address_key (request : Request) : option string :=
  request_headers request !! "x-forwarded-for"%string
    ||| request_headers request !! "x-real-ip"%string.

(** Lines 444-449: the [session_id] cookie, or a new [uuidv4 ()] that is
    then set as the cookie.  [cookie] is
    [(await cookies ()).get ('session_id')?.value] and [uuid] the value
    [uuidv4 ()] would give. *)
Definition session_id (cookie : option string) (uuid : string) : string :=
  if str_truthy cookie then default uuid cookie else uuid.

Definition minted_cookie (cookie : option string) (uuid : string) : option string :=
  if str_truthy cookie then None else Some uuid.

(** [now_ip] and [now_session] are the readings of [Date.now ()] in the
    two calls of [handleRateLimiting]. *)
Definition rateLimit (now_ip now_session : Z) (uuid : string) (request : Request)
    (cookie : option string) (sessionLimit ipLimit windowMs : option Z)
    (rateLimitMap : gmap string (list Z)) : Outcome * gmap string (list Z) :=
  let sessionLimit := default 30 sessionLimit in
  let ipLimit := default 300 ipLimit in
  let windowMs := default (15 * 1000) windowMs in
  let ip := address_key request in
  let sessionId := session_id cookie uuid in
  let cookie_set := minted_cookie cookie uuid in
  let '(exceeded, m1) :=
    match ip with
    | Some address =>
        if str_truthy ip
        then SlidingLogJS.handleRateLimiting now_ip address ipLimit windowMs rateLimitMap
        else (false, rateLimitMap)
    | None => (false, rateLimitMap)
    end in
  if exceeded
  then ({| returned := Some too_many_requests; set_cookie := cookie_set;
           warned := Some ("Rate limit exceeded for IP: " +:+ default EmptyString ip) |}, m1)
  else
    let '(exceeded, m2) :=
      SlidingLogJS.handleRateLimiting now_session sessionId sessionLimit windowMs m1 in
    if exceeded
    then ({| returned := Some too_many_requests; set_cookie := cookie_set;
             warned := Some ("Rate limit exceeded for session ID: " +:+ sessionId) |}, m2)
    else ({| returned := None; set_cookie := cookie_set; warned := None |}, m2).

End MiddlewareJS.

(** ** [next-rate-limit.js], fourth version: Upstash, or the sliding log

    Lines 246-418.  With Upstash enabled the decision is taken by two
    Upstash clients, one per dimension; otherwise by the sliding log of
    this version, which is the one of the last version.  A client is
    represented by the options it is constructed from; the constructors of
    the absent packages are taken to return. *)

Module UpstashJS.

(** [{ sessionLimit, sessionWindow, ipLimit, ipWindow, upstash }] *)
Record Config : Type :=
  { c_sessionLimit : Z; c_sessionWindow : Z; c_ipLimit : Z; c_ipWindow : Z;
    c_upstash : JSObject }.

(** [JSON.stringify (config)]; [None] is the initial [currentConfig = {}]. *)
Definition JSON_stringify (config : option Config) : string :=
  match config with
  | None => json_object []
  | Some c =>
      json_object
        [ json_member "sessionLimit" (pretty (c_sessionLimit c));
          json_member "sessionWindow" (pretty (c_sessionWindow c));
          json_member "ipLimit" (pretty (c_ipLimit c));
          json_member "ipWindow" (pretty (c_ipWindow c));
          json_member "upstash" (json_of_object (c_upstash c)) ]
  end.

(** The module-level variables, and the log of the requests sent to
    Upstash (a ghost field). *)
Record World : Type :=
  { redis : option Redis;
    sessionRatelimit : option Ratelimit;
    ipRatelimit : option Ratelimit;
    currentConfig : option Config;
    rateLimitMap : gmap string (list Z);
    upstash_calls : list (Ratelimit * string) }.

Definition initial_world : World :=
  {| redis := None; sessionRatelimit := None; ipRatelimit := None;
     currentConfig := None; rateLimitMap := ∅; upstash_calls := [] |}.

Definition set_rateLimitMap (m : gmap string (list Z)) (w : World) : World :=
  {| redis := redis w; sessionRatelimit := sessionRatelimit w;
     ipRatelimit := ipRatelimit w; currentConfig := currentConfig w;
     rateLimitMap := m; upstash_calls := upstash_calls w |}.

Definition log_upstash_call (rl : Ratelimit) (key : string) (w : World) : World :=
  {| redis := redis w; sessionRatelimit := sessionRatelimit w;
     ipRatelimit := ipRatelimit w; currentConfig := currentConfig w;
     rateLimitMap := rateLimitMap w;
     upstash_calls := upstash_calls w ++ [(rl, key)] |}.

(** [new Ratelimit ({ redis, limiter: Ratelimit.slidingWindow (limit,
    `${window} s`), analytics })] *)
Definition new_Ratelimit (r : Redis) (limit window : Z) (analytics_ : JSValue)
    : Ratelimit :=
  {| rl_redis := r; limiter := slidingWindow limit (duration window);
     analytics := analytics_ |}.

(** [initialize], lines 260-291. *)
Definition initialize (config : Config) (w : World) : World :=
  let url := prop_get "url" (c_upstash config) in
  let token := prop_get "token" (c_upstash config) in
  let analytics_ := prop_get "analytics" (c_upstash config) in
  if negb (bool_decide (is_Some (redis w)))
     || bool_decide (JSON_stringify (Some config) ≠ JSON_stringify (currentConfig w))
  then
    let r := {| redis_url := url; redis_token := token |} in
    {| redis := Some r;
       sessionRatelimit :=
         Some (new_Ratelimit r (c_sessionLimit config) (c_sessionWindow config) analytics_);
       ipRatelimit :=
         Some (new_Ratelimit r (c_ipLimit config) (c_ipWindow config) analytics_);
       currentConfig := Some config;
       rateLimitMap := rateLimitMap w;
       upstash_calls := upstash_calls w |}
  else w.

(** The options of a call; [o_cookie] is
    [(await cookies ()).get ('session_id')?.value]. *)
Record RateLimitOptions : Type :=
  { o_request : Request;
    o_cookie : option string;
    o_sessionLimit : option Z;
    o_ipLimit : option Z;
    o_sessionWindow : option Z;
    o_ipWindow : option Z;
    o_upstash : option JSObject;
    o_windowMs : option Z }.

(** What the call returns: [errorResponse], the 429 response built on
    line 336, or the caller's [response]. *)
Inductive Returned : Type := errorResponse | response.

Record Outcome : Type :=
  { returned : Returned; set_cookie : option string; warned : option string }.

(** Line 338: [request.headers.get ('x-forwarded-for')?.split (',')[0]
    || '127.0.0.1']. *)
Definition address_key (request : Request) : string :=
  default "127.0.0.1"%string
    ((xff ← request_headers request !! "x-forwarded-for"%string;
      head (split ","%char xff))
     ||| Some "127.0.0.1"%string).

(** [windowMs || window * 1000] *)
Definition window_ms (windowMs : option Z) (window : Z) : Z :=
  match windowMs with
  | Some v => if v =? 0 then window * 1000 else v
  | None => window * 1000
  end.

(** [rateLimit], lines 326-393.  [now_ip] and [now_session] are the
    readings of [Date.now ()] in the two calls of [handleRateLimiting],
    and [uuid] is the value [uuidv4 ()] would give. *)
Definition rateLimit (env : Env) (backend : Backend) (now_ip now_session : Z)
    (uuid : string) (o : RateLimitOptions) (w : World) : Completion Outcome * World :=
  let sessionLimit := default 20 (o_sessionLimit o) in
  let ipLimit := default 100 (o_ipLimit o) in
  let sessionWindow := default 10 (o_sessionWindow o) in
  let ipWindow := default 10 (o_ipWindow o) in
  let upstash := default [] (o_upstash o) in
  let ip := address_key (o_request o) in
  let sessionId := MiddlewareJS.session_id (o_cookie o) uuid in
  let cookie_set := MiddlewareJS.minted_cookie (o_cookie o) uuid in
  let warn_session :=
    {| returned := errorResponse; set_cookie := cookie_set;
       warned := Some ("Rate limit exceeded for session ID: " +:+ sessionId) |} in
  let warn_ip :=
    {| returned := errorResponse; set_cookie := cookie_set;
       warned := Some ("Rate limit exceeded for IP: " +:+ ip) |} in
  let pass := {| returned := response; set_cookie := cookie_set; warned := None |} in
  let upstash := with_env env upstash in
  if upstash_active upstash
  then
    let w1 :=
      initialize {| c_sessionLimit := sessionLimit; c_sessionWindow := sessionWindow;
                    c_ipLimit := ipLimit; c_ipWindow := ipWindow;
                    c_upstash := [("url"%string, prop_get "url" upstash);
                                  ("token"%string, prop_get "token" upstash)] |} w in
    match sessionRatelimit w1 with
    | None => (Throw "TypeError: sessionRatelimit is undefined", w1)
    | Some session_client =>
        let w2 := log_upstash_call session_client sessionId w1 in
        match backend session_client sessionId with
        | Throw msg => (Throw msg, w2)
        | Return session_result =>
            if negb (up_success session_result)
            then (Return warn_session, w2)
            else
              match ipRatelimit w2 with
              | None => (Throw "TypeError: ipRatelimit is undefined", w2)
              | Some ip_client =>
                  let w3 := log_upstash_call ip_client ip w2 in
                  match backend ip_client ip with
                  | Throw msg => (Throw msg, w3)
                  | Return ip_result =>
                      if negb (up_success ip_result)
                      then (Return warn_ip, w3)
                      else (Return pass, w3)
                  end
              end
        end
    end
  else
    let '(exceeded, m1) :=
      if negb (bool_decide (ip = EmptyString))
      then SlidingLogJS.handleRateLimiting now_ip ip ipLimit
             (window_ms (o_windowMs o) ipWindow) (rateLimitMap w)
      else (false, rateLimitMap w) in
    if exceeded
    then (Return warn_ip, set_rateLimitMap m1 w)
    else
      let '(exceeded, m2) :=
        SlidingLogJS.handleRateLimiting now_session sessionId sessionLimit
          (window_ms (o_windowMs o) sessionWindow) m1 in
      if exceeded
      then (Return warn_session, set_rateLimitMap m2 w)
      else (Return pass, set_rateLimitMap m2 w).

(** The module states the process can be in. *)
Inductive reachable : World -> Prop :=
| reachable_initial : reachable initial_world
| reachable_call (env : Env) (backend : Backend) (now_ip now_session : Z)
    (uuid : string) (o : RateLimitOptions) (w : World) :
    reachable w -> reachable (rateLimit env backend now_ip now_session uuid o w).2.

End UpstashJS.

(** ** Notions used in the statements *)

(** The entries that stay when a new key is stored: the least recently
    used one goes if the cache is full. *)
Definition make_room (c : LRU.t TokenData) (l : list (LRU.slot TokenData))
    : list (LRU.slot TokenData) :=
  if Z.of_nat (length l) =? LRU.max c then removelast l else l.

Definition result_of_count (limit reset_ms n : Z) : CheckResult :=
  {| chk_success := n <=? limit;
     chk_remaining := if n <=? limit then limit - n else 0;
     chk_reset := ceil1000 reset_ms |}.

(** ** Observations on a call of [rateLimit]

    Names for the values a call computes on its way, used to state what it
    does: its configuration, its identifier, whether the guard of line 101
    lets it through, the verdict of the local counter, and the Upstash
    client it would use. *)

Definition call_limit (o : RateLimitOptions) : Z := default 60 (opt_limit o).
Definition call_window (o : RateLimitOptions) : Z := default 60 (opt_window o).

Definition call_upstash (env : Env) (o : RateLimitOptions) : JSObject :=
  with_env env (default [] (opt_upstash o)).

Definition call_config (env : Env) (o : RateLimitOptions) : Config :=
  {| cfg_limit := call_limit o; cfg_window := call_window o;
     cfg_upstash := spread_upstash (call_upstash env o) |}.

Definition call_identifier (o : RateLimitOptions) : string :=
  non_null (resolve_identifier (opt_req o) (opt_request o) (opt_identifier o)).

Definition has_identity (o : RateLimitOptions) : bool :=
  bool_decide (is_Some (opt_req o)) || bool_decide (is_Some (opt_request o))
  || str_truthy (opt_identifier o).

(** The answer of [checkRateLimit] in this call, when the call gets there. *)
Definition local_verdict (env : Env) (now : Z) (o : RateLimitOptions) (w : World)
    : option CheckResult :=
  if has_identity o then
    match initialize (call_config env o) w with
    | (Return _, w1) =>
        cache ← tokenCache w1;
        Some (checkRateLimit now (call_identifier o) (call_limit o) (call_window o) cache).1
    | (Throw _, _) => None
    end
  else None.

(** The value of [ratelimit] once [initialize] has run. *)
Definition client_in_use (env : Env) (o : RateLimitOptions) (w : World)
    : option Ratelimit :=
  ratelimit (initialize (call_config env o) w).2.

(** ** The precedence of the network-address key, in the words of the
    specification

    A candidate is present when it is supplied and not empty.  The key is
    the first present candidate, and the loopback placeholder when none
    is.  The forwarded-for candidate is the rightmost entry of the
    comma-separated header, trimmed. *)

Definition present (a : option string) : Prop :=
  exists s, a = Some s /\ s <> EmptyString.

Inductive precedence : list (option string) -> string -> Prop :=
| precedence_here (s : string) (rest : list (option string)) :
    s <> EmptyString -> precedence (Some s :: rest) s
| precedence_next (a : option string) (rest : list (option string)) (key : string) :
    ~ present a -> precedence rest key -> precedence (a :: rest) key
| precedence_loopback : precedence [] "127.0.0.1".

Fixpoint contains (c : ascii) (s : string) : bool :=
  match s with
  | EmptyString => false
  | String c' s' => bool_decide (c' = c) || contains c s'
  end.

(** [e] is what follows the last comma of [l], or [l] itself when it has
    no comma. *)
Definition rightmost_entry (l e : string) : Prop :=
  contains ","%char e = false
  /\ (l = e \/ exists pre, l = pre +:+ String ","%char e).

Definition forwarded_entry (h : Headers) (fwd : option string) : Prop :=
  match h !! "x-forwarded-for"%string with
  | None => fwd = None
  | Some l => exists e, rightmost_entry l e /\ fwd = Some (trim e)
  end.

(** ** Recency of touch

    [last_touch ops k] is the position, counted from 1, of the last
    operation of the history [ops] that touched the identifier [k], and 0
    when none did. *)

Definition touch_step (k : string) (st : nat * nat) (op : CacheOp) : nat * nat :=
  (S st.1, if bool_decide (op_key op = Some k) then S st.1 else st.2).

Definition last_touch (ops : list CacheOp) (k : string) : nat :=
  (foldl (touch_step k) (0%nat, 0%nat) ops).2.

(** The keys of the cache are in strict order of their last touch, the most
    recent first. *)
Definition recency_sorted (ops : list CacheOp) (c : LRU.t TokenData) : Prop :=
  StronglySorted (fun a b => (last_touch ops b < last_touch ops a)%nat) (LRU.keys c).

(** The shape of the cache after an operation on [k] at [now]: [k] comes
    first, aged from [now] or as it was, and what follows was there
    before. *)
Definition touched_shape (now : Z) (k : string) (c c' : LRU.t TokenData) : Prop :=
  LRU.max c' = LRU.max c /\ LRU.ttl c' = LRU.ttl c
  /\ exists s l,
       LRU.items c' = s :: l /\ LRU.s_key s = k
       /\ (LRU.s_start s = now
           \/ exists s0, s0 ∈ LRU.items c /\ LRU.s_key s0 = k
                         /\ LRU.s_start s0 = LRU.s_start s)
       /\ l `sublist_of` LRU.remove k (LRU.items c)
       /\ (0 < LRU.max c -> LRU.size c <= LRU.max c -> LRU.size c' <= LRU.max c).

(** ** Reachable module states *)

(** The module states the process can be in: the initial one, and those a
    call of [rateLimit] leaves, whatever its outcome. *)
Inductive reachable : World -> Prop :=
| reachable_initial : reachable initial_world
| reachable_call (env : Env) (backend : Backend) (now later : Z)
    (o : RateLimitOptions) (w : World) :
    reachable w -> reachable (rateLimit env backend now later o w).2.

Definition within_capacity (w : World) : Prop :=
  forall c, tokenCache w = Some c -> 0 < LRU.max c -> LRU.size c <= LRU.max c.

(** ** Sample inputs

    Concrete caches, options, worlds and backends on which the statements
    below are instantiated. *)

(** The cache [initialize] builds for [limit = 2], [window = 10]. *)
Definition cache0 : LRU.t TokenData :=
  {| LRU.max := 2; LRU.ttl := 10000; LRU.items := [] |}.

(** The cache for 300 requests per ten seconds. *)
Definition cache300 : LRU.t TokenData :=
  {| LRU.max := 300; LRU.ttl := 10000; LRU.items := [] |}.

Definition env0 : Env :=
  {| UPSTASH_REDIS_REST_URL := None; UPSTASH_REDIS_REST_TOKEN := None |}.

(** No request object and no identifier. *)
Definition opts_anonymous : RateLimitOptions :=
  {| opt_request := None; opt_response := None; opt_req := None;
     opt_identifier := None; opt_limit := None; opt_window := None;
     opt_upstash := None |}.

(** An explicit identifier, two requests per ten seconds, Upstash on. *)
Definition opts_shared : RateLimitOptions :=
  {| opt_request := None; opt_response := None; opt_req := None;
     opt_identifier := Some "client-7"%string; opt_limit := Some 2;
     opt_window := Some 10;
     opt_upstash := Some [("enabled"%string, JBool true);
                          ("url"%string, JStr "https://example.upstash.io");
                          ("token"%string, JStr "secret")] |}.

(** A backend that admits, and one that rejects. *)
Definition backend_allows : Backend :=
  fun _ _ => Return {| up_success := true; up_remaining := 100;
                       up_reset := 1700000012345; up_pending := 0%nat |}.

Definition backend_refuses : Backend :=
  fun _ _ => Return {| up_success := false; up_remaining := 0;
                       up_reset := 1700000012345; up_pending := 0%nat |}.

(** The module state after two admitted calls of [opts_shared]. *)
Definition world_spent : World :=
  (rateLimit env0 backend_allows 2000 2050 opts_shared
     (rateLimit env0 backend_allows 1000 1050 opts_shared initial_world).2).2.

(** A Node request that came through two proxies. *)
Definition req_proxied : IncomingMessage :=
  {| headers := {[ "x-forwarded-for"%string := "198.51.100.9, 203.0.113.4 "%string ]};
     remoteAddress := Some "10.0.0.1"%string |}.

(** Three checks on a cache of two: ["a"], then ["b"], then ["a"] again. *)
Definition ops_two_keys : list CacheOp :=
  [OpCheck 1000 "a" 2 10; OpCheck 1100 "b" 2 10; OpCheck 1200 "a" 2 10].

(** One identifier spending its limit of two. *)
Definition ops_exhaust : list CacheOp :=
  [OpCheck 1000 "a" 2 10; OpCheck 1100 "a" 2 10; OpCheck 1200 "a" 2 10].

Definition calls_exhaust : list SlidingLogJS.Call :=
  [ {| SlidingLogJS.call_time := 1000; SlidingLogJS.call_key := "a";
       SlidingLogJS.call_limit := 2; SlidingLogJS.call_window := 10000 |};
    {| SlidingLogJS.call_time := 1100; SlidingLogJS.call_key := "a";
       SlidingLogJS.call_limit := 2; SlidingLogJS.call_window := 10000 |};
    {| SlidingLogJS.call_time := 1200; SlidingLogJS.call_key := "a";
       SlidingLogJS.call_limit := 2; SlidingLogJS.call_window := 10000 |} ].

(** A request forwarded for the address 203.0.113.4. *)
Definition request_forwarded : Request :=
  {| request_headers := {[ "x-forwarded-for"%string := "203.0.113.4"%string ]};
     ip := None |}.

Definition clock_1000 : FixedWindowJS.Clock :=
  {| FixedWindowJS.at_create := 1000; FixedWindowJS.at_check := 1000;
     FixedWindowJS.at_reset := 1000 |}.

(** An address that has spent its 300 requests, and a session short of its
    30. *)
Definition map_address_spent : gmap (option string) FixedWindowJS.Data :=
  {[ Some "203.0.113.4"%string :=
       {| FixedWindowJS.count := 300; FixedWindowJS.lastReset := 500 |};
     Some "session-1"%string :=
       {| FixedWindowJS.count := 3; FixedWindowJS.lastReset := 500 |} ]}.

(** A session that has spent its 30 requests, behind a fresh address. *)
Definition map_session_spent : gmap (option string) FixedWindowJS.Data :=
  {[ Some "session-1"%string :=
       {| FixedWindowJS.count := 30; FixedWindowJS.lastReset := 500 |} ]}.

(** The module state after one admitted call of [opts_shared]: the Upstash
    client is built for two requests per ten seconds. *)
Definition world_shared : World :=
  (rateLimit env0 backend_allows 1000 1050 opts_shared initial_world).2.

(** The same identifier, five requests per ten seconds, Upstash off. *)
Definition opts_local : RateLimitOptions :=
  {| opt_request := None; opt_response := None; opt_req := None;
     opt_identifier := Some "client-7"%string; opt_limit := Some 5;
     opt_window := Some 10; opt_upstash := None |}.

(** The same Upstash settings written in two orders. *)
Definition opts_enabled_first : RateLimitOptions :=
  {| opt_request := None; opt_response := None; opt_req := None;
     opt_identifier := Some "client-7"%string; opt_limit := Some 5;
     opt_window := Some 10;
     opt_upstash := Some [("enabled"%string, JBool false);
                          ("analytics"%string, JBool false)] |}.

Definition opts_analytics_first : RateLimitOptions :=
  {| opt_request := None; opt_response := None; opt_req := None;
     opt_identifier := Some "client-7"%string; opt_limit := Some 5;
     opt_window := Some 10;
     opt_upstash := Some [("analytics"%string, JBool false);
                          ("enabled"%string, JBool false)] |}.

Definition world_enabled_first : World :=
  (rateLimit env0 backend_allows 1000 1050 opts_enabled_first initial_world).2.

(** ** Further notions for [rateLimit] *)

(** Successive calls of [rateLimit] with the same options, at the clock
    readings [times] (for each call the reading of the local check and the
    one of the write-back). *)
Fixpoint rateLimit_seq (env : Env) (backend : Backend) (times : list (Z * Z))
    (o : RateLimitOptions) (w : World)
    : list (Completion RateLimitResponse) * World :=
  match times with
  | [] => ([], w)
  | (now, later) :: times' =>
      let '(r, w') := rateLimit env backend now later o w in
      let '(rs, w'') := rateLimit_seq env backend times' o w' in
      (r :: rs, w'')
  end.

(** What [rateLimit] returns for a verdict of the local counter when
    Upstash is not consulted (lines 149-159 and 190). *)
Definition local_response (response : option Headers) (limit : Z) (local : CheckResult)
    : RateLimitResponse :=
  if chk_success local
  then {| success := true; remaining := chk_remaining local;
          reset_at := chk_reset local; rateLimitedResponse := None; pending := None |}
  else {| success := false; remaining := chk_remaining local;
          reset_at := chk_reset local;
          rateLimitedResponse :=
            Some (tag_remaining_reset (chk_remaining local) (chk_reset local)
                    (new_rateLimitedResponse response limit));
          pending := None |}.

(** ** Runs of [handleRateLimiting] on one key *)

(** The fixed-window [handleRateLimiting] of the first version, called once
    for each clock of [clks]: the verdicts in order, and the map left. *)
Fixpoint fixed_window_seq (clks : list FixedWindowJS.Clock) (key : option string)
    (limit windowMs : Z) (m : gmap (option string) FixedWindowJS.Data)
    : list bool * gmap (option string) FixedWindowJS.Data :=
  match clks with
  | [] => ([], m)
  | clk :: clks' =>
      let '(exceeded, m1) := FixedWindowJS.handleRateLimiting clk key limit windowMs m in
      let '(rest, m2) := fixed_window_seq clks' key limit windowMs m1 in
      (exceeded :: rest, m2)
  end.

(** The sliding-log [handleRateLimiting] called at each reading of [times]:
    the readings of the calls that were let through, in order, and the map
    left. *)
Definition sliding_log_step (key : string) (limit windowMs : Z)
    (st : list Z * gmap string (list Z)) (now : Z) : list Z * gmap string (list Z) :=
  let '(exceeded, m) := SlidingLogJS.handleRateLimiting now key limit windowMs st.2 in
  (if exceeded then st.1 else st.1 ++ [now], m).

Definition sliding_log_run (times : list Z) (key : string) (limit windowMs : Z)
    (m : gmap string (list Z)) : list Z * gmap string (list Z) :=
  foldl (sliding_log_step key limit windowMs) ([], m) times.

(** The timestamps younger than [windowMs] at [now]. *)
Definition in_window (now windowMs : Z) (ts : list Z) : list Z :=
  List.filter (fun timestamp => now - timestamp <? windowMs) ts.

(** ** Notions for the fourth version *)

(** The Upstash clients of the fourth version, when there are any, are
    those [initialize] builds from the stored configuration, with
    [analytics] undefined. *)
Definition clients_of_config (w : UpstashJS.World) : Prop :=
  match UpstashJS.redis w with
  | None => True
  | Some r =>
      exists config,
        UpstashJS.currentConfig w = Some config
        /\ UpstashJS.sessionRatelimit w
           = Some (UpstashJS.new_Ratelimit r (UpstashJS.c_sessionLimit config)
                     (UpstashJS.c_sessionWindow config) JUndefined)
        /\ UpstashJS.ipRatelimit w
           = Some (UpstashJS.new_Ratelimit r (UpstashJS.c_ipLimit config)
                     (UpstashJS.c_ipWindow config) JUndefined)
  end.

(** The configuration a call of the fourth version hands to [initialize]. *)
Definition upstash_config (env : Env) (o : UpstashJS.RateLimitOptions) : UpstashJS.Config :=
  let upstash := with_env env (default [] (UpstashJS.o_upstash o)) in
  {| UpstashJS.c_sessionLimit := default 20 (UpstashJS.o_sessionLimit o);
     UpstashJS.c_sessionWindow := default 10 (UpstashJS.o_sessionWindow o);
     UpstashJS.c_ipLimit := default 100 (UpstashJS.o_ipLimit o);
     UpstashJS.c_ipWindow := default 10 (UpstashJS.o_ipWindow o);
     UpstashJS.c_upstash := [("url"%string, prop_get "url" upstash);
                             ("token"%string, prop_get "token" upstash)] |}.

(** ** Further sample inputs *)

(** A backend whose request fails. *)
Definition backend_fails : Backend := fun _ _ => Throw "fetch failed".

(** Six successive calls within one window of ten seconds. *)
Definition times_in_window : list (Z * Z) :=
  [(2000, 2001); (3000, 3001); (4000, 4001); (5000, 5001); (6000, 6001)].

(** The module state after one call of [opts_local]. *)
Definition world_local : World :=
  (rateLimit env0 backend_allows 1000 1001 opts_local initial_world).2.

(** The same identifier with a limit of two, Upstash off. *)
Definition opts_local_two : RateLimitOptions :=
  {| opt_request := None; opt_response := None; opt_req := None;
     opt_identifier := Some "client-7"%string; opt_limit := Some 2;
     opt_window := Some 10; opt_upstash := None |}.

(** One request per ten seconds, with a response that carries a CORS
    header and another header. *)
Definition opts_cors : RateLimitOptions :=
  {| opt_request := None;
     opt_response := Some {[ "access-control-allow-origin"%string := "*"%string;
                             "x-powered-by"%string := "Next.js"%string ]};
     opt_req := None;
     opt_identifier := Some "client-7"%string; opt_limit := Some 1;
     opt_window := Some 10; opt_upstash := None |}.

(** The module state after the one call [opts_cors] allows. *)
Definition world_cors_spent : World :=
  (rateLimit env0 backend_allows 1000 1001 opts_cors initial_world).2.

(** A cache of two that holds ["a"] and, more recently used, ["b"]. *)
Definition cache_full : LRU.t TokenData :=
  run_ops [OpCheck 1000 "a" 2 10; OpCheck 1100 "b" 2 10] cache0.

Definition clock_at (t : Z) : FixedWindowJS.Clock :=
  {| FixedWindowJS.at_create := t; FixedWindowJS.at_check := t;
     FixedWindowJS.at_reset := t |}.

(** A request without headers. *)
Definition request_bare : Request :=
  {| request_headers := ∅; ip := None |}.

(** A session that has made two calls in the last fifteen seconds. *)
Definition log_session_spent : gmap string (list Z) :=
  {[ "session-1"%string := [900; 950] ]}.

(** A call of the fourth version with Upstash enabled and [analytics]
    asked for. *)
Definition opts_upstash_js : UpstashJS.RateLimitOptions :=
  {| UpstashJS.o_request := request_forwarded;
     UpstashJS.o_cookie := Some "session-1"%string;
     UpstashJS.o_sessionLimit := None; UpstashJS.o_ipLimit := None;
     UpstashJS.o_sessionWindow := None; UpstashJS.o_ipWindow := None;
     UpstashJS.o_upstash := Some [("enabled"%string, JBool true);
                                  ("url"%string, JStr "https://example.upstash.io");
                                  ("token"%string, JStr "secret");
                                  ("analytics"%string, JBool true)];
     UpstashJS.o_windowMs := None |}.

(** ** Notions for a call within a history *)


(** The number of operations of a history on the identifier [k]. *)
Definition calls_on (k : string) (ops : list CacheOp) : nat :=
  length (filter (fun op => op_key op = Some k) ops).

(** Between two calls on ["a"], a call on ["b"]: two identifiers on a
    cache of two. *)
Definition ops_between : list CacheOp :=
  [OpCheck 1100 "b" 2 10; OpCheck 1200 "a" 2 10].


(** * Properties *)

(** ** The cache *)

Section LRU_facts.
Context {V : Type}.
Implicit Types (l : list (LRU.slot V)) (c : LRU.t V) (k : string).

Lemma find_None_iff k l : LRU.find k l = None <-> k ∉ LRU.s_key <$> l.
Proof.
  unfold LRU.find. induction l as [|s l IH]; simpl.
  - split; [intros _; apply not_elem_of_nil | done].
  - unfold LRU.has_key at 1. case_bool_decide as Hk.
    + split; [done | intros []; subst; left].
    + rewrite IH, not_elem_of_cons. split; [by intros ? | by intros [_ ?]].
Qed.

Lemma find_Some_key k l s : LRU.find k l = Some s -> LRU.s_key s = k ∧ s ∈ l.
Proof.
  unfold LRU.find. intros H. apply find_some in H as [Hin Hk].
  unfold LRU.has_key in Hk. apply bool_decide_eq_true in Hk.
  split; [done | by apply list_elem_of_In].
Qed.

Lemma keys_remove k l :
  LRU.s_key <$> LRU.remove k l = List.filter (fun k' => negb (bool_decide (k' = k))) (LRU.s_key <$> l).
Proof.
  unfold LRU.remove, LRU.has_key. induction l as [|s l IH]; [done|].
  cbn [List.filter fmap list_fmap LRU.s_key].
  destruct (bool_decide (LRU.s_key s = k)); cbn [negb]; [exact IH|].
  cbn [fmap list_fmap]. f_equal. exact IH.
Qed.

Lemma find_remove k l : LRU.find k (LRU.remove k l) = None.
Proof.
  apply find_None_iff. rewrite keys_remove, list_elem_of_In, filter_In.
  intros [_ H]. by rewrite bool_decide_eq_true_2 in H.
Qed.

Lemma remove_absent k l : LRU.find k l = None -> LRU.remove k l = l.
Proof.
  unfold LRU.find, LRU.remove. induction l as [|s l IH]; simpl; [done|].
  destruct (LRU.has_key k s); simpl; [done|]. intros H. by rewrite IH.
Qed.

Lemma modify_absent k (f : V -> V) l :
  LRU.find k l = None ->
  (fun s => if LRU.has_key k s
            then LRU.Slot (LRU.s_key s) (f (LRU.s_val s)) (LRU.s_start s) else s) <$> l = l.
Proof.
  unfold LRU.find. induction l as [|s l IH]; simpl; [done|].
  destruct (LRU.has_key k s); simpl; [done|]. intros H. f_equal. by apply IH.
Qed.

Lemma peek_get now k c : (LRU.get now k c).1 = LRU.peek now k c.
Proof.
  unfold LRU.get, LRU.peek. destruct (LRU.find k (LRU.items c)); [|done].
  by destruct (LRU.isStale c now s).
Qed.
End LRU_facts.

(** ** [checkRateLimit] on a fresh and on a tracked identifier *)

Lemma find_removelast {V} k (l : list (LRU.slot V)) :
  LRU.find k l = None -> LRU.find k (removelast l) = None.
Proof.
  rewrite !find_None_iff. intros H Hin. apply H.
  rewrite list_elem_of_fmap in Hin. destruct Hin as (s & -> & Hs).
  apply list_elem_of_fmap. exists s. split; [done|].
  apply list_elem_of_In. apply list_elem_of_In in Hs.
  destruct (decide (l = [])) as [->|Hne]; [done|].
  rewrite (app_removelast_last s Hne). apply in_or_app. by left.
Qed.

Lemma find_make_room k c l : LRU.find k l = None -> LRU.find k (make_room c l) = None.
Proof. unfold make_room. destruct (_ =? _); [apply find_removelast | done]. Qed.

Lemma checkRateLimit_fresh now k limit window c :
  LRU.peek now k c = None ->
  checkRateLimit now k limit window c =
    (result_of_count limit (now + window) 1,
     LRU.with_items c
       (LRU.Slot k {| count := 1; reset := now + window |} now
          :: make_room c (LRU.remove k (LRU.items c)))).
Proof.
  intros Hpeek. unfold checkRateLimit, LRU.get. unfold LRU.peek in Hpeek.
  destruct (LRU.find k (LRU.items c)) as [s|] eqn:Hfind.
  - destruct (LRU.isStale c now s); [|done].
    unfold LRU.set. cbn [LRU.items LRU.with_items].
    rewrite find_remove. unfold LRU.modify, LRU.with_items, result_of_count.
    cbn [LRU.items LRU.max LRU.ttl LRU.size fmap list_fmap].
    unfold LRU.has_key at 1. cbn [LRU.s_key]. rewrite bool_decide_eq_true_2 by done.
    fold (make_room c (LRU.remove k (LRU.items c))).
    change (list_fmap _ _ ?g ?l) with (g <$> l).
    rewrite modify_absent by (apply find_make_room, find_remove). done.
  - unfold LRU.set. rewrite Hfind. unfold LRU.modify, LRU.with_items, result_of_count.
    cbn [LRU.items LRU.max LRU.ttl LRU.size fmap list_fmap].
    unfold LRU.has_key at 1. cbn [LRU.s_key]. rewrite bool_decide_eq_true_2 by done.
    rewrite (remove_absent k (LRU.items c)) by done.
    fold (make_room c (LRU.items c)).
    change (list_fmap _ _ ?g ?l) with (g <$> l).
    rewrite modify_absent by (by apply find_make_room). done.
Qed.

Lemma checkRateLimit_live now k limit window c s :
  LRU.find k (LRU.items c) = Some s ->
  LRU.isStale c now s = false ->
  checkRateLimit now k limit window c =
    (result_of_count limit (reset (LRU.s_val s)) (count (LRU.s_val s) + 1),
     LRU.with_items c
       (LRU.Slot k (bump (LRU.s_val s)) (LRU.s_start s) :: LRU.remove k (LRU.items c))).
Proof.
  intros Hfind Hlive. unfold checkRateLimit, LRU.get. rewrite Hfind, Hlive.
  unfold LRU.modify, LRU.with_items, result_of_count.
  cbn [LRU.items LRU.max LRU.ttl fmap list_fmap].
  destruct (find_Some_key _ _ _ Hfind) as [Hk _].
  unfold LRU.has_key at 1. rewrite bool_decide_eq_true_2 by done.
  change (list_fmap _ _ ?g ?l) with (g <$> l).
  rewrite modify_absent by apply find_remove. by rewrite Hk.
Qed.

Lemma checkRateLimit_seq_live k limit window (c : LRU.t TokenData) t0 R ts :
  forall n rest,
  LRU.items c = LRU.Slot k {| count := n; reset := R |} t0 :: rest ->
  LRU.find k rest = None ->
  Forall (fun t => t - t0 <= LRU.ttl c) ts ->
  (checkRateLimit_seq ts k limit window c).1 =
    (fun i => result_of_count limit R (n + i)) <$> seqZ 1 (Z.of_nat (length ts)).
Proof.
  revert c. induction ts as [|t ts IH]; intros c n rest Hitems Hrest Hts; [done|].
  apply Forall_cons in Hts as [Ht Hts].
  cbn [checkRateLimit_seq].
  assert (Hfind : LRU.find k (LRU.items c)
                  = Some (LRU.Slot k {| count := n; reset := R |} t0)).
  { rewrite Hitems. unfold LRU.find. cbn [List.find].
    unfold LRU.has_key. cbn [LRU.s_key]. by rewrite bool_decide_eq_true_2. }
  assert (Hlive : LRU.isStale c t (LRU.Slot k {| count := n; reset := R |} t0) = false).
  { unfold LRU.isStale. cbn [LRU.s_start].
    apply andb_false_iff. right. apply Z.ltb_ge. lia. }
  rewrite (checkRateLimit_live t k limit window c _ Hfind Hlive).
  cbn [LRU.s_val LRU.s_start count reset bump].
  set (c' := LRU.with_items c _).
  specialize (IH c' (n + 1) rest).
  destruct (checkRateLimit_seq ts k limit window c') as [rs c''] eqn:Hseq.
  cbn [fst] in *. rewrite IH; cycle 1.
  - unfold c'. cbn [LRU.items LRU.with_items]. rewrite Hitems.
    unfold LRU.remove. cbn [List.filter]. unfold LRU.has_key at 1. cbn [LRU.s_key].
    rewrite bool_decide_eq_true_2 by done. cbn [negb].
    fold (LRU.remove k rest). by rewrite remove_absent.
  - done.
  - done.
  - rewrite length_cons, Nat2Z.inj_succ.
    rewrite (seqZ_cons 1 (Z.succ _)) by lia.
    rewrite fmap_cons. f_equal.
    replace (Z.pred (Z.succ (Z.of_nat (length ts)))) with (Z.of_nat (length ts)) by lia.
    rewrite <- (fmap_add_seqZ 1 1). rewrite <- list_fmap_compose.
    apply list_fmap_ext. intros _ i _. cbn. f_equal; lia.
Qed.

(** Successive calls on one identifier, with nothing else touching the
    cache in between: on an identifier without a live entry and with a
    limit [L > 0], of [L + 1] calls within one window (the first at [t0],
    every later one no more than [window * 1000] ms after it, on a cache
    whose [ttl] is that window) call number [n <= L] is admitted with
    [remaining = L - n], and call number [L + 1] is rejected with
    [remaining = 0]. *)
Lemma checkRateLimit_successive_calls (c : LRU.t TokenData) (k : string)
    (L window t0 : Z) (ts : list Z) :
  0 < L ->
  LRU.ttl c = window * 1000 ->
  LRU.peek t0 k c = None ->
  length ts = Z.to_nat L ->
  Forall (fun t => t - t0 <= window * 1000) ts ->
  (checkRateLimit_seq (t0 :: ts) k L window c).1 =
    ((fun n => {| chk_success := true; chk_remaining := L - n;
                  chk_reset := ceil1000 (t0 + window) |}) <$> seqZ 1 L)
    ++ [ {| chk_success := false; chk_remaining := 0;
            chk_reset := ceil1000 (t0 + window) |} ].
Proof.
  intros HL Httl Hfresh Hlen Hts.
  cbn [checkRateLimit_seq]. rewrite (checkRateLimit_fresh _ _ _ _ _ Hfresh).
  set (c' := LRU.with_items c _).
  pose proof (checkRateLimit_seq_live k L window c' t0 (t0 + window) ts 1
                (make_room c (LRU.remove k (LRU.items c)))) as Hseq.
  destruct (checkRateLimit_seq ts k L window c') as [rs c''].
  cbn [fst] in *. rewrite Hseq; cycle 1.
  - done.
  - apply find_make_room, find_remove.
  - unfold c'. cbn [LRU.ttl LRU.with_items]. by rewrite Httl.
  - rewrite Hlen, Z2Nat.id by lia.
    transitivity (result_of_count L (t0 + window) <$> seqZ 1 (L + 1)).
    + rewrite (seqZ_cons 1 (L + 1)) by lia. rewrite fmap_cons. f_equal.
      replace (Z.pred (L + 1)) with L by lia.
      rewrite <- (fmap_add_seqZ 1 1), <- list_fmap_compose. done.
    + rewrite seqZ_app by lia. rewrite fmap_app. f_equal.
      * apply list_fmap_ext. intros i n Hn.
        apply list_elem_of_lookup_2, elem_of_seqZ in Hn.
        unfold result_of_count. rewrite (proj2 (Z.leb_le n L)) by lia. done.
      * rewrite (seqZ_cons _ 1), seqZ_nil by lia. cbn.
        unfold result_of_count. rewrite (proj2 (Z.leb_gt _ _)) by lia. done.
Qed.

(** The scenario of 301 calls with a limit of 300 and a window of ten
    seconds. *)
Example checkRateLimit_successive_calls_sample :
  0 < 300
  /\ LRU.ttl cache300 = 10 * 1000
  /\ LRU.peek 1000 "203.0.113.4" cache300 = None
  /\ length (replicate 300 4000) = Z.to_nat 300
  /\ Forall (fun t => t - 1000 <= 10 * 1000) (replicate 300 4000)
  /\ (checkRateLimit_seq (1000 :: replicate 300 4000) "203.0.113.4" 300 10 cache300).1
     = ((fun n => {| chk_success := true; chk_remaining := 300 - n;
                     chk_reset := ceil1000 (1000 + 10) |}) <$> seqZ 1 300)
       ++ [ {| chk_success := false; chk_remaining := 0;
               chk_reset := ceil1000 (1000 + 10) |} ].
Proof.
  assert (H1 : 0 < 300) by lia.
  assert (H5 : Forall (fun t => t - 1000 <= 10 * 1000) (replicate 300 4000)).
  { apply Forall_replicate. lia. }
  exact (conj H1 (conj eq_refl (conj eq_refl (conj eq_refl (conj H5
           (checkRateLimit_successive_calls cache300 "203.0.113.4" 300 10 1000
              (replicate 300 4000) H1 eq_refl eq_refl eq_refl H5)))))).
Qed.

(** C10.  On a fresh identifier first seen at millisecond [t], with the
    window [w] given in seconds, [checkRateLimit] stores [reset = t + w]
    (milliseconds plus seconds) and reports [ceil ((t + w) / 1000)].  So
    for [0 <= w < 1000] the reported epoch second is the one of the call
    ([ceil (t / 1000)]) or the next one, less than [1000 + w] ms after the
    call, and for [w >= 2] it falls short of [ceil (t / 1000) + w], the
    second that lies [w] seconds ahead. *)
Theorem checkRateLimit_reset_mixes_units (c : LRU.t TokenData) (k : string)
    (limit w t : Z) :
  LRU.peek t k c = None ->
  let out := checkRateLimit t k limit w c in
  LRU.find k (LRU.items out.2)
    = Some (LRU.Slot k {| count := 1; reset := t + w |} t)
  /\ chk_reset out.1 = ceil1000 (t + w)
  /\ (0 <= w < 1000 ->
      ceil1000 t <= chk_reset out.1 <= ceil1000 t + 1
      /\ 1000 * chk_reset out.1 - t < 1000 + w
      /\ (2 <= w -> chk_reset out.1 < ceil1000 t + w)).
Proof.
  intros Hfresh out. unfold out. rewrite (checkRateLimit_fresh _ _ _ _ _ Hfresh).
  cbn [fst snd LRU.items LRU.with_items chk_reset result_of_count].
  split.
  { unfold LRU.find. cbn [List.find]. unfold LRU.has_key. cbn [LRU.s_key].
    by rewrite bool_decide_eq_true_2. }
  split; [done|]. intros Hw. unfold ceil1000.
  pose proof (Z.div_mod (t + w + 999) 1000 ltac:(lia)) as Hd1.
  pose proof (Z.mod_pos_bound (t + w + 999) 1000 ltac:(lia)) as Hm1.
  pose proof (Z.div_mod (t + 999) 1000 ltac:(lia)) as Hd2.
  pose proof (Z.mod_pos_bound (t + 999) 1000 ltac:(lia)) as Hm2.
  split; [lia|]. split; [lia|]. intros ?. lia.
Qed.

Lemma checkRateLimit_reset_mixes_units_witness :
  LRU.peek 1700000000000 "203.0.113.4" cache0 = None
  /\ let out := checkRateLimit 1700000000000 "203.0.113.4" 300 10 cache0 in
     LRU.find "203.0.113.4" (LRU.items out.2)
       = Some (LRU.Slot "203.0.113.4" {| count := 1; reset := 1700000000000 + 10 |}
                        1700000000000)
     /\ chk_reset out.1 = ceil1000 (1700000000000 + 10)
     /\ (0 <= 10 < 1000 ->
         ceil1000 1700000000000 <= chk_reset out.1 <= ceil1000 1700000000000 + 1
         /\ 1000 * chk_reset out.1 - 1700000000000 < 1000 + 10
         /\ (2 <= 10 -> chk_reset out.1 < ceil1000 1700000000000 + 10)).
Proof.
  split; [reflexivity|].
  exact (checkRateLimit_reset_mixes_units cache0 "203.0.113.4" 300 10 1700000000000 eq_refl).
Defined.

(** ** [rateLimit]: the guard, the local verdict and the merge *)

Lemma initialize_upstash_calls config w :
  upstash_calls (initialize config w).2 = upstash_calls w.
Proof.
  unfold initialize. case_bool_decide; [|done].
  destruct (LRU.create _ _); [|done].
  by destruct (upstash_active _).
Qed.

Lemma has_identity_guard o :
  negb (bool_decide (is_Some (opt_req o)))
  && negb (bool_decide (is_Some (opt_request o)))
  && negb (str_truthy (opt_identifier o)) = negb (has_identity o).
Proof.
  unfold has_identity.
  by destruct (bool_decide _), (bool_decide _), (str_truthy _).
Qed.

(** C8.  A call with neither [req] nor [request] nor a non-empty
    [identifier] throws the invalid-input error and leaves the module state
    as it was: no configuration is installed and nothing is counted. *)
Theorem rateLimit_requires_identity (env : Env) (backend : Backend) (now later : Z)
    (o : RateLimitOptions) (w : World) :
  opt_req o = None ->
  opt_request o = None ->
  str_truthy (opt_identifier o) = false ->
  rateLimit env backend now later o w
  = (Throw "Either Request or Identifier is Required", w).
Proof.
  intros Hreq Hrequest Hid. unfold rateLimit. rewrite Hreq, Hrequest, Hid.
  rewrite !bool_decide_eq_false_2 by (by intros [? ?]). done.
Qed.

Lemma rateLimit_requires_identity_witness :
  opt_req opts_anonymous = None
  /\ opt_request opts_anonymous = None
  /\ str_truthy (opt_identifier opts_anonymous) = false
  /\ rateLimit env0 backend_allows 1000 1050 opts_anonymous initial_world
     = (Throw "Either Request or Identifier is Required", initial_world).
Proof.
  exact (conj eq_refl (conj eq_refl (conj eq_refl
           (rateLimit_requires_identity env0 backend_allows 1000 1050 opts_anonymous
              initial_world eq_refl eq_refl eq_refl)))).
Defined.

(** C3.  When the local counter rejects, [rateLimit] returns
    [success = false] with the 429 response, and no request goes to
    Upstash: the log of Upstash calls is unchanged, whatever the [upstash]
    options are, and the outcome is the same for every backend. *)
Theorem rateLimit_local_reject_skips_upstash (env : Env) (backend : Backend)
    (now later : Z) (o : RateLimitOptions) (w : World) (local : CheckResult) :
  local_verdict env now o w = Some local ->
  chk_success local = false ->
  exists resp w',
    rateLimit env backend now later o w
    = (Return {| success := false; remaining := chk_remaining local;
                 reset_at := chk_reset local; rateLimitedResponse := Some resp;
                 pending := None |}, w')
    /\ status resp = 429
    /\ upstash_calls w' = upstash_calls w
    /\ forall backend', rateLimit env backend' now later o w
                        = rateLimit env backend now later o w.
Proof.
  unfold local_verdict, rateLimit. rewrite has_identity_guard.
  destruct (has_identity o); [|done]. cbn [negb].
  fold (call_limit o) (call_window o) (call_upstash env o) (call_config env o)
       (call_identifier o).
  pose proof (initialize_upstash_calls (call_config env o) w) as Hcalls.
  destruct (initialize (call_config env o) w) as [[[]|msg] w1]; [|done].
  destruct (tokenCache w1) as [cache|]; [|done]. cbn [mbind option_bind].
  destruct (checkRateLimit now (call_identifier o) (call_limit o) (call_window o) cache)
    as [local' cache1].
  cbn [fst]. intros [= ->] Hrej. rewrite Hrej. cbn [negb].
  eexists _, _. split; [reflexivity|]. split; [done|]. split; [exact Hcalls | done].
Qed.

Lemma rateLimit_local_reject_skips_upstash_witness :
  local_verdict env0 3000 opts_shared world_spent
  = Some {| chk_success := false; chk_remaining := 0; chk_reset := 1700001 |}
  /\ exists resp w',
       rateLimit env0 backend_allows 3000 3050 opts_shared world_spent
       = (Return {| success := false; remaining := 0; reset_at := 1700001;
                    rateLimitedResponse := Some resp; pending := None |}, w')
       /\ status resp = 429
       /\ upstash_calls w' = upstash_calls world_spent
       /\ forall backend', rateLimit env0 backend' 3000 3050 opts_shared world_spent
                           = rateLimit env0 backend_allows 3000 3050 opts_shared world_spent.
Proof.
  exact (conj eq_refl
           (rateLimit_local_reject_skips_upstash env0 backend_allows 3000 3050
              opts_shared world_spent
              {| chk_success := false; chk_remaining := 0; chk_reset := 1700001 |}
              eq_refl eq_refl)).
Defined.

Lemma ceil1000_bounds (x : Z) : 1000 * (ceil1000 x - 1) < x <= 1000 * ceil1000 x.
Proof.
  unfold ceil1000. pose proof (Z.div_mod (x + 999) 1000 ltac:(lia)).
  pose proof (Z.mod_pos_bound (x + 999) 1000 ltac:(lia)). lia.
Qed.

(** C2.  When the local counter admits and Upstash is enabled and answers
    [u], the result merges the two: [remaining] is the minimum of the local
    and the shared value, [reset] the maximum of the local reset and the
    shared one in epoch seconds, that is of the second [s] with
    [1000 * (s - 1) < up_reset u <= 1000 * s], and [success] is the shared
    verdict, which is also its conjunction with the local one.  A shared
    rejection thus gives [success = false], with the 429 response. *)
Theorem rateLimit_merges_upstash (env : Env) (backend : Backend) (now later : Z)
    (o : RateLimitOptions) (w : World) (local : CheckResult) (client : Ratelimit)
    (u : UpstashResult) :
  local_verdict env now o w = Some local ->
  chk_success local = true ->
  upstash_active (call_upstash env o) = true ->
  client_in_use env o w = Some client ->
  backend client (call_identifier o) = Return u ->
  exists r w',
    rateLimit env backend now later o w = (Return r, w')
    /\ remaining r = Z.min (chk_remaining local) (up_remaining u)
    /\ (exists s, 1000 * (s - 1) < up_reset u <= 1000 * s
                  /\ reset_at r = Z.max (chk_reset local) s)
    /\ success r = up_success u
    /\ success r = chk_success local && up_success u
    /\ (up_success u = false ->
        success r = false /\ exists resp, rateLimitedResponse r = Some resp
                                          /\ status resp = 429)
    /\ upstash_calls w' = upstash_calls w ++ [(client, call_identifier o)].
Proof.
  unfold local_verdict, client_in_use, rateLimit. rewrite has_identity_guard.
  destruct (has_identity o); [|done]. cbn [negb].
  fold (call_limit o) (call_window o) (call_upstash env o) (call_config env o)
       (call_identifier o).
  pose proof (initialize_upstash_calls (call_config env o) w) as Hcalls.
  destruct (initialize (call_config env o) w) as [[[]|msg] w1]; [|done].
  destruct (tokenCache w1) as [cache|]; [|done]. cbn [mbind option_bind snd] in *.
  destruct (checkRateLimit now (call_identifier o) (call_limit o) (call_window o) cache)
    as [local' cache1].
  cbn [fst]. intros [= ->] Hok Hactive Hclient Hanswer.
  rewrite Hok, Hactive. cbn [negb ratelimit set_tokenCache].
  rewrite Hclient, Hanswer.
  destruct (up_success u) eqn:Hu; cbn [negb];
    eexists _, _; (split; [reflexivity|]); cbn; rewrite ?Hcalls;
    (split; [done|]);
    (split; [exists (ceil1000 (up_reset u)); split; [apply ceil1000_bounds | done]|]);
    naive_solver.
Qed.

Lemma rateLimit_merges_upstash_witness :
  local_verdict env0 1000 opts_shared initial_world
  = Some {| chk_success := true; chk_remaining := 1; chk_reset := 2 |}
  /\ upstash_active (call_upstash env0 opts_shared) = true
  /\ exists r w',
       rateLimit env0 backend_refuses 1000 1050 opts_shared initial_world = (Return r, w')
       /\ remaining r = Z.min 1 0
       /\ (exists s, 1000 * (s - 1) < 1700000012345 <= 1000 * s
                     /\ reset_at r = Z.max 2 s)
       /\ success r = false
       /\ success r = true && false
       /\ (false = false ->
           success r = false /\ exists resp, rateLimitedResponse r = Some resp
                                             /\ status resp = 429)
       /\ upstash_calls w'
          = upstash_calls initial_world
            ++ [(new_Ratelimit (call_config env0 opts_shared)
                   {| redis_url := JStr "https://example.upstash.io";
                      redis_token := JStr "secret" |}, call_identifier opts_shared)].
Proof.
  exact (conj eq_refl (conj eq_refl
           (rateLimit_merges_upstash env0 backend_refuses 1000 1050 opts_shared
              initial_world
              {| chk_success := true; chk_remaining := 1; chk_reset := 2 |}
              (new_Ratelimit (call_config env0 opts_shared)
                 {| redis_url := JStr "https://example.upstash.io";
                    redis_token := JStr "secret" |})
              {| up_success := false; up_remaining := 0;
                 up_reset := 1700000012345; up_pending := 0%nat |}
              eq_refl eq_refl eq_refl eq_refl eq_refl))).
Defined.

(** The numbers of the sample call: the local counter reports 1 left and
    the second 2, Upstash reports 0 left and the millisecond
    1700000012345, and the call returns 0 left and the second 1700000013. *)
Example merged_result_sample :
  exists resp w',
    rateLimit env0 backend_refuses 1000 1050 opts_shared initial_world
    = (Return {| success := false; remaining := 0; reset_at := 1700000013;
                 rateLimitedResponse := Some resp; pending := Some 0%nat |}, w').
Proof. eexists _, _. vm_compute. reflexivity. Qed.

(** ** Identity resolution *)

Lemma split_nonempty sep s : split sep s <> [].
Proof.
  destruct s as [|c s]; cbn [split]; [done|].
  case_bool_decide; [done|]. by destruct (split sep s).
Qed.

Lemma split_no_sep sep e : contains sep e = false -> split sep e = [e].
Proof.
  induction e as [|c e IH]; cbn [contains split]; [done|].
  intros [Hc He]%orb_false_iff. rewrite Hc. by rewrite IH.
Qed.

Lemma split_append_sep sep pre e :
  exists init, init <> [] /\ split sep (pre +:+ String sep e) = init ++ split sep e.
Proof.
  induction pre as [|c pre (init & Hinit & IH)].
  - exists [EmptyString]. split; [done|].
    change (EmptyString +:+ String sep e) with (String sep e).
    cbn [split]. by rewrite bool_decide_eq_true_2.
  - change (String c pre +:+ String sep e) with (String c (pre +:+ String sep e)).
    cbn [split]. rewrite IH. case_bool_decide.
    + by exists (EmptyString :: init).
    + destruct init as [|x init]; [done|]. by exists (String c x :: init).
Qed.

Lemma rightmost_entry_last l e :
  rightmost_entry l e <-> last (split ","%char l) = Some e.
Proof.
  split.
  - intros [He [->|[pre ->]]].
    + by rewrite split_no_sep.
    + destruct (split_append_sep ","%char pre e) as (init & _ & ->).
      by rewrite split_no_sep, last_snoc.
  - revert e. induction l as [|c l IH]; intros e; cbn [split].
    + intros [= <-]. split; [done | by left].
    + case_bool_decide as Hc.
      * subst c. pose proof (split_nonempty ","%char l) as Hne.
        destruct (split ","%char l) as [|x xs] eqn:Hs; [done|].
        rewrite last_cons. destruct (last (x :: xs)) as [e'|] eqn:Hlast;
          [|by rewrite last_None in Hlast].
        intros [= <-]. destruct (IH e' eq_refl) as [He' Hl].
        split; [done|]. right. destruct Hl as [->|[pre ->]].
        -- by exists EmptyString.
        -- by exists (String ","%char pre).
      * pose proof (split_nonempty ","%char l) as Hne.
        destruct (split ","%char l) as [|x xs] eqn:Hs; [done|].
        destruct xs as [|y ys].
        -- cbn. intros [= <-]. destruct (IH x eq_refl) as [Hx Hl].
           split.
           ++ cbn [contains]. rewrite Hx. by rewrite bool_decide_eq_false_2.
           ++ left. destruct Hl as [->|[pre ->]]; [done|].
              exfalso. destruct (split_append_sep ","%char pre x) as (init & Hinit & Heq).
              rewrite Heq, split_no_sep in Hs by done.
              destruct init as [|? [|? ?]]; done.
        -- rewrite last_cons. change (last (x :: y :: ys)) with (last (y :: ys)) in IH.
           destruct (last (y :: ys)) as [e'|] eqn:Hlast;
             [|by rewrite last_None in Hlast].
           intros [= <-]. destruct (IH e' eq_refl) as [He' Hl].
           split; [done|]. right. destruct Hl as [->|[pre ->]].
           ++ exfalso. rewrite split_no_sep in Hs by done. done.
           ++ by exists (String c pre).
Qed.

Lemma forwarded_entry_iff h fwd : forwarded_entry h fwd <-> fwd = forwarded_for h.
Proof.
  unfold forwarded_entry, forwarded_for.
  destruct (h !! "x-forwarded-for"%string) as [l|]; cbn [mbind option_bind]; [|done].
  pose proof (split_nonempty ","%char l) as Hne.
  destruct (last (split ","%char l)) as [e|] eqn:Hlast;
    [|by rewrite last_None in Hlast].
  cbn [fmap option_fmap option_map]. split.
  - intros (e' & He' & ->). apply rightmost_entry_last in He'.
    rewrite Hlast in He'. by injection He' as ->.
  - intros ->. exists e. split; [by apply rightmost_entry_last | done].
Qed.

Lemma present_truthy a : present a <-> str_truthy a = true.
Proof.
  unfold present, str_truthy. destruct a as [s|].
  - rewrite negb_true_iff, bool_decide_eq_false. split.
    + by intros (? & [= <-] & ?).
    + intros Hs. by exists s.
  - split; [by intros (? & ? & _) | done].
Qed.

Lemma precedence_functional l k k' : precedence l k -> precedence l k' -> k = k'.
Proof.
  induction 1 as [s rest Hs|a rest key Ha _ IH|]; inversion 1; subst; try done.
  - exfalso. match goal with H : ~ present _ |- _ => apply H end. by exists s.
  - exfalso. apply Ha. eexists; eauto.
  - by apply IH.
Qed.

Lemma precedence_nonempty l key : precedence l key -> key <> EmptyString.
Proof. induction 1; done. Qed.

Lemma or_else_assoc a b c : a ||| b ||| c = a ||| (b ||| c).
Proof. unfold or_else. destruct (str_truthy a) eqn:Ha; [by rewrite Ha | done]. Qed.

Lemma precedence_foldr cands :
  exists key,
    foldr or_else (Some "127.0.0.1"%string) cands = Some key /\ precedence cands key.
Proof.
  induction cands as [|a rest (key & Hkey & Hprec)]; cbn [foldr].
  - eexists. split; [done | constructor].
  - rewrite Hkey. unfold or_else. destruct (str_truthy a) eqn:Ha.
    + apply present_truthy in Ha as (s & -> & Hs). exists s. split; [done|].
      by constructor.
    + exists key. split; [done|]. constructor; [|done].
      rewrite present_truthy. by rewrite Ha.
Qed.

Lemma identifier_of_req_truthy identifier r :
  str_truthy (identifier_of_req identifier r) = true.
Proof.
  unfold identifier_of_req. rewrite !or_else_assoc.
  destruct (precedence_foldr [identifier; forwarded_for (headers r); remoteAddress r])
    as (key & Hkey & Hprec).
  cbn [foldr] in Hkey. rewrite Hkey. apply present_truthy. exists key. split; [done|].
  clear Hkey. remember [_; _; _] as l eqn:Hl. clear Hl.
  induction Hprec; done.
Qed.

Lemma identifier_of_request_truthy identifier r :
  str_truthy (identifier_of_request identifier r) = true.
Proof.
  unfold identifier_of_request. rewrite !or_else_assoc.
  destruct (precedence_foldr [identifier; forwarded_for (request_headers r); ip r;
                              request_headers r !! "x-real-ip"%string;
                              request_headers r !! "x-client-ip"%string])
    as (key & Hkey & Hprec).
  cbn [foldr] in Hkey. rewrite Hkey. apply present_truthy. exists key.
  split; [done | by eapply precedence_nonempty].
Qed.

(** C4.  The network-address key is the first present candidate in this
    order: the explicit identifier; the rightmost entry of the
    [x-forwarded-for] list, trimmed; the direct address (the socket's
    remote address for an [IncomingMessage]; [request.ip], then
    [x-real-ip], then [x-client-ip] for a [Request]); and ['127.0.0.1'] when
    none is present.  With both request objects the [IncomingMessage]
    decides, and with none the key is the explicit identifier. *)
Theorem resolve_identifier_precedence (identifier : option string) :
  (forall (r : IncomingMessage) (fwd : option string),
     forwarded_entry (headers r) fwd ->
     exists key,
       resolve_identifier (Some r) None identifier = Some key
       /\ precedence [identifier; fwd; remoteAddress r] key)
  /\ (forall (r : Request) (fwd : option string),
        forwarded_entry (request_headers r) fwd ->
        exists key,
          resolve_identifier None (Some r) identifier = Some key
          /\ precedence [identifier; fwd; ip r;
                         request_headers r !! "x-real-ip"%string;
                         request_headers r !! "x-client-ip"%string] key)
  /\ (forall (r : IncomingMessage) (r' : Request),
        resolve_identifier (Some r) (Some r') identifier
        = resolve_identifier (Some r) None identifier)
  /\ resolve_identifier None None identifier = identifier.
Proof.
  repeat split.
  - intros r fwd ->%forwarded_entry_iff. cbn [resolve_identifier].
    unfold identifier_of_req. rewrite !or_else_assoc.
    apply (precedence_foldr [identifier; forwarded_for (headers r); remoteAddress r]).
  - intros r fwd ->%forwarded_entry_iff. cbn [resolve_identifier].
    unfold identifier_of_request. rewrite !or_else_assoc.
    apply (precedence_foldr [identifier; forwarded_for (request_headers r); ip r;
                             request_headers r !! "x-real-ip"%string;
                             request_headers r !! "x-client-ip"%string]).
  - intros r r'. cbn [resolve_identifier].
    pose proof (identifier_of_req_truthy identifier r) as Hreq.
    unfold identifier_of_request. rewrite !or_else_assoc.
    unfold or_else at 1. by rewrite Hreq.
Qed.

Lemma resolve_identifier_precedence_witness :
  forwarded_entry (headers req_proxied) (Some "203.0.113.4"%string)
  /\ exists key,
       resolve_identifier (Some req_proxied) None None = Some key
       /\ precedence [None; Some "203.0.113.4"%string; remoteAddress req_proxied] key.
Proof.
  assert (H : forwarded_entry (headers req_proxied) (Some "203.0.113.4"%string)).
  { exists " 203.0.113.4 "%string. split; [|reflexivity].
    split; [reflexivity|]. right. by exists "198.51.100.9"%string. }
  exact (conj H (proj1 (resolve_identifier_precedence None) req_proxied _ H)).
Defined.

(** X17.  Past the guard of line 101 the identifier is a non-empty string, so
    [identifier!] is safe and no call counts against an empty or an
    undefined key. *)
Lemma resolve_identifier_truthy o :
  has_identity o = true ->
  exists s, resolve_identifier (opt_req o) (opt_request o) (opt_identifier o) = Some s
            /\ s <> EmptyString /\ call_identifier o = s.
Proof.
  unfold has_identity, call_identifier. intros H.
  enough (Ht : str_truthy (resolve_identifier (opt_req o) (opt_request o)
                             (opt_identifier o)) = true).
  { apply present_truthy in Ht as (s & Hs & Hne). exists s. by rewrite Hs. }
  destruct (opt_req o) as [r|], (opt_request o) as [r'|]; cbn [resolve_identifier].
  - apply identifier_of_request_truthy.
  - apply identifier_of_req_truthy.
  - apply identifier_of_request_truthy.
  - rewrite !bool_decide_eq_false_2 in H by (by intros [? ?]). done.
Qed.

(** ** The cache over a history of operations *)

Lemma touch_step_length k ops st :
  (foldl (touch_step k) st ops).1 = (length ops + st.1)%nat.
Proof.
  revert st. induction ops as [|op ops IH]; intros st; cbn [foldl length]; [done|].
  rewrite IH. cbn. lia.
Qed.

Lemma last_touch_snoc ops op k :
  last_touch (ops ++ [op]) k =
    if bool_decide (op_key op = Some k) then S (length ops) else last_touch ops k.
Proof.
  unfold last_touch. rewrite foldl_app. cbn [foldl touch_step snd].
  rewrite touch_step_length. cbn [fst]. by rewrite Nat.add_0_r.
Qed.

Lemma last_touch_le ops k : (last_touch ops k <= length ops)%nat.
Proof.
  induction ops as [|op ops IH] using rev_ind; [done|].
  rewrite last_touch_snoc, length_app. cbn [length]. case_bool_decide; lia.
Qed.

Lemma run_ops_snoc ops op c : run_ops (ops ++ [op]) c = apply_op (run_ops ops c) op.
Proof. unfold run_ops. by rewrite foldl_app. Qed.

Lemma StronglySorted_sublist {A} (R : relation A) (l1 l2 : list A) :
  l1 `sublist_of` l2 -> StronglySorted R l2 -> StronglySorted R l1.
Proof.
  induction 1 as [|x l1 l2 Hsub IH|x l1 l2 Hsub IH]; [done|..].
  - rewrite !StronglySorted_cons. intros [Hall Hs]. split; [|by apply IH].
    eapply Forall_forall. intros y Hy. eapply Forall_forall; [exact Hall|].
    by eapply sublist_subseteq.
  - rewrite StronglySorted_cons. intros [_ Hs]. by apply IH.
Qed.

Lemma List_filter_sublist {A} (f : A -> bool) (l : list A) :
  List.filter f l `sublist_of` l.
Proof.
  induction l as [|x l IH]; cbn [List.filter]; [done|].
  destruct (f x); by constructor.
Qed.

Lemma removelast_sublist {A} (l : list A) : removelast l `sublist_of` l.
Proof. rewrite removelast_firstn_len. apply sublist_take. Qed.

Lemma keys_filter (f : LRU.slot TokenData -> bool) (l : list (LRU.slot TokenData)) :
  LRU.s_key <$> List.filter f l `sublist_of` LRU.s_key <$> l.
Proof. apply fmap_sublist, List_filter_sublist. Qed.

Lemma keys_make_room c (l : list (LRU.slot TokenData)) :
  LRU.s_key <$> make_room c l `sublist_of` LRU.s_key <$> l.
Proof.
  unfold make_room. destruct (_ =? _); [|done]. apply fmap_sublist, removelast_sublist.
Qed.

Lemma length_remove_present k (l : list (LRU.slot TokenData)) s :
  LRU.find k l = Some s -> (length (LRU.remove k l) < length l)%nat.
Proof.
  unfold LRU.find, LRU.remove. induction l as [|x l IH]; cbn [List.find List.filter]; [done|].
  destruct (LRU.has_key k x); cbn [negb length].
  - intros _. pose proof (sublist_length _ _ (List_filter_sublist
      (fun s0 => negb (LRU.has_key k s0)) l)). lia.
  - intros H. specialize (IH H). lia.
Qed.

Lemma length_make_room c (l : list (LRU.slot TokenData)) :
  0 < LRU.max c -> Z.of_nat (length l) <= LRU.max c ->
  Z.of_nat (length (make_room c l)) + 1 <= LRU.max c.
Proof.
  intros Hmax Hlen. unfold make_room. destruct (Z.eqb_spec (Z.of_nat (length l)) (LRU.max c)).
  - rewrite removelast_firstn_len, length_take. lia.
  - lia.
Qed.


Lemma length_remove_le k (l : list (LRU.slot TokenData)) :
  (length (LRU.remove k l) <= length l)%nat.
Proof. apply sublist_length, List_filter_sublist. Qed.

Lemma checkRateLimit_shape now k limit window c :
  touched_shape now k c (checkRateLimit now k limit window c).2.
Proof.
  destruct (LRU.peek now k c) as [d|] eqn:Hpeek.
  - unfold LRU.peek in Hpeek.
    destruct (LRU.find k (LRU.items c)) as [s|] eqn:Hfind; [|done].
    destruct (LRU.isStale c now s) eqn:Hstale; [done|].
    rewrite (checkRateLimit_live _ _ _ _ _ _ Hfind Hstale).
    destruct (find_Some_key _ _ _ Hfind) as [Hk Hin].
    repeat split. eexists _, _. split; [reflexivity|]. split; [done|].
    split; [right; by exists s|]. split; [done|].
    intros _ Hsize. unfold LRU.size in *. cbn [LRU.items LRU.with_items snd length].
    pose proof (length_remove_present _ _ _ Hfind). lia.
  - rewrite (checkRateLimit_fresh _ _ _ _ _ Hpeek).
    repeat split. eexists _, _. split; [reflexivity|]. split; [done|].
    split; [by left|]. split.
    + unfold make_room. destruct (_ =? _); [apply removelast_sublist | done].
    + intros Hmax Hsize. unfold LRU.size in *. cbn [LRU.items LRU.with_items snd length].
      pose proof (length_remove_le k (LRU.items c)).
      pose proof (length_make_room c (LRU.remove k (LRU.items c)) Hmax). lia.
Qed.

Lemma set_shape now k d (c : LRU.t TokenData) : touched_shape now k c (LRU.set now k d c).
Proof.
  unfold LRU.set. destruct (LRU.find k (LRU.items c)) as [s|] eqn:Hfind.
  - repeat split. eexists _, _. split; [reflexivity|]. split; [done|].
    split; [by left|]. split; [done|].
    intros _ Hsize. unfold LRU.size in *. cbn [LRU.items LRU.with_items length].
    pose proof (length_remove_present _ _ _ Hfind). lia.
  - repeat split. eexists _, _. split; [reflexivity|]. split; [done|].
    split; [by left|]. rewrite (remove_absent _ _ Hfind). split.
    + destruct (_ =? _); [apply removelast_sublist | done].
    + intros Hmax Hsize. unfold LRU.size in *. cbn [LRU.items LRU.with_items length].
      pose proof (length_make_room c (LRU.items c) Hmax Hsize) as H.
      unfold make_room in H. lia.
Qed.

Lemma StronglySorted_ext_in {A} (R R' : relation A) (l : list A) :
  (forall a b, a ∈ l -> b ∈ l -> R a b -> R' a b) ->
  StronglySorted R l -> StronglySorted R' l.
Proof.
  induction l as [|x l IH]; intros HR; [constructor|].
  rewrite !StronglySorted_cons. intros [Hall Hs]. split.
  - eapply Forall_forall. intros y Hy. apply HR; [left | by right |].
    by eapply Forall_forall in Hall.
  - apply IH; [|done]. intros a b Ha Hb. apply HR; by right.
Qed.

Lemma elem_of_keys_remove k k' (l : list (LRU.slot TokenData)) :
  k' ∈ LRU.s_key <$> LRU.remove k l -> k' <> k /\ k' ∈ LRU.s_key <$> l.
Proof.
  rewrite keys_remove, list_elem_of_In, filter_In, negb_true_iff, bool_decide_eq_false.
  rewrite <- list_elem_of_In. tauto.
Qed.

(** What every reachable state of the cache satisfies, [ops] being the
    history since its creation. *)
Lemma run_ops_invariant (c0 : LRU.t TokenData) (ops : list CacheOp) :
  LRU.items c0 = [] ->
  LRU.max (run_ops ops c0) = LRU.max c0
  /\ LRU.ttl (run_ops ops c0) = LRU.ttl c0
  /\ (0 < LRU.max c0 -> LRU.size (run_ops ops c0) <= LRU.max c0)
  /\ recency_sorted ops (run_ops ops c0)
  /\ (forall s, s ∈ LRU.items (run_ops ops c0) ->
        exists op, op ∈ ops /\ op_key op = Some (LRU.s_key s)
                   /\ op_time op = LRU.s_start s).
Proof.
  intros Hempty. induction ops as [|op ops IH] using rev_ind.
  - cbn. rewrite Hempty. unfold recency_sorted, LRU.keys, LRU.size. rewrite Hempty.
    repeat split; [cbn; lia | constructor | by intros s ?%elem_of_nil].
  - rewrite run_ops_snoc. set (c := run_ops ops c0) in *.
    destruct IH as (Hmax & Httl & Hsize & Hsorted & Hstart).
    assert (Hold : forall s, s ∈ LRU.items c ->
              exists op', op' ∈ ops ++ [op] /\ op_key op' = Some (LRU.s_key s)
                          /\ op_time op' = LRU.s_start s).
    { intros s (op' & ? & ?)%Hstart. exists op'. split; [|done].
      apply elem_of_app. by left. }
    assert (Htouch : forall now k c',
              op_key op = Some k -> op_time op = now -> touched_shape now k c c' ->
              LRU.max c' = LRU.max c0 /\ LRU.ttl c' = LRU.ttl c0
              /\ (0 < LRU.max c0 -> LRU.size c' <= LRU.max c0)
              /\ recency_sorted (ops ++ [op]) c'
              /\ (forall s, s ∈ LRU.items c' ->
                    exists op', op' ∈ ops ++ [op] /\ op_key op' = Some (LRU.s_key s)
                                /\ op_time op' = LRU.s_start s)).
    { intros now k c' Hkey Htime (Hmax' & Httl' & s & l & Hitems & Hk & Hage & Hsub & Hsz).
      split; [congruence|]. split; [congruence|]. split.
      { intros H0. rewrite <- Hmax. apply Hsz; rewrite Hmax; auto. }
      split.
      - unfold recency_sorted, LRU.keys. rewrite Hitems, fmap_cons, Hk.
        assert (Hl : forall k', k' ∈ LRU.s_key <$> l ->
                       k' <> k /\ k' ∈ LRU.s_key <$> LRU.items c).
        { intros k' Hk'. apply (elem_of_keys_remove k).
          eapply sublist_subseteq; [|exact Hk']. by apply fmap_sublist. }
        apply StronglySorted_cons. split.
        + eapply Forall_forall. intros k' [Hne _]%Hl.
          rewrite !last_touch_snoc, Hkey.
          rewrite (bool_decide_eq_true_2 (Some k = Some k)) by done.
          rewrite (bool_decide_eq_false_2 (Some k = Some k')) by congruence.
          pose proof (last_touch_le ops k'). lia.
        + eapply (StronglySorted_ext_in
                    (fun a b => (last_touch ops b < last_touch ops a)%nat)).
          * intros a b [Ha _]%Hl [Hb _]%Hl. rewrite !last_touch_snoc, Hkey.
            by rewrite !bool_decide_eq_false_2 by congruence.
          * eapply StronglySorted_sublist; [|exact Hsorted].
            etrans; [apply fmap_sublist, Hsub|]. apply keys_filter.
      - intros s' Hs'. rewrite Hitems in Hs'. apply elem_of_cons in Hs' as [->|Hs'].
        + destruct Hage as [Hnow|(s0 & Hs0 & Hk0 & Hstart0)].
          * exists op. split; [apply elem_of_app; right; by left|]. by rewrite Hk, Hnow.
          * destruct (Hold s0 Hs0) as (op' & ? & ? & ?). exists op'.
            split; [done|]. split; congruence.
        + apply Hold. eapply sublist_subseteq in Hs'; [|exact Hsub].
          eapply sublist_subseteq; [apply List_filter_sublist | exact Hs']. }
    destruct op as [now k limit window|now k d|now]; cbn [apply_op].
    + apply (Htouch now k); [done..|]. apply checkRateLimit_shape.
    + apply (Htouch now k); [done..|]. apply set_shape.
    + unfold LRU.purgeStale. cbn [LRU.max LRU.ttl LRU.with_items].
      split; [done|]. split; [done|]. split.
      { intros H0. specialize (Hsize H0). unfold LRU.size in *.
        cbn [LRU.items LRU.with_items].
        pose proof (sublist_length _ _ (List_filter_sublist
          (fun s => negb (LRU.isStale c now s)) (LRU.items c))). lia. }
      split.
      * unfold recency_sorted, LRU.keys. cbn [LRU.items LRU.with_items].
        eapply StronglySorted_sublist; [apply keys_filter|].
        eapply StronglySorted_ext_in; [|exact Hsorted].
        intros a b _ _. rewrite !last_touch_snoc. cbn [op_key].
        by rewrite !bool_decide_eq_false_2 by done.
      * intros s Hs. apply Hold. cbn [LRU.items LRU.with_items] in Hs.
        eapply sublist_subseteq; [apply List_filter_sublist | exact Hs].
Qed.

Lemma create_Return (max_ ttl_ : Z) (c0 : LRU.t TokenData) :
  LRU.create max_ ttl_ = Return c0 ->
  LRU.max c0 = max_ /\ LRU.ttl c0 = ttl_ /\ LRU.items c0 = [].
Proof.
  unfold LRU.create. destruct (max_ <? 0); [done|]. destruct (ttl_ <? 0); [done|].
  destruct (_ && _); [done|]. by intros [= <-].
Qed.

Lemma peek_absent now k (c : LRU.t TokenData) : k ∉ LRU.keys c -> LRU.peek now k c = None.
Proof. intros H%find_None_iff. unfold LRU.peek. by rewrite H. Qed.

(** C5.  A cache built for [limit > 0] never tracks more than [limit]
    keys, whatever the history [ops].  When a key that is not tracked is
    checked while the cache is full, exactly one key leaves, the one whose
    last touch is older than that of every other tracked key, and the new
    key takes the front.  A later check on the evicted key counts from 1
    again, as on a fresh key. *)
Theorem lru_bounded_and_evicts_least_recent (limit window : Z)
    (c0 : LRU.t TokenData) (ops : list CacheOp) :
  LRU.create limit (window * 1000) = Return c0 ->
  0 < limit ->
  LRU.size (run_ops ops c0) <= limit
  /\ forall now k lim win,
       k ∉ LRU.keys (run_ops ops c0) ->
       LRU.size (run_ops ops c0) = limit ->
       exists rest victim,
         LRU.keys (run_ops ops c0) = rest ++ [victim]
         /\ LRU.keys (checkRateLimit now k lim win (run_ops ops c0)).2 = k :: rest
         /\ (forall k', k' ∈ rest -> (last_touch ops victim < last_touch ops k')%nat)
         /\ forall now' lim' win',
              let out := checkRateLimit now' victim lim' win'
                           (checkRateLimit now k lim win (run_ops ops c0)).2 in
              out.1 = {| chk_success := 1 <=? lim';
                         chk_remaining := if 1 <=? lim' then lim' - 1 else 0;
                         chk_reset := ceil1000 (now' + win') |}
              /\ LRU.find victim (LRU.items out.2)
                 = Some (LRU.Slot victim {| count := 1; reset := now' + win' |} now').
Proof.
  intros (Hmax0 & _ & Hempty)%create_Return Hlimit.
  destruct (run_ops_invariant c0 ops Hempty) as (Hmax & _ & Hsize & Hsorted & _).
  set (c := run_ops ops c0) in *. rewrite Hmax0 in *.
  split; [by apply Hsize|].
  intros now k lim win Hk Hfull.
  assert (Hlast : exists rest last_slot, LRU.items c = rest ++ [last_slot]).
  { destruct (LRU.items c) as [|s0 l0] eqn:Hitems.
    - unfold LRU.size in Hfull. rewrite Hitems in Hfull. cbn in Hfull. lia.
    - destruct (exists_last (l := s0 :: l0) ltac:(done)) as (rest & last_slot & ->).
      by exists rest, last_slot. }
  destruct Hlast as (rest & last_slot & Hitems).
  exists (LRU.s_key <$> rest), (LRU.s_key last_slot).
  assert (Hkeys : LRU.keys c = (LRU.s_key <$> rest) ++ [LRU.s_key last_slot]).
  { unfold LRU.keys. by rewrite Hitems, fmap_app. }
  assert (Hafter : LRU.items (checkRateLimit now k lim win c).2
                   = LRU.Slot k {| count := 1; reset := now + win |} now :: rest).
  { rewrite (checkRateLimit_fresh _ _ _ _ _ (peek_absent now k c Hk)).
    cbn [snd LRU.items LRU.with_items]. f_equal.
    apply find_None_iff in Hk. rewrite (remove_absent _ _ Hk).
    unfold make_room. unfold LRU.size in Hfull. rewrite Hfull, Hmax, Z.eqb_refl.
    rewrite Hitems. apply removelast_last. }
  split; [done|]. split; [unfold LRU.keys; by rewrite Hafter|].
  unfold recency_sorted in Hsorted. rewrite Hkeys in Hsorted.
  split.
  { intros k' Hk'. eapply (StronglySorted_app_1_elem_of _ _ _ _ _ Hsorted Hk').
    by left. }
  intros now' lim' win' out.
  assert (Hvictim : LRU.s_key last_slot
                    ∉ LRU.keys (checkRateLimit now k lim win c).2).
  { unfold LRU.keys. rewrite Hafter, fmap_cons. cbn [LRU.s_key].
    apply not_elem_of_cons. split.
    - intros Heq. apply Hk. rewrite Hkeys, <- Heq. apply elem_of_app. right. by left.
    - intros Hin.
      pose proof (StronglySorted_app_1_elem_of _ _ _ _ _ Hsorted Hin
                    ltac:(by left)) as Hlt.
      cbn in Hlt. lia. }
  unfold out. rewrite (checkRateLimit_fresh _ _ _ _ _ (peek_absent now' _ _ Hvictim)).
  split; [done|]. cbn [snd LRU.items LRU.with_items].
  unfold LRU.find. cbn [List.find]. unfold LRU.has_key. cbn [LRU.s_key].
  by rewrite bool_decide_eq_true_2.
Qed.

Lemma lru_bounded_and_evicts_least_recent_witness :
  LRU.create 2 (10 * 1000) = Return cache0
  /\ 0 < 2
  /\ LRU.size (run_ops ops_two_keys cache0) <= 2
  /\ ("c"%string ∉ LRU.keys (run_ops ops_two_keys cache0))
  /\ LRU.size (run_ops ops_two_keys cache0) = 2
  /\ exists rest victim,
       LRU.keys (run_ops ops_two_keys cache0) = rest ++ [victim]
       /\ LRU.keys (checkRateLimit 1300 "c" 2 10 (run_ops ops_two_keys cache0)).2
          = "c"%string :: rest
       /\ (forall k', k' ∈ rest ->
             (last_touch ops_two_keys victim < last_touch ops_two_keys k')%nat)
       /\ forall now' lim' win',
            let out := checkRateLimit now' victim lim' win'
                         (checkRateLimit 1300 "c" 2 10 (run_ops ops_two_keys cache0)).2 in
            out.1 = {| chk_success := 1 <=? lim';
                       chk_remaining := if 1 <=? lim' then lim' - 1 else 0;
                       chk_reset := ceil1000 (now' + win') |}
            /\ LRU.find victim (LRU.items out.2)
               = Some (LRU.Slot victim {| count := 1; reset := now' + win' |} now').
Proof.
  assert (H0 : 0 < 2) by lia.
  assert (Hc : "c"%string ∉ LRU.keys (run_ops ops_two_keys cache0)).
  { apply (bool_decide_unpack _). vm_compute. exact I. }
  pose proof (lru_bounded_and_evicts_least_recent 2 10 cache0 ops_two_keys eq_refl H0)
    as [Hsize Hevict].
  exact (conj eq_refl (conj H0 (conj Hsize (conj Hc (conj eq_refl
           (Hevict 1300 "c"%string 2 10 Hc eq_refl)))))).
Defined.

(** The evicted key of the sample history is ["b"], touched before ["a"]. *)
Example eviction_sample :
  LRU.keys (run_ops ops_two_keys cache0) = ["a"; "b"]%string
  /\ LRU.keys (checkRateLimit 1300 "c" 2 10 (run_ops ops_two_keys cache0)).2
     = ["c"; "a"]%string
  /\ last_touch ops_two_keys "b" = 2%nat /\ last_touch ops_two_keys "a" = 3%nat.
Proof. repeat split. Qed.

(** ** Recovery after the window *)

Lemma run_ops_stale now k (c0 : LRU.t TokenData) (ops : list CacheOp) :
  LRU.items c0 = [] ->
  0 < LRU.ttl c0 ->
  (forall op, op ∈ ops -> op_key op = Some k -> LRU.ttl c0 < now - op_time op) ->
  LRU.peek now k (run_ops ops c0) = None.
Proof.
  intros Hempty Httl Hidle.
  destruct (run_ops_invariant c0 ops Hempty) as (_ & Httl' & _ & _ & Hstart).
  unfold LRU.peek. destruct (LRU.find k _) as [s|] eqn:Hfind; [|done].
  destruct (find_Some_key _ _ _ Hfind) as [Hk Hin].
  destruct (Hstart s Hin) as (op & Hop & Hkey & Htime).
  rewrite Hk in Hkey. specialize (Hidle op Hop Hkey).
  unfold LRU.isStale. rewrite Httl'.
  rewrite (proj2 (Z.eqb_neq _ _)) by lia. rewrite (proj2 (Z.ltb_lt _ _)) by lia. done.
Qed.

(** The capacity is the limit itself, so with a limit of 1 a second
    identifier evicts the first, whose next check counts from 1 again. *)
Example eviction_resets_count :
  (checkRateLimit 1200 "a" 1 10
     (run_ops [OpCheck 1000 "a" 1 10; OpCheck 1100 "b" 1 10]
        {| LRU.max := 1; LRU.ttl := 10000; LRU.items := [] |})).1
  = {| chk_success := true; chk_remaining := 0; chk_reset := ceil1000 1210 |}.
Proof. reflexivity. Qed.

Lemma handleRateLimiting_lookup now key limit windowMs (m : gmap string (list Z)) k :
  k <> key ->
  (SlidingLogJS.handleRateLimiting now key limit windowMs m).2 !! k = m !! k.
Proof.
  intros Hne. unfold SlidingLogJS.handleRateLimiting.
  destruct (m !! key) eqn:Hm; cbn zeta; destruct (_ >=? _); cbn [snd];
    by rewrite ?lookup_insert_ne by done.
Qed.

Lemma handleRateLimiting_timestamps now key limit windowMs (m : gmap string (list Z)) ts t :
  (SlidingLogJS.handleRateLimiting now key limit windowMs m).2 !! key = Some ts ->
  t ∈ ts ->
  t = now \/ exists ts0, m !! key = Some ts0 /\ t ∈ ts0.
Proof.
  unfold SlidingLogJS.handleRateLimiting.
  destruct (m !! key) as [ts0|] eqn:Hm; cbn zeta.
  - rewrite Hm. cbn [default from_option id]. destruct (_ >=? _); cbn [snd].
    + rewrite lookup_insert_eq. intros [= <-] Ht. right. exists ts0. split; [done|].
      apply list_elem_of_In, filter_In in Ht as [Ht _]. by apply list_elem_of_In.
    + rewrite lookup_insert_eq. intros [= <-] [Ht|Ht]%elem_of_app.
      * right. exists ts0. split; [done|].
        apply list_elem_of_In, filter_In in Ht as [Ht _]. by apply list_elem_of_In.
      * left. by apply list_elem_of_singleton in Ht.
  - rewrite lookup_insert_eq. cbn [default from_option id List.filter length].
    destruct (_ >=? _); cbn [snd]; rewrite lookup_insert_eq; intros [= <-] Ht.
    + by apply elem_of_nil in Ht.
    + left. by apply list_elem_of_singleton in Ht.
Qed.

Lemma run_calls_timestamps (cs : list SlidingLogJS.Call) k ts t :
  SlidingLogJS.run_calls cs ∅ !! k = Some ts ->
  t ∈ ts ->
  exists c, c ∈ cs /\ SlidingLogJS.call_key c = k /\ SlidingLogJS.call_time c = t.
Proof.
  revert ts t. induction cs as [|c cs IH] using rev_ind; intros ts t.
  - cbn. by rewrite lookup_empty.
  - unfold SlidingLogJS.run_calls. rewrite foldl_app. cbn [foldl].
    fold (SlidingLogJS.run_calls cs ∅). unfold SlidingLogJS.apply_call.
    destruct (decide (k = SlidingLogJS.call_key c)) as [->|Hne].
    + intros Hts Ht.
      destruct (handleRateLimiting_timestamps _ _ _ _ _ _ _ Hts Ht)
        as [->|(ts0 & Hts0 & Ht0)].
      * exists c. split; [apply elem_of_app; right; by left | done].
      * destruct (IH _ _ Hts0 Ht0) as (c' & ? & ? & ?). exists c'.
        split; [apply elem_of_app; by left | done].
    + rewrite handleRateLimiting_lookup by done. intros Hts Ht.
      destruct (IH _ _ Hts Ht) as (c' & ? & ? & ?). exists c'.
      split; [apply elem_of_app; by left | done].
Qed.

Lemma filter_all_expired now windowMs (ts : list Z) :
  (forall t, t ∈ ts -> windowMs <= now - t) ->
  List.filter (fun timestamp => now - timestamp <? windowMs) ts = [].
Proof.
  induction ts as [|t ts IH]; intros H; cbn [List.filter]; [done|].
  rewrite (proj2 (Z.ltb_ge _ _)) by (apply H; by left).
  apply IH. intros t' Ht'. apply H. by right.
Qed.

(** C6.  Once the window has elapsed with no call on a key, the next check
    on it is admitted and counts from 1, exactly as on a fresh key, however
    the key was used before (exhausted or not).

    For [checkRateLimit], over any history [ops] of a cache built for
    [limit > 0] and [window > 0]: when every operation on [k] lies more
    than [window * 1000] ms before [now], the check at [now] answers what it
    answers on the empty cache, admitted with [remaining = limit - 1], and
    stores the count 1.  (An entry expires once its age exceeds the [ttl];
    at an age of exactly [window * 1000] ms it is still live.)

    For the sliding log [handleRateLimiting], over any history [cs]: when
    every call on [k] lies at least [windowMs] before [now], the call at
    [now] is not limited and leaves the log [[now]], as on a fresh key. *)
Theorem idle_key_recovers :
  (forall (limit window : Z) (c0 : LRU.t TokenData) (ops : list CacheOp)
          (k : string) (now : Z),
     LRU.create limit (window * 1000) = Return c0 ->
     0 < limit -> 0 < window ->
     (forall op, op ∈ ops -> op_key op = Some k -> window * 1000 < now - op_time op) ->
     let out := checkRateLimit now k limit window (run_ops ops c0) in
     out.1 = {| chk_success := true; chk_remaining := limit - 1;
               chk_reset := ceil1000 (now + window) |}
     /\ out.1 = (checkRateLimit now k limit window c0).1
     /\ LRU.find k (LRU.items out.2)
        = Some (LRU.Slot k {| count := 1; reset := now + window |} now))
  /\ (forall (cs : list SlidingLogJS.Call) (k : string) (limit windowMs now : Z),
        0 < limit ->
        (forall c, c ∈ cs -> SlidingLogJS.call_key c = k ->
                   windowMs <= now - SlidingLogJS.call_time c) ->
        SlidingLogJS.handleRateLimiting now k limit windowMs (SlidingLogJS.run_calls cs ∅)
        = (false, <[k := [now]]> (SlidingLogJS.run_calls cs ∅))
        /\ SlidingLogJS.handleRateLimiting now k limit windowMs ∅
           = (false, {[k := [now]]})).
Proof.
  split.
  - intros limit window c0 ops k now Hcreate Hlimit Hwindow Hidle out.
    apply create_Return in Hcreate as (Hmax & Httl & Hempty).
    assert (Hstale : LRU.peek now k (run_ops ops c0) = None).
    { apply run_ops_stale; [done | lia |]. by rewrite Httl. }
    assert (Hfresh : LRU.peek now k c0 = None).
    { unfold LRU.peek. by rewrite Hempty. }
    unfold out. rewrite (checkRateLimit_fresh _ _ _ _ _ Hstale).
    rewrite (checkRateLimit_fresh _ _ _ _ _ Hfresh).
    cbn [fst snd LRU.items LRU.with_items]. unfold result_of_count.
    rewrite (proj2 (Z.leb_le 1 limit)) by lia.
    split; [done|]. split; [done|].
    unfold LRU.find. cbn [List.find]. unfold LRU.has_key. cbn [LRU.s_key].
    by rewrite bool_decide_eq_true_2.
  - intros cs k limit windowMs now Hlimit Hidle.
    assert (Hgo : forall m : gmap string (list Z),
              (forall ts t, m !! k = Some ts -> t ∈ ts -> windowMs <= now - t) ->
              SlidingLogJS.handleRateLimiting now k limit windowMs m
              = (false, <[k := [now]]> m)).
    { intros m Hm. unfold SlidingLogJS.handleRateLimiting.
      destruct (m !! k) as [ts|] eqn:Hk; cbn zeta.
      - rewrite Hk. cbn [default from_option id]. rewrite filter_all_expired by eauto.
        cbn [length]. rewrite Z.geb_leb, (proj2 (Z.leb_gt _ _)) by lia.
        cbn [app]. by rewrite insert_insert_eq.
      - rewrite lookup_insert_eq. cbn [default from_option id List.filter length].
        rewrite Z.geb_leb, (proj2 (Z.leb_gt _ _)) by lia.
        cbn [app]. by rewrite !insert_insert_eq. }
    split.
    + apply Hgo. intros ts t Hts Ht.
      destruct (run_calls_timestamps _ _ _ _ Hts Ht) as (c & Hc & Hkey & <-).
      by apply Hidle.
    + rewrite Hgo; [done|]. intros ts t. by rewrite lookup_empty.
Qed.

Lemma idle_key_recovers_witness :
  LRU.create 2 (10 * 1000) = Return cache0
  /\ (let out := checkRateLimit 11201 "a" 2 10 (run_ops ops_exhaust cache0) in
      out.1 = {| chk_success := true; chk_remaining := 2 - 1;
                 chk_reset := ceil1000 (11201 + 10) |}
      /\ out.1 = (checkRateLimit 11201 "a" 2 10 cache0).1
      /\ LRU.find "a" (LRU.items out.2)
         = Some (LRU.Slot "a" {| count := 1; reset := 11201 + 10 |} 11201))
  /\ SlidingLogJS.handleRateLimiting 11200 "a" 2 10000
       (SlidingLogJS.run_calls calls_exhaust ∅)
     = (false, <[("a"%string) := [11200]]> (SlidingLogJS.run_calls calls_exhaust ∅))
     /\ SlidingLogJS.handleRateLimiting 11200 "a" 2 10000 ∅
        = (false, {[("a"%string) := [11200]]}).
Proof.
  assert (H0 : 0 < 2) by lia. assert (H1 : 0 < 10) by lia.
  assert (Hops : forall op, op ∈ ops_exhaust -> op_key op = Some "a"%string ->
                            10 * 1000 < 11201 - op_time op).
  { intros op Hop _. unfold ops_exhaust in Hop.
    repeat (apply elem_of_cons in Hop as [->|Hop]; [cbn; lia|]).
    by apply elem_of_nil in Hop. }
  assert (Hcs : forall c, c ∈ calls_exhaust -> SlidingLogJS.call_key c = "a"%string ->
                          10000 <= 11200 - SlidingLogJS.call_time c).
  { intros c Hc _. unfold calls_exhaust in Hc.
    repeat (apply elem_of_cons in Hc as [->|Hc]; [cbn; lia|]).
    by apply elem_of_nil in Hc. }
  exact (conj eq_refl
           (conj (proj1 idle_key_recovers 2 10 cache0 ops_exhaust "a"%string 11201
                    eq_refl H0 H1 Hops)
                 (proj2 idle_key_recovers calls_exhaust "a"%string 2 10000 11200 H0 Hcs))).
Defined.

(** The same key while the window still runs: the third check is refused,
    and a check exactly [window * 1000] ms after the first still is. *)
Example exhausted_within_window :
  (checkRateLimit 1300 "a" 2 10 (run_ops ops_exhaust cache0)).1
  = {| chk_success := false; chk_remaining := 0; chk_reset := ceil1000 1010 |}
  /\ (checkRateLimit 11000 "a" 2 10 (run_ops ops_exhaust cache0)).1
     = {| chk_success := false; chk_remaining := 0; chk_reset := ceil1000 1010 |}
  /\ (checkRateLimit 11001 "a" 2 10 (run_ops ops_exhaust cache0)).1
     = {| chk_success := true; chk_remaining := 1; chk_reset := ceil1000 11011 |}.
Proof. repeat split. Qed.

(** ** The two dimensions of the first version *)

Lemma handleRateLimiting_frame (clk : FixedWindowJS.Clock) (key : option string)
    (limit windowMs : Z) (m : gmap (option string) FixedWindowJS.Data)
    (k' : option string) :
  k' <> key ->
  (FixedWindowJS.handleRateLimiting clk key limit windowMs m).2 !! k' = m !! k'.
Proof.
  intros Hne. unfold FixedWindowJS.handleRateLimiting. cbn zeta.
  destruct (_ >=? _); cbn [snd]; by rewrite lookup_insert_ne.
Qed.

Lemma handleRateLimiting_exhausted (clk : FixedWindowJS.Clock) (key : option string)
    (limit windowMs : Z) (m : gmap (option string) FixedWindowJS.Data)
    (d : FixedWindowJS.Data) :
  m !! key = Some d ->
  limit <= FixedWindowJS.count d ->
  FixedWindowJS.at_check clk - FixedWindowJS.lastReset d <= windowMs ->
  FixedWindowJS.handleRateLimiting clk key limit windowMs m = (true, m).
Proof.
  intros Hm Hcount Hwindow. unfold FixedWindowJS.handleRateLimiting. rewrite Hm.
  cbn zeta. rewrite Z.gtb_ltb, (proj2 (Z.ltb_ge _ _)) by lia.
  rewrite Z.geb_leb, (proj2 (Z.leb_le _ _)) by lia. by rewrite insert_id.
Qed.

(** C7, as the code has it.  The two dimensions share one map, keyed by
    the bare address and the bare session identifier.  A check on one key
    leaves every other key's counter as it was.  An address over its limit
    is refused with the address-tagged 429 and no counter moves.  When the
    address passes and the session key, a string other than the address,
    is over its limit, the call is refused with the session-tagged 429;
    the session counter is as before and the address counter is what its
    own check made it. *)
Theorem dimensions_independent_for_distinct_keys :
  (forall (clk : FixedWindowJS.Clock) (key : option string) (limit windowMs : Z)
          (m : gmap (option string) FixedWindowJS.Data) (k' : option string),
     k' <> key ->
     (FixedWindowJS.handleRateLimiting clk key limit windowMs m).2 !! k' = m !! k')
  /\ (forall (clk_ip clk_session : FixedWindowJS.Clock) (uuid : string)
             (request : Request) (cookie : option string)
             (ipLimit sessionLimit windowMs : option Z)
             (m : gmap (option string) FixedWindowJS.Data) (d : FixedWindowJS.Data),
        m !! FixedWindowJS.address_key request = Some d ->
        default 300 ipLimit <= FixedWindowJS.count d ->
        FixedWindowJS.at_check clk_ip - FixedWindowJS.lastReset d
          <= default (15 * 1000) windowMs ->
        FixedWindowJS.rateLimit clk_ip clk_session uuid request cookie
          ipLimit sessionLimit windowMs m
        = ({| FixedWindowJS.returned :=
                Some {| FixedWindowJS.nr_body := "Too Many Requests - IP Limit";
                        FixedWindowJS.nr_status := 429 |};
              FixedWindowJS.set_cookie := FixedWindowJS.minted_cookie cookie uuid |}, m))
  /\ (forall (clk_ip clk_session : FixedWindowJS.Clock) (uuid : string)
             (request : Request) (cookie : option string)
             (ipLimit sessionLimit windowMs : option Z)
             (m : gmap (option string) FixedWindowJS.Data) (d : FixedWindowJS.Data),
        FixedWindowJS.address_key request <> FixedWindowJS.session_key cookie uuid ->
        (FixedWindowJS.handleRateLimiting clk_ip (FixedWindowJS.address_key request)
           (default 300 ipLimit) (default (15 * 1000) windowMs) m).1 = false ->
        m !! FixedWindowJS.session_key cookie uuid = Some d ->
        default 30 sessionLimit <= FixedWindowJS.count d ->
        FixedWindowJS.at_check clk_session - FixedWindowJS.lastReset d
          <= default (15 * 1000) windowMs ->
        let out := FixedWindowJS.rateLimit clk_ip clk_session uuid request cookie
                     ipLimit sessionLimit windowMs m in
        FixedWindowJS.returned out.1
        = Some {| FixedWindowJS.nr_body := "Too Many Requests - Session Limit";
                  FixedWindowJS.nr_status := 429 |}
        /\ out.2 !! FixedWindowJS.session_key cookie uuid = Some d
        /\ out.2 = (FixedWindowJS.handleRateLimiting clk_ip
                      (FixedWindowJS.address_key request) (default 300 ipLimit)
                      (default (15 * 1000) windowMs) m).2).
Proof.
  split; [intros; by apply handleRateLimiting_frame|]. split.
  - intros clk_ip clk_session uuid request cookie ipLimit sessionLimit windowMs m d
           Hm Hcount Hwindow.
    unfold FixedWindowJS.rateLimit. cbn zeta.
    by rewrite (handleRateLimiting_exhausted _ _ _ _ _ _ Hm Hcount Hwindow).
  - intros clk_ip clk_session uuid request cookie ipLimit sessionLimit windowMs m d
           Hne Hip Hm Hcount Hwindow out.
    unfold out, FixedWindowJS.rateLimit. cbn zeta.
    pose proof (handleRateLimiting_frame clk_ip (FixedWindowJS.address_key request)
                  (default 300 ipLimit) (default (15 * 1000) windowMs) m
                  (FixedWindowJS.session_key cookie uuid) ltac:(congruence)) as Hframe.
    destruct (FixedWindowJS.handleRateLimiting clk_ip _ _ _ m) as [exceeded m1].
    cbn [fst snd] in *. subst exceeded. rewrite Hm in Hframe.
    rewrite (handleRateLimiting_exhausted _ _ _ _ _ _ Hframe Hcount Hwindow).
    cbn. done.
Qed.

Lemma dimensions_independent_for_distinct_keys_witness :
  (FixedWindowJS.rateLimit clock_1000 clock_1000 "5f0c" request_forwarded
     (Some "session-1"%string) None None None map_address_spent
   = ({| FixedWindowJS.returned :=
           Some {| FixedWindowJS.nr_body := "Too Many Requests - IP Limit";
                   FixedWindowJS.nr_status := 429 |};
         FixedWindowJS.set_cookie := None |}, map_address_spent))
  /\ (let out := FixedWindowJS.rateLimit clock_1000 clock_1000 "5f0c" request_forwarded
                   (Some "session-1"%string) None None None map_session_spent in
      FixedWindowJS.returned out.1
      = Some {| FixedWindowJS.nr_body := "Too Many Requests - Session Limit";
                FixedWindowJS.nr_status := 429 |}
      /\ out.2 !! Some "session-1"%string
         = Some {| FixedWindowJS.count := 30; FixedWindowJS.lastReset := 500 |}
      /\ out.2 = (FixedWindowJS.handleRateLimiting clock_1000 (Some "203.0.113.4"%string)
                    300 (15 * 1000) map_session_spent).2).
Proof.
  assert (H300 : 300 <= 300) by lia. assert (H30 : 30 <= 30) by lia.
  assert (Hw : 1000 - 500 <= 15 * 1000) by lia.
  assert (Hne : FixedWindowJS.address_key request_forwarded
                <> FixedWindowJS.session_key (Some "session-1"%string) "5f0c") by done.
  destruct dimensions_independent_for_distinct_keys as (_ & Haddress & Hsession).
  exact (conj
           (Haddress clock_1000 clock_1000 "5f0c"%string request_forwarded
              (Some "session-1"%string) None None None map_address_spent
              {| FixedWindowJS.count := 300; FixedWindowJS.lastReset := 500 |}
              eq_refl H300 Hw)
           (Hsession clock_1000 clock_1000 "5f0c"%string request_forwarded
              (Some "session-1"%string) None None None map_session_spent
              {| FixedWindowJS.count := 30; FixedWindowJS.lastReset := 500 |}
              Hne eq_refl eq_refl H30 Hw)).
Defined.

(** C7 as stated fails when the session cookie carries the same string as
    the address: the two dimensions then share one counter.  On an empty
    map the check of the address moves the counter that the session check
    reads, and with a session limit of 1 the very first request is refused
    for its session. *)
Lemma colliding_keys_share_a_counter :
  FixedWindowJS.address_key request_forwarded
  = FixedWindowJS.session_key (Some "203.0.113.4"%string) "5f0c"
  /\ (FixedWindowJS.handleRateLimiting clock_1000
        (FixedWindowJS.address_key request_forwarded) 300 15000 ∅).2
       !! FixedWindowJS.session_key (Some "203.0.113.4"%string) "5f0c"
     <> (∅ : gmap (option string) FixedWindowJS.Data)
          !! FixedWindowJS.session_key (Some "203.0.113.4"%string) "5f0c"
  /\ FixedWindowJS.returned
       (FixedWindowJS.rateLimit clock_1000 clock_1000 "5f0c" request_forwarded
          (Some "203.0.113.4"%string) None (Some 1) None ∅).1
     = Some {| FixedWindowJS.nr_body := "Too Many Requests - Session Limit";
               FixedWindowJS.nr_status := 429 |}.
Proof. split; [reflexivity|]. split; [by vm_compute | reflexivity]. Qed.

(** ** Reconfiguration *)

(** C9, as the code has it.  [initialize] compares the [JSON.stringify]
    texts of the new and the active configuration.  When they differ (and
    [limit] and [window] are positive), the new configuration becomes the
    active one and the local counter is replaced by a new, empty cache
    with [max = limit] and [ttl = window * 1000]; the Upstash client is
    rebuilt from the new configuration when [enabled], [url] and [token]
    are all truthy, and is left as it was otherwise.  When the texts are
    equal nothing changes. *)
Theorem initialize_rebuilds_on_new_json (config : Config) (w : World) :
  (JSON_stringify (Some config) <> JSON_stringify (currentConfig w) ->
   0 < cfg_limit config ->
   0 < cfg_window config ->
   let out := initialize config w in
   let r := {| redis_url := prop_get "url" (cfg_upstash config);
               redis_token := prop_get "token" (cfg_upstash config) |} in
   out.1 = Return ()
   /\ currentConfig out.2 = Some config
   /\ tokenCache out.2
      = Some {| LRU.max := cfg_limit config; LRU.ttl := cfg_window config * 1000;
                LRU.items := [] |}
   /\ (upstash_active (cfg_upstash config) = true ->
       redis out.2 = Some r /\ ratelimit out.2 = Some (new_Ratelimit config r))
   /\ (upstash_active (cfg_upstash config) = false ->
       redis out.2 = redis w /\ ratelimit out.2 = ratelimit w))
  /\ (JSON_stringify (Some config) = JSON_stringify (currentConfig w) ->
      initialize config w = (Return (), w)).
Proof.
  split.
  - intros Hdiff Hlimit Hwindow out r. unfold out, initialize.
    rewrite bool_decide_eq_true_2 by done. unfold LRU.create.
    rewrite (proj2 (Z.ltb_ge _ _)) by lia. rewrite (proj2 (Z.ltb_ge _ _)) by lia.
    rewrite (proj2 (Z.eqb_neq _ _)) by lia. cbn [andb].
    destruct (upstash_active (cfg_upstash config)); cbn; repeat split; done.
  - intros Hsame. unfold initialize. by rewrite bool_decide_eq_false_2 by tauto.
Qed.

Lemma initialize_rebuilds_on_new_json_witness :
  JSON_stringify (Some (call_config env0 opts_local))
  <> JSON_stringify (currentConfig world_shared)
  /\ (let out := initialize (call_config env0 opts_local) world_shared in
      out.1 = Return ()
      /\ currentConfig out.2 = Some (call_config env0 opts_local)
      /\ tokenCache out.2
         = Some {| LRU.max := 5; LRU.ttl := 10 * 1000; LRU.items := [] |}
      /\ (upstash_active (cfg_upstash (call_config env0 opts_local)) = true ->
          redis out.2 = Some {| redis_url := JUndefined; redis_token := JUndefined |}
          /\ ratelimit out.2
             = Some (new_Ratelimit (call_config env0 opts_local)
                       {| redis_url := JUndefined; redis_token := JUndefined |}))
      /\ (upstash_active (cfg_upstash (call_config env0 opts_local)) = false ->
          redis out.2 = redis world_shared /\ ratelimit out.2 = ratelimit world_shared))
  /\ initialize (call_config env0 opts_shared) world_shared = (Return (), world_shared).
Proof.
  assert (Hdiff : JSON_stringify (Some (call_config env0 opts_local))
                  <> JSON_stringify (currentConfig world_shared)) by (by vm_compute).
  assert (H5 : 0 < 5) by lia. assert (H10 : 0 < 10) by lia.
  exact (conj Hdiff
           (conj (proj1 (initialize_rebuilds_on_new_json
                           (call_config env0 opts_local) world_shared) Hdiff H5 H10)
                 (proj2 (initialize_rebuilds_on_new_json
                           (call_config env0 opts_shared) world_shared) eq_refl))).
Defined.

(** C9 as stated fails in two ways.  A change to a configuration with
    Upstash off rebuilds the cache but keeps the client of the previous
    configuration, here one built for a limit of 2 while the new limit is
    5.  And two configurations with the same settings, written in a
    different property order, have different texts: the cache is rebuilt
    and the count of the first call is lost. *)
Lemma reconfiguration_keeps_client_and_depends_on_order :
  (JSON_stringify (Some (call_config env0 opts_local))
   <> JSON_stringify (currentConfig world_shared)
   /\ ratelimit (initialize (call_config env0 opts_local) world_shared).2
      = ratelimit world_shared
   /\ ratelimit world_shared
      = Some {| rl_redis := {| redis_url := JStr "https://example.upstash.io";
                               redis_token := JStr "secret" |};
                limiter := fixedWindow 2 "10 s";
                analytics := JUndefined |})
  /\ ((forall key, prop_get key (cfg_upstash (call_config env0 opts_analytics_first))
                   = prop_get key (cfg_upstash (call_config env0 opts_enabled_first)))
      /\ cfg_limit (call_config env0 opts_analytics_first)
         = cfg_limit (call_config env0 opts_enabled_first)
      /\ cfg_window (call_config env0 opts_analytics_first)
         = cfg_window (call_config env0 opts_enabled_first)
      /\ currentConfig world_enabled_first = Some (call_config env0 opts_enabled_first)
      /\ ((fun c => LRU.s_val <$> LRU.items c) <$> tokenCache world_enabled_first)
         = Some [ {| count := 1; reset := 1010 |} ]
      /\ (LRU.items
            <$> tokenCache (initialize (call_config env0 opts_analytics_first)
                              world_enabled_first).2)
         = Some []).
Proof.
  split.
  - split; [by vm_compute|]. split; reflexivity.
  - split.
    + intros key.
      let a := eval vm_compute in (cfg_upstash (call_config env0 opts_analytics_first)) in
      change (cfg_upstash (call_config env0 opts_analytics_first)) with a.
      let b := eval vm_compute in (cfg_upstash (call_config env0 opts_enabled_first)) in
      change (cfg_upstash (call_config env0 opts_enabled_first)) with b.
      cbn [prop_get]. repeat case_bool_decide; done.
    + repeat split.
Qed.

(** ** Reachable module states *)

Lemma initialize_within_capacity config w :
  within_capacity w -> within_capacity (initialize config w).2.
Proof.
  intros Hw. unfold initialize. case_bool_decide; [|done].
  destruct (LRU.create _ _) as [cache|msg] eqn:Hcreate; [|done].
  apply create_Return in Hcreate as (_ & _ & Hempty).
  assert (Hnew : within_capacity (set_tokenCache cache (set_currentConfig config w))).
  { intros c [= <-] Hmax. unfold LRU.size. rewrite Hempty. cbn. lia. }
  by destruct (upstash_active _).
Qed.

Lemma touched_within_capacity now k (c c' : LRU.t TokenData) w :
  touched_shape now k c c' ->
  (0 < LRU.max c -> LRU.size c <= LRU.max c) ->
  within_capacity (set_tokenCache c' w).
Proof.
  intros (Hmax & _ & s & l & _ & _ & _ & _ & Hsize) Hc c'' [= <-] Hpos.
  rewrite Hmax in *. auto.
Qed.

(** X18.  The capacity bound holds in every module state that calls of
    [rateLimit] can reach: what [rateLimit] does to [tokenCache] is a
    [checkRateLimit] and, after an Upstash answer, a [set]. *)
Lemma reachable_within_capacity w : reachable w -> within_capacity w.
Proof.
  induction 1 as [|env backend now later o w _ IH]; [done|].
  unfold rateLimit. destruct (_ && _); [done|].
  pose proof (initialize_within_capacity
                {| cfg_limit := default 60 (opt_limit o);
                   cfg_window := default 60 (opt_window o);
                   cfg_upstash := spread_upstash
                                    (with_env env (default [] (opt_upstash o))) |}
                w IH) as Hinit.
  destruct (initialize _ w) as [[[]|msg] w1]; [|done]. cbn [snd] in Hinit.
  destruct (tokenCache w1) as [cache|] eqn:Hcache; [|done].
  pose proof (checkRateLimit_shape now
                (non_null (resolve_identifier (opt_req o) (opt_request o)
                             (opt_identifier o)))
                (default 60 (opt_limit o)) (default 60 (opt_window o)) cache) as Hshape.
  destruct (checkRateLimit now _ _ _ cache) as [local cache1]. cbn [snd] in Hshape.
  assert (Hcache1 : 0 < LRU.max cache1 -> LRU.size cache1 <= LRU.max cache1).
  { destruct Hshape as (Hmax & _ & _ & _ & _ & _ & _ & _ & Hsize).
    rewrite Hmax. intros Hpos. apply Hsize; [done|]. by apply Hinit. }
  assert (Hlocal : forall w', within_capacity (set_tokenCache cache1 w')).
  { intros w' c [= <-]. exact Hcache1. }
  destruct (negb (chk_success local)); [apply Hlocal|].
  destruct (upstash_active _); [|apply Hlocal].
  cbn [ratelimit set_tokenCache]. destruct (ratelimit w1) as [client|]; [|apply Hlocal].
  destruct (backend client _) as [u|msg].
  - assert (Hset : forall d w', within_capacity
                     (set_tokenCache (LRU.set later
                        (non_null (resolve_identifier (opt_req o) (opt_request o)
                                     (opt_identifier o))) d cache1) w')).
    { intros d w'. eapply touched_within_capacity; [apply set_shape | exact Hcache1]. }
    destruct (negb (up_success u)); apply Hset.
  - intros c [= <-]. exact Hcache1.
Qed.

(** * Further properties *)

(** ** [rateLimit] without Upstash *)

Lemma rateLimit_unfold_local env backend now later o w w1 cache :
  has_identity o = true ->
  upstash_active (call_upstash env o) = false ->
  initialize (call_config env o) w = (Return (), w1) ->
  tokenCache w1 = Some cache ->
  rateLimit env backend now later o w
  = (Return (local_response (opt_response o) (call_limit o)
               (checkRateLimit now (call_identifier o) (call_limit o)
                  (call_window o) cache).1),
     set_tokenCache (checkRateLimit now (call_identifier o) (call_limit o)
                       (call_window o) cache).2 w1).
Proof.
  intros Hid Hoff Hinit Hcache. unfold rateLimit. rewrite has_identity_guard, Hid.
  cbn [negb].
  fold (call_limit o) (call_window o) (call_upstash env o) (call_config env o)
       (call_identifier o).
  rewrite Hinit, Hcache, Hoff.
  destruct (checkRateLimit now (call_identifier o) (call_limit o) (call_window o) cache)
    as [local cache1].
  cbn [fst snd]. unfold local_response. by destruct (chk_success local) eqn:Hs.
Qed.

Lemma prop_get_set_eq k v (o : JSObject) : prop_get k (prop_set k v o) = v.
Proof.
  induction o as [|[k' v'] o IH]; cbn [prop_set prop_get].
  - by rewrite bool_decide_eq_true_2.
  - case_bool_decide as Hk; cbn [prop_get]; by rewrite ?Hk, ?bool_decide_eq_true_2,
      ?bool_decide_eq_false_2 by done.
Qed.

Lemma prop_get_set_ne k k' v (o : JSObject) :
  k <> k' -> prop_get k (prop_set k' v o) = prop_get k o.
Proof.
  intros Hne. induction o as [|[k0 v0] o IH]; cbn [prop_set prop_get].
  - by rewrite bool_decide_eq_false_2 by congruence.
  - case_bool_decide as Hk; cbn [prop_get]; [|by rewrite IH].
    subst k0. by rewrite !bool_decide_eq_false_2 by congruence.
Qed.

Lemma prop_get_spread k (u : JSObject) : prop_get k (spread_upstash u) = prop_get k u.
Proof.
  unfold spread_upstash.
  destruct (decide (k = "token"%string)) as [->|Ht]; [by rewrite prop_get_set_eq|].
  rewrite prop_get_set_ne by done.
  destruct (decide (k = "url"%string)) as [->|Hu]; [by rewrite prop_get_set_eq|].
  by rewrite prop_get_set_ne.
Qed.

Lemma upstash_active_spread (u : JSObject) :
  upstash_active (spread_upstash u) = upstash_active u.
Proof. unfold upstash_active. by rewrite !prop_get_spread. Qed.

Lemma initialize_same config w :
  currentConfig w = Some config -> initialize config w = (Return (), w).
Proof. intros Hc. unfold initialize. rewrite Hc. by rewrite bool_decide_eq_false_2 by tauto. Qed.

(** X2.  With Upstash not enabled (or without [url] or [token]) a call
    that reaches the local counter returns the local verdict as it is,
    sends nothing to Upstash, whatever the backend would answer, and
    leaves the Upstash client variables as they were. *)
Theorem rateLimit_local_mode (env : Env) (backend : Backend) (now later : Z)
    (o : RateLimitOptions) (w : World) (local : CheckResult) :
  upstash_active (call_upstash env o) = false ->
  local_verdict env now o w = Some local ->
  exists w',
    rateLimit env backend now later o w
    = (Return (local_response (opt_response o) (call_limit o) local), w')
    /\ upstash_calls w' = upstash_calls w
    /\ redis w' = redis w
    /\ ratelimit w' = ratelimit w.
Proof.
  intros Hoff. unfold local_verdict.
  destruct (has_identity o) eqn:Hid; [|done].
  destruct (initialize (call_config env o) w) as [[[]|msg] w1] eqn:Hinit; [|done].
  destruct (tokenCache w1) as [cache|] eqn:Hcache; [|done].
  cbn [mbind option_bind]. intros [= <-].
  rewrite (rateLimit_unfold_local _ _ _ _ _ _ _ _ Hid Hoff Hinit Hcache).
  eexists. split; [reflexivity|].
  assert (Hkeep : upstash_calls w1 = upstash_calls w /\ redis w1 = redis w
                  /\ ratelimit w1 = ratelimit w).
  { revert Hinit. unfold initialize. case_bool_decide; [|by intros [= <-]].
    destruct (LRU.create _ _); [|done].
    cbn [cfg_upstash call_config]. rewrite upstash_active_spread, Hoff.
    by intros [= <-]. }
  done.
Qed.

Lemma counts_limit_then_reject (L R : Z) :
  0 < L ->
  result_of_count L R <$> seqZ 1 (L + 1)
  = ((fun n => {| chk_success := true; chk_remaining := L - n;
                  chk_reset := ceil1000 R |}) <$> seqZ 1 L)
    ++ [ {| chk_success := false; chk_remaining := 0; chk_reset := ceil1000 R |} ].
Proof.
  intros HL. rewrite seqZ_app by lia. rewrite fmap_app. f_equal.
  - apply list_fmap_ext. intros i n Hn.
    apply list_elem_of_lookup_2, elem_of_seqZ in Hn.
    unfold result_of_count. by rewrite (proj2 (Z.leb_le n L)) by lia.
  - rewrite (seqZ_cons _ 1), seqZ_nil by lia. cbn.
    unfold result_of_count. by rewrite (proj2 (Z.leb_gt _ _)) by lia.
Qed.

Lemma rateLimit_seq_local env backend o times :
  has_identity o = true ->
  upstash_active (call_upstash env o) = false ->
  forall w cache,
  currentConfig w = Some (call_config env o) ->
  tokenCache w = Some cache ->
  (rateLimit_seq env backend times o w).1
  = (fun r => Return (local_response (opt_response o) (call_limit o) r))
      <$> (checkRateLimit_seq (fst <$> times) (call_identifier o) (call_limit o)
             (call_window o) cache).1.
Proof.
  intros Hid Hoff. induction times as [|[now later] times IH]; intros w cache Hc Ht;
    [done|].
  cbn [rateLimit_seq fmap list_fmap checkRateLimit_seq fst].
  rewrite (rateLimit_unfold_local _ _ _ _ _ _ w cache Hid Hoff (initialize_same _ _ Hc) Ht).
  destruct (checkRateLimit now (call_identifier o) (call_limit o) (call_window o) cache)
    as [local cache1] eqn:Hcheck.
  cbn [fst snd]. specialize (IH (set_tokenCache cache1 w) cache1 Hc eq_refl).
  destruct (rateLimit_seq env backend times o (set_tokenCache cache1 w)) as [rs w''].
  change (list_fmap _ _ ?f ?l) with (f <$> l).
  destruct (checkRateLimit_seq (fst <$> times) (call_identifier o) (call_limit o)
              (call_window o) cache1) as [cs c''].
  cbn [fst fmap list_fmap] in *. by rewrite IH.
Qed.

(** X1.  After a change of configuration, with Upstash off and a limit
    [L > 0], [L + 1] successive calls of [rateLimit] with the same options
    within one window answer as follows: call number [n <= L] returns
    [success] with [remaining = L - n] and no 429 response, and call number
    [L + 1] returns [success = false], [remaining = 0] and the 429
    response. *)
Theorem rateLimit_seq_limit_then_reject (env : Env) (backend : Backend)
    (o : RateLimitOptions) (w : World) (t0 l0 : Z) (times : list (Z * Z)) :
  has_identity o = true ->
  upstash_active (call_upstash env o) = false ->
  0 < call_limit o ->
  0 < call_window o ->
  JSON_stringify (Some (call_config env o)) <> JSON_stringify (currentConfig w) ->
  length times = Z.to_nat (call_limit o) ->
  Forall (fun tl => tl.1 - t0 <= call_window o * 1000) times ->
  (rateLimit_seq env backend ((t0, l0) :: times) o w).1
  = ((fun n => Return {| success := true; remaining := call_limit o - n;
                         reset_at := ceil1000 (t0 + call_window o);
                         rateLimitedResponse := None; pending := None |})
       <$> seqZ 1 (call_limit o))
    ++ [ Return {| success := false; remaining := 0;
                   reset_at := ceil1000 (t0 + call_window o);
                   rateLimitedResponse :=
                     Some (tag_remaining_reset 0 (ceil1000 (t0 + call_window o))
                             (new_rateLimitedResponse (opt_response o) (call_limit o)));
                   pending := None |} ].
Proof.
  intros Hid Hoff HL HW Hdiff Hlen Htimes.
  set (c0 := {| LRU.max := call_limit o; LRU.ttl := call_window o * 1000;
                LRU.items := [] |} : LRU.t TokenData).
  assert (Hinit : initialize (call_config env o) w
                  = (Return (), set_tokenCache c0 (set_currentConfig (call_config env o) w))).
  { unfold initialize. rewrite bool_decide_eq_true_2 by done.
    cbn [cfg_limit cfg_window cfg_upstash call_config]. unfold LRU.create.
    rewrite (proj2 (Z.ltb_ge _ _)) by lia. rewrite (proj2 (Z.ltb_ge _ _)) by lia.
    rewrite (proj2 (Z.eqb_neq _ _)) by lia. cbn [andb].
    by rewrite upstash_active_spread, Hoff. }
  cbn [rateLimit_seq].
  rewrite (rateLimit_unfold_local _ _ _ _ _ _ _ c0 Hid Hoff Hinit eq_refl).
  assert (Hfresh : LRU.peek t0 (call_identifier o) c0 = None) by done.
  rewrite (checkRateLimit_fresh _ _ _ _ _ Hfresh). cbn [fst snd].
  set (c1 := LRU.with_items c0 _).
  set (w1 := set_tokenCache c1 _).
  pose proof (rateLimit_seq_local env backend o times Hid Hoff w1 c1 eq_refl eq_refl)
    as Hseq.
  destruct (rateLimit_seq env backend times o w1) as [rs w''].
  cbn [fst] in *. rewrite Hseq.
  rewrite (checkRateLimit_seq_live (call_identifier o) (call_limit o) (call_window o) c1
             t0 (t0 + call_window o) (fst <$> times) 1 []); cycle 1.
  - unfold c1, make_room. cbn. by destruct (_ =? _).
  - done.
  - apply Forall_fmap. exact Htimes.
  - rewrite length_fmap, Hlen, Z2Nat.id by lia.
    rewrite <- list_fmap_compose.
    transitivity ((fun r => Return (local_response (opt_response o) (call_limit o) r))
                    <$> (result_of_count (call_limit o) (t0 + call_window o)
                           <$> seqZ 1 (call_limit o + 1))).
    + rewrite (seqZ_cons 1 (call_limit o + 1)) by lia. rewrite !fmap_cons. f_equal.
      replace (Z.pred (call_limit o + 1)) with (call_limit o) by lia.
      rewrite <- (fmap_add_seqZ 1 1), <- !list_fmap_compose. done.
    + rewrite counts_limit_then_reject by done.
      rewrite fmap_app, <- list_fmap_compose. done.
Qed.

(** ** [rateLimit] with Upstash: failure and write-back *)

Lemma rateLimit_unfold_shared env backend now later o w w1 cache client :
  has_identity o = true ->
  upstash_active (call_upstash env o) = true ->
  initialize (call_config env o) w = (Return (), w1) ->
  tokenCache w1 = Some cache ->
  ratelimit w1 = Some client ->
  chk_success (checkRateLimit now (call_identifier o) (call_limit o)
                 (call_window o) cache).1 = true ->
  let local := (checkRateLimit now (call_identifier o) (call_limit o)
                  (call_window o) cache).1 in
  let cache1 := (checkRateLimit now (call_identifier o) (call_limit o)
                   (call_window o) cache).2 in
  let w3 := log_upstash_call client (call_identifier o) (set_tokenCache cache1 w1) in
  rateLimit env backend now later o w
  = match backend client (call_identifier o) with
    | Throw msg => (Throw msg, w3)
    | Return u =>
        let reset_ := Z.max (chk_reset local) (ceil1000 (up_reset u)) in
        let remaining_ := Z.min (chk_remaining local) (up_remaining u) in
        let w4 :=
          set_tokenCache
            (LRU.set later (call_identifier o)
               {| count := call_limit o - remaining_; reset := reset_ |} cache1) w3 in
        (Return (if up_success u
                 then {| success := true; remaining := remaining_; reset_at := reset_;
                         rateLimitedResponse := None; pending := None |}
                 else {| success := false; remaining := remaining_; reset_at := reset_;
                         rateLimitedResponse :=
                           Some (tag_remaining_reset remaining_ reset_
                                   (new_rateLimitedResponse (opt_response o)
                                      (call_limit o)));
                         pending := Some (up_pending u) |}), w4)
    end.
Proof.
  intros Hid Hon Hinit Hcache Hclient Hok. unfold rateLimit.
  rewrite has_identity_guard, Hid. cbn [negb].
  fold (call_limit o) (call_window o) (call_upstash env o) (call_config env o)
       (call_identifier o).
  rewrite Hinit, Hcache, Hon.
  destruct (checkRateLimit now (call_identifier o) (call_limit o) (call_window o) cache)
    as [local cache1].
  cbn [fst snd] in *. rewrite Hok. cbn [negb ratelimit set_tokenCache]. rewrite Hclient.
  destruct (backend client (call_identifier o)) as [u|msg]; [|done].
  cbn zeta. by destruct (up_success u).
Qed.

Lemma local_verdict_inv env now o w local :
  local_verdict env now o w = Some local ->
  has_identity o = true
  /\ exists w1 cache,
       initialize (call_config env o) w = (Return (), w1)
       /\ tokenCache w1 = Some cache
       /\ local = (checkRateLimit now (call_identifier o) (call_limit o)
                     (call_window o) cache).1.
Proof.
  unfold local_verdict. destruct (has_identity o); [|done].
  destruct (initialize (call_config env o) w) as [[[]|msg] w1]; [|done].
  destruct (tokenCache w1) as [cache|] eqn:Hcache; [|done].
  cbn [mbind option_bind]. intros [= <-]. split; [done|]. by exists w1, cache.
Qed.

(** X3.  When the local counter admits and the request to Upstash fails,
    [rateLimit] throws that failure: it neither admits on the local verdict
    nor returns a 429.  The call to Upstash has been made, and the local
    counter keeps the count of this call. *)
Theorem rateLimit_upstash_failure_propagates (env : Env) (backend : Backend)
    (now later : Z) (o : RateLimitOptions) (w : World) (local : CheckResult)
    (client : Ratelimit) (msg : string) :
  local_verdict env now o w = Some local ->
  chk_success local = true ->
  upstash_active (call_upstash env o) = true ->
  client_in_use env o w = Some client ->
  backend client (call_identifier o) = Throw msg ->
  exists w' cache,
    rateLimit env backend now later o w = (Throw msg, w')
    /\ upstash_calls w' = upstash_calls w ++ [(client, call_identifier o)]
    /\ tokenCache (initialize (call_config env o) w).2 = Some cache
    /\ tokenCache w'
       = Some (checkRateLimit now (call_identifier o) (call_limit o)
                 (call_window o) cache).2.
Proof.
  intros (Hid & w1 & cache & Hinit & Hcache & ->)%local_verdict_inv Hok Hon Hclient Hfail.
  unfold client_in_use in Hclient. rewrite Hinit in Hclient. cbn [snd] in Hclient.
  rewrite (rateLimit_unfold_shared _ _ _ _ _ _ _ _ _ Hid Hon Hinit Hcache Hclient Hok).
  rewrite Hfail. eexists _, cache. split; [reflexivity|].
  pose proof (initialize_upstash_calls (call_config env o) w) as Hcalls.
  rewrite Hinit in *. cbn [snd] in *. cbn. by rewrite Hcalls.
Qed.

(** X4.  After an Upstash answer the local entry of the identifier is
    overwritten with [count = limit - remaining] and the merged [reset],
    aged from the time of the write-back.  The written count is never below
    the count the local check had reached.  While that entry lives, the next
    local check counts [limit - remaining + 1] and reports
    [ceil (reset / 1000)] of the merged reset, which is already in
    seconds. *)
Theorem rateLimit_write_back (env : Env) (backend : Backend) (now later : Z)
    (o : RateLimitOptions) (w : World) (local : CheckResult) (client : Ratelimit)
    (u : UpstashResult) :
  local_verdict env now o w = Some local ->
  chk_success local = true ->
  upstash_active (call_upstash env o) = true ->
  client_in_use env o w = Some client ->
  backend client (call_identifier o) = Return u ->
  exists r w' cache',
    rateLimit env backend now later o w = (Return r, w')
    /\ tokenCache w' = Some cache'
    /\ LRU.find (call_identifier o) (LRU.items cache')
       = Some (LRU.Slot (call_identifier o)
                 {| count := call_limit o - remaining r; reset := reset_at r |} later)
    /\ call_limit o - chk_remaining local <= call_limit o - remaining r
    /\ forall t,
         t - later <= LRU.ttl cache' ->
         (checkRateLimit t (call_identifier o) (call_limit o) (call_window o) cache').1
         = {| chk_success := call_limit o - remaining r + 1 <=? call_limit o;
              chk_remaining :=
                if call_limit o - remaining r + 1 <=? call_limit o
                then remaining r - 1 else 0;
              chk_reset := ceil1000 (reset_at r) |}.
Proof.
  intros (Hid & w1 & cache & Hinit & Hcache & ->)%local_verdict_inv Hok Hon Hclient Hanswer.
  unfold client_in_use in Hclient. rewrite Hinit in Hclient. cbn [snd] in Hclient.
  rewrite (rateLimit_unfold_shared _ _ _ _ _ _ _ _ _ Hid Hon Hinit Hcache Hclient Hok).
  rewrite Hanswer. cbn zeta.
  set (local := (checkRateLimit now (call_identifier o) (call_limit o)
                   (call_window o) cache).1) in *.
  set (cache1 := (checkRateLimit now (call_identifier o) (call_limit o)
                    (call_window o) cache).2).
  set (remaining_ := Z.min (chk_remaining local) (up_remaining u)).
  set (reset_ := Z.max (chk_reset local) (ceil1000 (up_reset u))).
  set (d := {| count := call_limit o - remaining_; reset := reset_ |}).
  assert (Hr : forall r : RateLimitResponse,
            remaining r = remaining_ -> reset_at r = reset_ ->
            LRU.find (call_identifier o)
              (LRU.items (LRU.set later (call_identifier o) d cache1))
            = Some (LRU.Slot (call_identifier o)
                      {| count := call_limit o - remaining r; reset := reset_at r |} later)
            /\ call_limit o - chk_remaining local <= call_limit o - remaining r
            /\ forall t,
                 t - later <= LRU.ttl (LRU.set later (call_identifier o) d cache1) ->
                 (checkRateLimit t (call_identifier o) (call_limit o) (call_window o)
                    (LRU.set later (call_identifier o) d cache1)).1
                 = {| chk_success := call_limit o - remaining r + 1 <=? call_limit o;
                      chk_remaining :=
                        if call_limit o - remaining r + 1 <=? call_limit o
                        then remaining r - 1 else 0;
                      chk_reset := ceil1000 (reset_at r) |}).
  { intros r -> ->.
    assert (Hfind : LRU.find (call_identifier o)
                      (LRU.items (LRU.set later (call_identifier o) d cache1))
                    = Some (LRU.Slot (call_identifier o) d later)).
    { unfold LRU.set. destruct (LRU.find _ (LRU.items cache1));
        cbn [LRU.items LRU.with_items]; unfold LRU.find; cbn [List.find];
        unfold LRU.has_key; cbn [LRU.s_key]; by rewrite bool_decide_eq_true_2. }
    split; [done|]. split; [unfold remaining_; lia|].
    intros t Ht.
    rewrite (checkRateLimit_live t _ _ _ _ _ Hfind).
    - cbn [fst LRU.s_val d count reset]. unfold result_of_count. f_equal.
      destruct (_ <=? _); [lia | done].
    - unfold LRU.isStale. cbn [LRU.s_start]. apply andb_false_iff. right.
      apply Z.ltb_ge. lia. }
  destruct (up_success u); eexists _, _, _; (split; [reflexivity|]);
    (split; [reflexivity|]); by apply Hr.
Qed.

(** ** [checkRateLimit] and the other identifiers *)

Lemma find_remove_ne {V} k k' (l : list (LRU.slot V)) :
  k' <> k -> LRU.find k' (LRU.remove k l) = LRU.find k' l.
Proof.
  intros Hne. unfold LRU.find, LRU.remove, LRU.has_key.
  induction l as [|s l IH]; cbn [List.filter List.find]; [done|].
  destruct (bool_decide (LRU.s_key s = k)) eqn:Hk; cbn [negb List.find].
  - apply bool_decide_eq_true in Hk.
    by rewrite (bool_decide_eq_false_2 (LRU.s_key s = k')) by congruence.
  - by rewrite IH.
Qed.

Lemma find_app {V} k (l1 l2 : list (LRU.slot V)) :
  LRU.find k (l1 ++ l2)
  = match LRU.find k l1 with Some s => Some s | None => LRU.find k l2 end.
Proof.
  unfold LRU.find. induction l1 as [|s l1 IH]; cbn [app List.find]; [done|].
  by destruct (LRU.has_key k s).
Qed.

Lemma find_removelast_cases {V} k (l : list (LRU.slot V)) :
  LRU.find k (removelast l) = LRU.find k l
  \/ (LRU.find k (removelast l) = None
      /\ exists s, LRU.find k l = Some s /\ last l = Some s).
Proof.
  destruct (decide (l = [])) as [->|Hne]; [by left|].
  destruct (exists_last Hne) as (l' & x & ->).
  rewrite removelast_last, find_app, last_snoc.
  destruct (LRU.find k l') as [s|]; [by left|].
  destruct (LRU.find k [x]) as [s|] eqn:Hx; [|by left].
  right. split; [done|]. exists s. split; [done|].
  unfold LRU.find in Hx. cbn in Hx. by destruct (LRU.has_key k x); simplify_eq.
Qed.

(** X5.  A check on one identifier never changes the entry of another
    one: an entry found afterwards is the entry that was there, with its
    count, reset and age.  Another identifier's entry can only disappear,
    and only by eviction: the checked identifier was not tracked (or was
    stale), the cache was full, and the entry was the least recently used
    one. *)
Theorem checkRateLimit_frame (now : Z) (k k' : string) (limit window : Z)
    (c : LRU.t TokenData) :
  k' <> k ->
  (forall s, LRU.find k' (LRU.items (checkRateLimit now k limit window c).2) = Some s ->
             LRU.find k' (LRU.items c) = Some s)
  /\ (forall s, LRU.find k' (LRU.items c) = Some s ->
                LRU.find k' (LRU.items (checkRateLimit now k limit window c).2) = None ->
                LRU.peek now k c = None
                /\ Z.of_nat (length (LRU.remove k (LRU.items c))) = LRU.max c
                /\ last (LRU.remove k (LRU.items c)) = Some s).
Proof.
  intros Hne.
  assert (Hhead : forall (s0 : LRU.slot TokenData) l,
            LRU.s_key s0 = k -> LRU.find k' (s0 :: l) = LRU.find k' l).
  { intros s0 l Hk. unfold LRU.find. cbn [List.find]. unfold LRU.has_key at 1.
    by rewrite bool_decide_eq_false_2 by congruence. }
  destruct (LRU.peek now k c) as [d|] eqn:Hpeek.
  - unfold LRU.peek in Hpeek.
    destruct (LRU.find k (LRU.items c)) as [sk|] eqn:Hfind; [|done].
    destruct (LRU.isStale c now sk) eqn:Hstale; [done|].
    rewrite (checkRateLimit_live _ _ _ _ _ _ Hfind Hstale).
    cbn [snd LRU.items LRU.with_items]. rewrite Hhead by done.
    rewrite find_remove_ne by done. split; [done|]. intros s Hs Hnone. congruence.
  - rewrite (checkRateLimit_fresh _ _ _ _ _ Hpeek).
    cbn [snd LRU.items LRU.with_items]. rewrite Hhead by done. unfold make_room.
    destruct (Z.eqb_spec (Z.of_nat (length (LRU.remove k (LRU.items c)))) (LRU.max c))
      as [Hfull|Hroom].
    + destruct (find_removelast_cases k' (LRU.remove k (LRU.items c)))
        as [Heq|(Hnone & s' & Hs' & Hlast)].
      * rewrite Heq, find_remove_ne by done. split; [done|]. intros; congruence.
      * rewrite Hnone. rewrite find_remove_ne in Hs' by done.
        split; [done|]. intros s Hs _. by simplify_eq.
    + rewrite find_remove_ne by done. split; [done|]. intros; congruence.
Qed.

(** ** [checkRateLimit] within a history *)















(** On the sample history the third call on ["a"] is the rejected one. *)
Example third_call_rejected :
  calls_on "a" ops_between = 1%nat
  /\ (checkRateLimit 1300 "a" 2 10
        (run_ops (OpCheck 1000 "a" 2 10 :: ops_between) cache0)).1
     = {| chk_success := false; chk_remaining := 0; chk_reset := 2 |}.
Proof. split; reflexivity. Qed.


(** ** The 429 response *)

Lemma checkRateLimit_rejected_remaining now k limit window c :
  chk_success (checkRateLimit now k limit window c).1 = false ->
  chk_remaining (checkRateLimit now k limit window c).1 = 0.
Proof.
  unfold checkRateLimit. destruct (LRU.get now k c) as [[d|] c1]; cbn;
    by intros ->.
Qed.

(** X6.  The 429 response of a local rejection has the JSON body
    [{ message: "Too Many Requests" }] and carries the limit, a remaining
    quota of 0 and the reset as [X-RateLimit-*] headers.  Of the headers of
    the caller's response it carries exactly those whose name starts with
    [access-control-], with their values. *)
Theorem rateLimit_429_headers (env : Env) (backend : Backend) (now later : Z)
    (o : RateLimitOptions) (w : World) (local : CheckResult) :
  local_verdict env now o w = Some local ->
  chk_success local = false ->
  exists resp w',
    rateLimit env backend now later o w
    = (Return {| success := false; remaining := 0; reset_at := chk_reset local;
                 rateLimitedResponse := Some resp; pending := None |}, w')
    /\ status resp = 429
    /\ body resp = json_object [json_member "message" (json_quote "Too Many Requests")]
    /\ response_headers resp !! "x-ratelimit-limit"%string = Some (pretty (call_limit o))
    /\ response_headers resp !! "x-ratelimit-remaining"%string = Some "0"%string
    /\ response_headers resp !! "x-ratelimit-reset"%string
       = Some (pretty (chk_reset local))
    /\ response_headers resp !! "content-type"%string = Some "application/json"%string
    /\ (forall name, startsWith "access-control-" name = true ->
                     response_headers resp !! name
                     = default ∅ (opt_response o) !! name)
    /\ (forall name, startsWith "access-control-" name = false ->
                     name ∉ ["x-ratelimit-limit"; "x-ratelimit-remaining";
                             "x-ratelimit-reset"; "content-type"]%string ->
                     response_headers resp !! name = None).
Proof.
  intros Hlocal Hrej.
  pose proof Hlocal as (Hid & w1 & cache & Hinit & Hcache & Heq)%local_verdict_inv.
  assert (Hzero : chk_remaining local = 0).
  { subst local. by apply checkRateLimit_rejected_remaining. }
  unfold rateLimit. rewrite has_identity_guard, Hid. cbn [negb].
  fold (call_limit o) (call_window o) (call_upstash env o) (call_config env o)
       (call_identifier o).
  rewrite Hinit, Hcache.
  destruct (checkRateLimit now (call_identifier o) (call_limit o) (call_window o) cache)
    as [local' cache1].
  cbn [fst] in Heq. subst local'. rewrite Hrej, Hzero. cbn [negb].
  eexists _, _. split; [reflexivity|].
  unfold tag_remaining_reset, set_header, new_rateLimitedResponse.
  cbn [status body response_headers].
  set (cors := filter _ _).
  split; [done|]. split; [done|].
  split; [by rewrite !lookup_insert_ne, lookup_insert_eq by done|].
  split; [by rewrite lookup_insert_ne, lookup_insert_eq by done|].
  split; [by rewrite lookup_insert_eq|].
  assert (Hcors : forall name, cors !! name
            = if startsWith "access-control-" name
              then default ∅ (opt_response o) !! name else None).
  { intros name. unfold cors. rewrite map_lookup_filter.
    destruct (default ∅ (opt_response o) !! name) as [v|] eqn:Hv;
      cbn [mbind option_bind fst].
    - destruct (startsWith "access-control-" name) eqn:Hp.
      + by rewrite option_guard_True.
      + by rewrite option_guard_False.
    - by destruct (startsWith _ _). }
  split.
  { rewrite !lookup_insert_ne by done.
    rewrite lookup_union, Hcors. cbn. by rewrite lookup_singleton_eq. }
  split.
  - intros name Hname.
    rewrite !lookup_insert_ne by (intros <-; done).
    rewrite lookup_union, Hcors, Hname.
    rewrite lookup_singleton_ne by (intros <-; done).
    by destruct (default ∅ (opt_response o) !! name).
  - intros name Hname Hnot.
    rewrite !not_elem_of_cons in Hnot. destruct Hnot as (? & ? & ? & ? & _).
    rewrite !lookup_insert_ne by done.
    rewrite lookup_union, Hcors, Hname. by rewrite lookup_singleton_ne.
Qed.

(** ** A changed limit or window *)

Lemma contains_pretty_N_go c x s :
  (forall d, (d < 10)%N -> pretty_N_char d <> c) ->
  contains c (pretty_N_go x s) = contains c s.
Proof.
  intros Hc. revert s. induction (N.lt_wf_0 x) as [x _ IH]; intros s.
  assert (x = 0 \/ 0 < x)%N as [->|?] by lia.
  - by rewrite pretty_N_go_0.
  - rewrite pretty_N_go_step by done. rewrite IH by (by apply N.div_lt).
    cbn [contains]. rewrite bool_decide_eq_false_2; [done|].
    apply Hc. by apply N.mod_lt.
Qed.

Lemma pretty_N_char_not_comma d : pretty_N_char d <> ","%char.
Proof. unfold pretty_N_char. by repeat case_match. Qed.

Lemma contains_comma_pretty (z : Z) : contains ","%char (pretty z) = false.
Proof.
  assert (HN : forall p, contains ","%char (pretty (N.pos p)) = false).
  { intros p. unfold pretty, pretty_N. rewrite decide_False by done.
    rewrite contains_pretty_N_go; [done|]. intros d _. apply pretty_N_char_not_comma. }
  destruct z as [|p|p]; [done| apply HN |].
  change (pretty (Z.neg p)) with (String "-"%char (pretty (N.pos p))).
  cbn [contains]. by rewrite HN.
Qed.

Lemma append_sep_cancel c s s' r r' :
  contains c s = false -> contains c s' = false ->
  s +:+ String c r = s' +:+ String c r' -> s = s' /\ r = r'.
Proof.
  revert s'. induction s as [|a s IH]; intros [|a' s']; cbn [contains];
    intros Hs Hs'.
  - by intros [= ->].
  - intros [= <- _]. by rewrite bool_decide_eq_true_2 in Hs'.
  - intros [= -> _]. by rewrite bool_decide_eq_true_2 in Hs.
  - apply orb_false_iff in Hs as [_ Hs]. apply orb_false_iff in Hs' as [_ Hs'].
    intros [= -> Heq]. by destruct (IH _ Hs Hs' Heq) as [-> ->].
Qed.

Lemma append_assoc (a b c : string) : (a +:+ b) +:+ c = a +:+ (b +:+ c).
Proof.
  induction a as [|x a IH]; [done|].
  change (String x ((a +:+ b) +:+ c) = String x (a +:+ b +:+ c)). by rewrite IH.
Qed.

Lemma JSON_stringify_limit_window (c c' : Config) :
  JSON_stringify (Some c) = JSON_stringify (Some c') ->
  cfg_limit c = cfg_limit c' /\ cfg_window c = cfg_window c'.
Proof.
  unfold JSON_stringify, json_object, json_member. cbn [String.concat].
  rewrite !append_assoc. intros H.
  apply (inj (String.append "{")), (inj (String.append (json_quote "limit"))),
    (inj (String.append ":")) in H.
  apply append_sep_cancel in H as [Hl H]; [|apply contains_comma_pretty..].
  apply (inj (String.append (json_quote "window"))), (inj (String.append ":")) in H.
  apply append_sep_cancel in H as [Hw H]; [|apply contains_comma_pretty..].
  split; by apply (inj pretty).
Qed.

Lemma JSON_stringify_initial (c : Config) :
  JSON_stringify (Some c) <> JSON_stringify None.
Proof.
  unfold JSON_stringify, json_object, json_member. cbn [String.concat].
  rewrite !append_assoc. intros H. apply (inj (String.append "{")) in H.
  by destruct (cfg_limit c) eqn:?; vm_compute in H.
Qed.

(** X7.  The counts do not survive a change of the limit or of the window.
    A call whose limit or window differs from those of the call before it
    replaces the cache, so without Upstash it is admitted as the first
    call on its identifier, whatever was counted before; the new cache
    holds this identifier alone. *)
Theorem rateLimit_changed_limit_starts_afresh (env : Env) (backend : Backend)
    (now later : Z) (o : RateLimitOptions) (w : World) (c0 : Config) :
  has_identity o = true ->
  upstash_active (call_upstash env o) = false ->
  currentConfig w = Some c0 ->
  cfg_limit c0 <> call_limit o \/ cfg_window c0 <> call_window o ->
  0 < call_limit o -> 0 <= call_window o ->
  exists w',
    rateLimit env backend now later o w
    = (Return {| success := true; remaining := call_limit o - 1;
                 reset_at := ceil1000 (now + call_window o);
                 rateLimitedResponse := None; pending := None |}, w')
    /\ LRU.items <$> tokenCache w'
       = Some [LRU.Slot (call_identifier o)
                 {| count := 1; reset := now + call_window o |} now].
Proof.
  intros Hid Hoff Hcur Hdiff Hl Hw.
  assert (Hinit : initialize (call_config env o) w
                  = (Return (),
                     set_tokenCache {| LRU.max := call_limit o;
                                       LRU.ttl := call_window o * 1000;
                                       LRU.items := [] |}
                       (set_currentConfig (call_config env o) w))).
  { unfold initialize. rewrite bool_decide_eq_true_2.
    - cbn [cfg_limit cfg_window cfg_upstash call_config].
      unfold LRU.create.
      rewrite (proj2 (Z.ltb_ge _ _)) by lia. rewrite (proj2 (Z.ltb_ge _ _)) by lia.
      rewrite (proj2 (Z.eqb_neq _ _)) by lia. cbn [andb].
      by rewrite upstash_active_spread, Hoff.
    - rewrite Hcur. intros [??]%JSON_stringify_limit_window.
      cbn [cfg_limit cfg_window call_config] in *. destruct Hdiff; congruence. }
  rewrite (rateLimit_unfold_local _ _ _ _ _ _ _ _ Hid Hoff Hinit eq_refl).
  rewrite checkRateLimit_fresh by done.
  cbn [fst snd]. unfold local_response, result_of_count.
  cbn [chk_success chk_remaining chk_reset].
  rewrite (proj2 (Z.leb_le 1 (call_limit o))) by lia.
  eexists. split; [reflexivity|].
  cbn [tokenCache set_tokenCache fmap option_fmap option_map LRU.items LRU.with_items
       LRU.remove List.filter].
  unfold make_room. cbn [length LRU.max]. by destruct (_ =? _).
Qed.

(** ** The fixed window of the first version *)

Lemma fixed_window_seq_tracked (clks : list FixedWindowJS.Clock)
    (key : option string) (limit windowMs : Z)
    (m : gmap (option string) FixedWindowJS.Data) (d : FixedWindowJS.Data) :
  m !! key = Some d ->
  Forall (fun clk => FixedWindowJS.at_check clk - FixedWindowJS.lastReset d <= windowMs)
         clks ->
  let out := fixed_window_seq clks key limit windowMs m in
  out.1 = (fun i => bool_decide (limit <= FixedWindowJS.count d + Z.of_nat i))
            <$> seq 0 (length clks)
  /\ out.2 !! key
     = Some {| FixedWindowJS.count :=
                 Z.max (FixedWindowJS.count d)
                       (Z.min limit (FixedWindowJS.count d + Z.of_nat (length clks)));
               FixedWindowJS.lastReset := FixedWindowJS.lastReset d |}
  /\ forall k', k' <> key -> out.2 !! k' = m !! k'.
Proof.
  revert m d. induction clks as [|clk clks IH]; intros m d Hm Hclks; cbn zeta.
  - cbn [fixed_window_seq fst snd length seq fmap list_fmap].
    split; [done|]. split; [|done]. rewrite Hm. destruct d as [n t]. cbn.
    f_equal. f_equal. lia.
  - apply Forall_cons in Hclks as [Hclk Hclks].
    cbn [fixed_window_seq].
    pose proof (handleRateLimiting_frame clk key limit windowMs m) as Hframe.
    unfold FixedWindowJS.handleRateLimiting in *. rewrite Hm in *. cbn zeta in *.
    rewrite Z.gtb_ltb, (proj2 (Z.ltb_ge _ _)) in * by lia.
    rewrite Z.geb_leb in *.
    destruct (limit <=? FixedWindowJS.count d) eqn:Hfull.
    + apply Z.leb_le in Hfull. cbn [snd] in Hframe.
      specialize (IH (<[key := d]> m) d (lookup_insert_eq _ _ _) Hclks).
      cbn zeta in IH. destruct (fixed_window_seq clks key limit windowMs _) as [rest m2].
      cbn [fst snd] in *. destruct IH as (-> & -> & Hother).
      split; [|split].
      * cbn [length seq fmap list_fmap]. rewrite bool_decide_eq_true_2 by lia.
        f_equal. change (list_fmap _ _ ?f ?l) with (f <$> l).
        rewrite <- fmap_S_seq, <- list_fmap_compose.
        apply list_fmap_ext. intros _ i _. cbn.
        by rewrite !bool_decide_eq_true_2 by lia.
      * f_equal. f_equal. cbn [length]. lia.
      * intros k' Hk'. by rewrite Hother, Hframe.
    + apply Z.leb_gt in Hfull. cbn [snd] in Hframe.
      specialize (IH (<[key := {| FixedWindowJS.count := FixedWindowJS.count d + 1;
                                  FixedWindowJS.lastReset := FixedWindowJS.lastReset d |}]> m)
                     _ (lookup_insert_eq _ _ _) Hclks).
      cbn zeta in IH. cbn [FixedWindowJS.count FixedWindowJS.lastReset] in IH.
      destruct (fixed_window_seq clks key limit windowMs _) as [rest m2].
      cbn [fst snd] in *. destruct IH as (-> & -> & Hother).
      split; [|split].
      * cbn [length seq fmap list_fmap]. rewrite bool_decide_eq_false_2 by lia.
        f_equal. change (list_fmap _ _ ?f ?l) with (f <$> l).
        rewrite <- fmap_S_seq, <- list_fmap_compose.
        apply list_fmap_ext. intros _ i _. cbn.
        apply bool_decide_ext. lia.
      * f_equal. f_equal. cbn [length]. lia.
      * intros k' Hk'. by rewrite Hother, Hframe.
Qed.

(** X8.  The fixed window of the first version, on a key the map does not
    hold.  While the calls are checked no later than [windowMs] after the
    reading at which the first one created the counter, the call number
    [i] (from 0) is limited exactly when [limit <= i]: the first [limit]
    calls pass and the following ones are refused.  Refused calls are not
    counted, the window start stays the reading of the creation, and no
    other key is touched. *)
Theorem fixed_window_limit_then_reject (clk0 : FixedWindowJS.Clock)
    (clks : list FixedWindowJS.Clock) (key : option string) (limit windowMs : Z)
    (m : gmap (option string) FixedWindowJS.Data) :
  m !! key = None ->
  Forall (fun clk => FixedWindowJS.at_check clk - FixedWindowJS.at_create clk0 <= windowMs)
         (clk0 :: clks) ->
  let out := fixed_window_seq (clk0 :: clks) key limit windowMs m in
  out.1 = (fun i => bool_decide (limit <= Z.of_nat i)) <$> seq 0 (S (length clks))
  /\ out.2 !! key
     = Some {| FixedWindowJS.count :=
                 Z.max 0 (Z.min limit (Z.of_nat (S (length clks))));
               FixedWindowJS.lastReset := FixedWindowJS.at_create clk0 |}
  /\ forall k', k' <> key -> out.2 !! k' = m !! k'.
Proof.
  intros Hm Hclks out.
  set (d0 := {| FixedWindowJS.count := 0;
                FixedWindowJS.lastReset := FixedWindowJS.at_create clk0 |}).
  assert (Hsame : fixed_window_seq (clk0 :: clks) key limit windowMs m
                  = fixed_window_seq (clk0 :: clks) key limit windowMs (<[key := d0]> m)).
  { cbn [fixed_window_seq]. unfold FixedWindowJS.handleRateLimiting.
    rewrite Hm, lookup_insert_eq. fold d0. cbn zeta.
    by rewrite !insert_insert_eq. }
  unfold out. rewrite Hsame.
  destruct (fixed_window_seq_tracked (clk0 :: clks) key limit windowMs
              (<[key := d0]> m) d0 (lookup_insert_eq _ _ _) Hclks)
    as (Hv & Hd & Hother).
  cbn [FixedWindowJS.count FixedWindowJS.lastReset d0 length] in *.
  split; [|split].
  - rewrite Hv. apply list_fmap_ext. intros _ i _. apply bool_decide_ext. lia.
  - rewrite Hd. f_equal.
  - intros k' Hk'. rewrite Hother by done. by rewrite lookup_insert_ne.
Qed.

(** X9.  The fixed window of the first version starts over once a call is
    checked more than [windowMs] after the window start: whatever the
    count was, the call is limited only if [limit <= 0], and otherwise
    passes and leaves the count 1 with the window starting at the reading
    taken for the reset.  At exactly [windowMs] the window is still
    open. *)
Theorem fixed_window_expiry (clk : FixedWindowJS.Clock) (key : option string)
    (limit windowMs : Z) (m : gmap (option string) FixedWindowJS.Data)
    (d : FixedWindowJS.Data) :
  m !! key = Some d ->
  windowMs < FixedWindowJS.at_check clk - FixedWindowJS.lastReset d ->
  FixedWindowJS.handleRateLimiting clk key limit windowMs m
  = (bool_decide (limit <= 0),
     <[key := {| FixedWindowJS.count := if bool_decide (limit <= 0) then 0 else 1;
                 FixedWindowJS.lastReset := FixedWindowJS.at_reset clk |}]> m).
Proof.
  intros Hm Hlate. unfold FixedWindowJS.handleRateLimiting. rewrite Hm. cbn zeta.
  rewrite Z.gtb_ltb, (proj2 (Z.ltb_lt _ _)) by lia.
  cbn [FixedWindowJS.count FixedWindowJS.lastReset]. rewrite Z.geb_leb.
  case_bool_decide as Hl.
  - by rewrite (proj2 (Z.leb_le _ _)) by lia.
  - by rewrite (proj2 (Z.leb_gt _ _)) by lia.
Qed.

(** ** The sliding log *)

Lemma in_window_app now windowMs (l1 l2 : list Z) :
  in_window now windowMs (l1 ++ l2) = in_window now windowMs l1 ++ in_window now windowMs l2.
Proof. unfold in_window. induction l1 as [|t l1 IH]; cbn; [done|]. rewrite IH. by destruct (_ <? _). Qed.

Lemma in_window_later now now' windowMs (ts : list Z) :
  now <= now' ->
  in_window now' windowMs (in_window now windowMs ts) = in_window now' windowMs ts.
Proof.
  intros Hle. unfold in_window. induction ts as [|t ts IH]; cbn [List.filter]; [done|].
  destruct (now - t <? windowMs) eqn:H1; cbn [List.filter]; rewrite IH; [done|].
  apply Z.ltb_ge in H1. by rewrite (proj2 (Z.ltb_ge _ _)) by lia.
Qed.

Lemma in_window_length_later now now' windowMs (ts : list Z) :
  now <= now' ->
  (length (in_window now' windowMs ts) <= length (in_window now windowMs ts))%nat.
Proof.
  intros Hle. rewrite <- (in_window_later now now') by done.
  unfold in_window at 1. apply sublist_length, List_filter_sublist.
Qed.

Lemma handleRateLimiting_log now key limit windowMs (m : gmap string (list Z)) :
  let valid := in_window now windowMs (default [] (m !! key)) in
  SlidingLogJS.handleRateLimiting now key limit windowMs m
  = (limit <=? Z.of_nat (length valid),
     <[key := if limit <=? Z.of_nat (length valid) then valid else valid ++ [now]]> m).
Proof.
  cbn zeta. unfold SlidingLogJS.handleRateLimiting, in_window.
  destruct (m !! key) as [ts|] eqn:Hm; cbn zeta.
  - rewrite Hm. cbn [default from_option id]. rewrite Z.geb_leb.
    destruct (_ <=? _); by rewrite ?insert_insert_eq.
  - rewrite lookup_insert_eq. cbn [default from_option id]. rewrite Z.geb_leb.
    destruct (_ <=? _); by rewrite ?insert_insert_eq.
Qed.

Lemma sliding_log_run_snoc times now key limit windowMs (m : gmap string (list Z)) :
  sliding_log_run (times ++ [now]) key limit windowMs m
  = sliding_log_step key limit windowMs (sliding_log_run times key limit windowMs m) now.
Proof. unfold sliding_log_run. by rewrite foldl_app. Qed.

Lemma sliding_log_run_invariant times key limit windowMs (m : gmap string (list Z)) :
  m !! key = None ->
  StronglySorted Z.le times ->
  let st := sliding_log_run times key limit windowMs m in
  (forall now, Forall (fun t => t <= now) times ->
     in_window now windowMs (default [] (st.2 !! key)) = in_window now windowMs st.1)
  /\ (0 <= limit -> forall now, Forall (fun t => t <= now) times ->
        Z.of_nat (length (in_window now windowMs st.1)) <= limit)
  /\ (forall k, k <> key -> st.2 !! k = m !! k).
Proof.
  intros Hm. induction times as [|t0 times IH] using rev_ind; intros Hsorted; cbn zeta.
  - cbn. rewrite Hm. repeat split; intros; cbn; try done; lia.
  - apply StronglySorted_app in Hsorted as (Hle & Hsorted & _).
    specialize (IH Hsorted). cbn zeta in IH. destruct IH as (Hlog & Hbound & Hother).
    assert (Hpre : Forall (fun t => t <= t0) times).
    { apply Forall_forall. intros t Ht. apply (Hle t t0 Ht). by left. }
    rewrite sliding_log_run_snoc. unfold sliding_log_step.
    rewrite handleRateLimiting_log. cbn zeta.
    destruct (sliding_log_run times key limit windowMs m) as [adm m1]. cbn [fst snd] in *.
    rewrite (Hlog t0 Hpre).
    split; [|split].
    + intros now [Hnow Ht0]%Forall_app. rewrite Forall_singleton in Ht0.
      rewrite lookup_insert_eq. cbn [default from_option id].
      destruct (_ <=? _).
      * by rewrite in_window_later.
      * by rewrite !in_window_app, in_window_later.
    + intros Hl now [Hnow Ht0]%Forall_app. rewrite Forall_singleton in Ht0.
      destruct (_ <=? _) eqn:Hfull.
      * by apply Hbound.
      * apply Z.leb_gt in Hfull. rewrite in_window_app, length_app.
        pose proof (in_window_length_later t0 now windowMs adm Ht0).
        assert (length (in_window now windowMs [t0]) <= 1)%nat.
        { unfold in_window. cbn. destruct (_ <? _); cbn; lia. }
        lia.
    + intros k Hk. rewrite lookup_insert_ne by done. by apply Hother.
Qed.

(** X10.  The sliding log is a sliding window over the calls it let
    through.  On a key the map does not hold yet, with a clock that does
    not run backwards and the same limit and window at every call: a call
    is limited exactly when at least [limit] of the earlier calls that
    were let through are younger than [windowMs]; calls that were refused
    do not count.  So, for [0 <= limit], at no call do more than [limit]
    calls let through, this one included, lie within the last [windowMs]
    milliseconds. *)
Theorem sliding_log_window (times : list Z) (now : Z) (key : string)
    (limit windowMs : Z) (m : gmap string (list Z)) :
  m !! key = None ->
  StronglySorted Z.le (times ++ [now]) ->
  let before := sliding_log_run times key limit windowMs m in
  let after := sliding_log_run (times ++ [now]) key limit windowMs m in
  (SlidingLogJS.handleRateLimiting now key limit windowMs before.2).1
  = (limit <=? Z.of_nat (length (in_window now windowMs before.1)))
  /\ after.1 = (if limit <=? Z.of_nat (length (in_window now windowMs before.1))
                then before.1 else before.1 ++ [now])
  /\ (0 <= limit -> Z.of_nat (length (in_window now windowMs after.1)) <= limit).
Proof.
  intros Hm Hsorted before after.
  pose proof (sliding_log_run_invariant _ key limit windowMs m Hm Hsorted) as Hafter.
  pose proof Hsorted as (Hle & Hsorted' & _)%StronglySorted_app.
  pose proof (sliding_log_run_invariant _ key limit windowMs m Hm Hsorted') as Hbefore.
  assert (Hpre : Forall (fun t => t <= now) times).
  { apply Forall_forall. intros t Ht. apply (Hle t now Ht). by left. }
  cbn zeta in Hafter, Hbefore. fold before in Hbefore. fold after in Hafter.
  destruct Hbefore as (Hlog & _ & _). destruct Hafter as (_ & Hbound & _).
  assert (Hverdict : (SlidingLogJS.handleRateLimiting now key limit windowMs before.2).1
                     = (limit <=? Z.of_nat (length (in_window now windowMs before.1)))).
  { rewrite handleRateLimiting_log. cbn [fst]. by rewrite Hlog. }
  split; [done|]. split.
  - unfold after. rewrite sliding_log_run_snoc. fold before. unfold sliding_log_step.
    rewrite <- Hverdict.
    by destruct (SlidingLogJS.handleRateLimiting now key limit windowMs before.2) as [[] ?].
  - intros Hl. apply Hbound; [done|]. apply Forall_app. split; [done|].
    by apply Forall_singleton.
Qed.

(** ** The keys of the sliding log *)

(** X11.  The sliding log never forgets a key: after any calls, the map
    holds exactly the keys it held before and the keys of the calls,
    whether they were let through or refused and however long ago. *)
Theorem sliding_log_keys_grow (cs : list SlidingLogJS.Call) (m : gmap string (list Z))
    (k : string) :
  is_Some (SlidingLogJS.run_calls cs m !! k)
  <-> is_Some (m !! k) \/ exists c, c ∈ cs /\ SlidingLogJS.call_key c = k.
Proof.
  revert k. induction cs as [|c cs IH] using rev_ind; intros k.
  - cbn. split; [by left|]. intros [H|(c & Hc & _)]; [done|]. by apply elem_of_nil in Hc.
  - unfold SlidingLogJS.run_calls. rewrite foldl_app. cbn [foldl].
    fold (SlidingLogJS.run_calls cs m). unfold SlidingLogJS.apply_call.
    destruct (decide (k = SlidingLogJS.call_key c)) as [->|Hne].
    + split.
      * intros _. right. exists c. split; [|done]. apply elem_of_app. right. by left.
      * intros _. rewrite handleRateLimiting_log. cbn [snd]. by rewrite lookup_insert_eq.
    + rewrite handleRateLimiting_lookup by done. rewrite IH. split.
      * intros [H|(c' & Hc' & Hk)]; [by left|]. right. exists c'.
        split; [|done]. apply elem_of_app. by left.
      * intros [H|(c' & Hc' & Hk)]; [by left|]. right. exists c'. split; [|done].
        apply elem_of_app in Hc' as [Hc'|Hc']; [done|].
        apply list_elem_of_singleton in Hc'. by subst c'.
Qed.

(** ** The last version of [rateLimit] *)

(** X12.  A client that sends neither a forwarding header nor a session
    cookie is never limited by the last version: the address check is
    skipped, and the session check runs on the identifier just minted,
    which the map does not hold.  For a positive session limit the call
    returns [null], whatever the map has counted, and only the new
    identifier enters the map. *)
Theorem anonymous_client_is_never_limited (now_ip now_session : Z) (uuid : string)
    (request : Request) (cookie : option string)
    (sessionLimit ipLimit windowMs : option Z) (m : gmap string (list Z)) :
  str_truthy (MiddlewareJS.address_key request) = false ->
  str_truthy cookie = false ->
  m !! uuid = None ->
  0 < default 30 sessionLimit ->
  MiddlewareJS.rateLimit now_ip now_session uuid request cookie
    sessionLimit ipLimit windowMs m
  = ({| MiddlewareJS.returned := None; MiddlewareJS.set_cookie := Some uuid;
        MiddlewareJS.warned := None |},
     <[uuid := [now_session]]> m).
Proof.
  intros Hip Hcookie Hfresh Hlimit. unfold MiddlewareJS.rateLimit. cbn zeta.
  unfold MiddlewareJS.session_id, MiddlewareJS.minted_cookie. rewrite Hcookie, Hip.
  assert (Hskip : match MiddlewareJS.address_key request with
                  | Some _ => (false, m) | None => (false, m) end = (false, m))
    by (by destruct (MiddlewareJS.address_key request)).
  rewrite Hskip. rewrite handleRateLimiting_log. cbn zeta.
  rewrite Hfresh. cbn [default from_option id in_window List.filter length].
  by rewrite (proj2 (Z.leb_gt _ _)) by lia.
Qed.

(** X13.  In the last version a request refused on its session has
    already been counted against its address.  When the address, a string
    other than the session identifier, passes its check and the session
    identifier is over its limit, the call returns the 429 response, the
    log of the address has gained the reading of this call, and the log
    of the session holds what was still in the window. *)
Theorem session_refusal_counts_against_address (now_ip now_session : Z) (uuid : string)
    (request : Request) (cookie : option string)
    (sessionLimit ipLimit windowMs : option Z) (m : gmap string (list Z))
    (address : string) :
  let window := default (15 * 1000) windowMs in
  let sessionId := MiddlewareJS.session_id cookie uuid in
  MiddlewareJS.address_key request = Some address ->
  address <> EmptyString ->
  address <> sessionId ->
  Z.of_nat (length (in_window now_ip window (default [] (m !! address))))
    < default 300 ipLimit ->
  default 30 sessionLimit
    <= Z.of_nat (length (in_window now_session window (default [] (m !! sessionId)))) ->
  let out := MiddlewareJS.rateLimit now_ip now_session uuid request cookie
               sessionLimit ipLimit windowMs m in
  MiddlewareJS.returned out.1 = Some MiddlewareJS.too_many_requests
  /\ MiddlewareJS.warned out.1
     = Some ("Rate limit exceeded for session ID: " +:+ sessionId)
  /\ out.2 !! address
     = Some (in_window now_ip window (default [] (m !! address)) ++ [now_ip])
  /\ out.2 !! sessionId
     = Some (in_window now_session window (default [] (m !! sessionId)))
  /\ forall k, k <> address -> k <> sessionId -> out.2 !! k = m !! k.
Proof.
  intros window sessionId Hip Hne Hdistinct Hpass Hfull out.
  unfold out, MiddlewareJS.rateLimit. cbn zeta.
  fold window sessionId. rewrite Hip. cbn [str_truthy default from_option id].
  rewrite bool_decide_eq_false_2 by done. cbn [negb].
  rewrite !handleRateLimiting_log. cbn zeta.
  rewrite (proj2 (Z.leb_gt _ _)) by lia.
  rewrite lookup_insert_ne by done.
  rewrite (proj2 (Z.leb_le _ _)) by lia. cbn [fst snd MiddlewareJS.returned
    MiddlewareJS.warned].
  split; [done|]. split; [done|]. split; [|split].
  - by rewrite lookup_insert_ne, lookup_insert_eq by done.
  - by rewrite lookup_insert_eq.
  - intros k Hk1 Hk2. by rewrite !lookup_insert_ne by done.
Qed.

(** ** The fourth version *)

Lemma split_first sep e rest :
  contains sep e = false -> split sep (e +:+ String sep rest) = e :: split sep rest.
Proof.
  induction e as [|c e IH]; cbn [contains].
  - intros _. change (EmptyString +:+ String sep rest) with (String sep rest).
    cbn [split]. by rewrite bool_decide_eq_true_2.
  - intros [Hc He]%orb_false_iff.
    change (String c e +:+ String sep rest) with (String c (e +:+ String sep rest)).
    cbn [split]. rewrite Hc. by rewrite IH.
Qed.

(** X14.  The address key of the fourth version is the text of the
    [x-forwarded-for] header before its first comma, as it is written
    (not trimmed), and ["127.0.0.1"] when the header is missing or that
    text is empty.  It is never empty, so in this version every client
    without the header shares the key ["127.0.0.1"]. *)
Theorem address_key_leftmost (request : Request) :
  UpstashJS.address_key request <> EmptyString
  /\ (request_headers request !! "x-forwarded-for"%string = None ->
      UpstashJS.address_key request = "127.0.0.1"%string)
  /\ (forall e rest,
        contains ","%char e = false ->
        request_headers request !! "x-forwarded-for"%string = Some e
        \/ request_headers request !! "x-forwarded-for"%string
           = Some (e +:+ String ","%char rest) ->
        UpstashJS.address_key request
        = if bool_decide (e = EmptyString) then "127.0.0.1"%string else e).
Proof.
  unfold UpstashJS.address_key. split; [|split].
  - destruct (_ ≫= _) as [s|]; [|done]. unfold or_else. cbn [str_truthy].
    destruct (bool_decide (s = EmptyString)) eqn:Hs; cbn [negb default from_option id];
      [done|]. by apply bool_decide_eq_false in Hs.
  - by intros ->.
  - intros e rest He Hxff.
    assert (Hhead : request_headers request !! "x-forwarded-for"%string
                      ≫= (fun xff => head (split ","%char xff)) = Some e).
    { destruct Hxff as [-> | ->]; cbn [mbind option_bind].
      - by rewrite split_no_sep.
      - by rewrite split_first. }
    rewrite Hhead. unfold or_else. cbn [str_truthy].
    by destruct (bool_decide (e = EmptyString)).
Qed.

Lemma UpstashJS_JSON_stringify_numbers (c c' : UpstashJS.Config) :
  UpstashJS.JSON_stringify (Some c) = UpstashJS.JSON_stringify (Some c') ->
  UpstashJS.c_sessionLimit c = UpstashJS.c_sessionLimit c'
  /\ UpstashJS.c_sessionWindow c = UpstashJS.c_sessionWindow c'
  /\ UpstashJS.c_ipLimit c = UpstashJS.c_ipLimit c'
  /\ UpstashJS.c_ipWindow c = UpstashJS.c_ipWindow c'.
Proof.
  unfold UpstashJS.JSON_stringify, json_object, json_member. cbn [String.concat].
  rewrite !append_assoc. intros H.
  apply (inj (String.append "{")), (inj (String.append (json_quote "sessionLimit"))),
    (inj (String.append ":")) in H.
  apply append_sep_cancel in H as [H1 H]; [|apply contains_comma_pretty..].
  apply (inj (String.append (json_quote "sessionWindow"))), (inj (String.append ":")) in H.
  apply append_sep_cancel in H as [H2 H]; [|apply contains_comma_pretty..].
  apply (inj (String.append (json_quote "ipLimit"))), (inj (String.append ":")) in H.
  apply append_sep_cancel in H as [H3 H]; [|apply contains_comma_pretty..].
  apply (inj (String.append (json_quote "ipWindow"))), (inj (String.append ":")) in H.
  apply append_sep_cancel in H as [H4 H]; [|apply contains_comma_pretty..].
  repeat split; by apply (inj pretty).
Qed.

Lemma initialize_clients (env : Env) (o : UpstashJS.RateLimitOptions) (w : UpstashJS.World) :
  clients_of_config w ->
  let w1 := UpstashJS.initialize (upstash_config env o) w in
  clients_of_config w1
  /\ UpstashJS.rateLimitMap w1 = UpstashJS.rateLimitMap w
  /\ UpstashJS.upstash_calls w1 = UpstashJS.upstash_calls w
  /\ exists r,
       UpstashJS.sessionRatelimit w1
       = Some (UpstashJS.new_Ratelimit r (default 20 (UpstashJS.o_sessionLimit o))
                 (default 10 (UpstashJS.o_sessionWindow o)) JUndefined)
       /\ UpstashJS.ipRatelimit w1
          = Some (UpstashJS.new_Ratelimit r (default 100 (UpstashJS.o_ipLimit o))
                    (default 10 (UpstashJS.o_ipWindow o)) JUndefined).
Proof.
  intros Hw. cbn zeta. unfold UpstashJS.initialize.
  assert (Hanalytics : prop_get "analytics" (UpstashJS.c_upstash (upstash_config env o))
                       = JUndefined).
  { cbn [upstash_config UpstashJS.c_upstash prop_get].
    by rewrite !bool_decide_eq_false_2 by done. }
  rewrite Hanalytics.
  destruct (negb _ || _) eqn:Hrebuild.
  - cbn [UpstashJS.rateLimitMap UpstashJS.upstash_calls UpstashJS.sessionRatelimit
         UpstashJS.ipRatelimit]. split; [|split; [done|split; [done|]]].
    + unfold clients_of_config. cbn [UpstashJS.redis UpstashJS.currentConfig
        UpstashJS.sessionRatelimit UpstashJS.ipRatelimit]. by eexists.
    + by eexists.
  - apply orb_false_iff in Hrebuild as [Hredis Hjson].
    apply negb_false_iff, bool_decide_eq_true in Hredis as [r Hr].
    apply bool_decide_eq_false in Hjson. apply dec_stable in Hjson.
    split; [done|]. split; [done|]. split; [done|].
    unfold clients_of_config in Hw. rewrite Hr in Hw.
    destruct Hw as (config & Hcur & Hs & Hi). rewrite Hcur in Hjson.
    apply UpstashJS_JSON_stringify_numbers in Hjson as (H1 & H2 & H3 & H4).
    cbn [upstash_config UpstashJS.c_sessionLimit UpstashJS.c_sessionWindow
         UpstashJS.c_ipLimit UpstashJS.c_ipWindow] in H1, H2, H3, H4.
    exists r. by rewrite Hs, Hi, <- H1, <- H2, <- H3, <- H4.
Qed.

Lemma rateLimit_clients_of_config env backend now_ip now_session uuid
    (o : UpstashJS.RateLimitOptions) (w : UpstashJS.World) :
  clients_of_config w ->
  clients_of_config (UpstashJS.rateLimit env backend now_ip now_session uuid o w).2.
Proof.
  intros Hw. unfold UpstashJS.rateLimit. cbn zeta.
  fold (upstash_config env o).
  destruct (upstash_active _).
  - destruct (initialize_clients env o w Hw) as (Hw1 & _ & _ & r & Hs & Hi).
    cbn zeta in *. rewrite Hs.
    destruct (backend _ _) as [rs|msg]; [|done].
    destruct (negb (up_success rs)); [done|].
    cbn [UpstashJS.ipRatelimit UpstashJS.log_upstash_call]. rewrite Hi.
    destruct (backend _ _) as [ri|msg]; [|done].
    by destruct (negb (up_success ri)).
  - destruct (if negb _ then _ else _) as [[] m1]; [done|].
    by destruct (SlidingLogJS.handleRateLimiting _ _ _ _ m1) as [[] m2].
Qed.

Lemma reachable_clients_of_config (w : UpstashJS.World) :
  UpstashJS.reachable w -> clients_of_config w.
Proof.
  induction 1 as [|env backend now_ip now_session uuid o w _ IH]; [done|].
  by apply rateLimit_clients_of_config.
Qed.

(** X15.  In the fourth version the Upstash clients in use after a call
    enforce the limits and windows of that call, whatever calls came
    before, and the [analytics] option never reaches them: both clients
    are built over one connection as sliding windows of the call's
    ([sessionLimit], [sessionWindow]) and ([ipLimit], [ipWindow]), with
    [analytics] undefined. *)
Theorem upstash_clients_follow_the_call (env : Env) (backend : Backend)
    (now_ip now_session : Z) (uuid : string) (o : UpstashJS.RateLimitOptions)
    (w : UpstashJS.World) :
  UpstashJS.reachable w ->
  upstash_active (with_env env (default [] (UpstashJS.o_upstash o))) = true ->
  let w' := (UpstashJS.rateLimit env backend now_ip now_session uuid o w).2 in
  exists r,
    UpstashJS.sessionRatelimit w'
    = Some {| rl_redis := r;
              limiter := slidingWindow (default 20 (UpstashJS.o_sessionLimit o))
                           (duration (default 10 (UpstashJS.o_sessionWindow o)));
              analytics := JUndefined |}
    /\ UpstashJS.ipRatelimit w'
       = Some {| rl_redis := r;
                 limiter := slidingWindow (default 100 (UpstashJS.o_ipLimit o))
                              (duration (default 10 (UpstashJS.o_ipWindow o)));
                 analytics := JUndefined |}.
Proof.
  intros Hw%reachable_clients_of_config Hon. cbn zeta.
  unfold UpstashJS.rateLimit. cbn zeta. fold (upstash_config env o). rewrite Hon.
  destruct (initialize_clients env o w Hw) as (_ & _ & _ & r & Hs & Hi).
  cbn zeta in *. rewrite Hs. exists r.
  destruct (backend _ _) as [rs|msg]; [|done].
  destruct (negb (up_success rs)); [done|].
  cbn [UpstashJS.ipRatelimit UpstashJS.log_upstash_call]. rewrite Hi.
  destruct (backend _ _) as [ri|msg]; [|done].
  by destruct (negb (up_success ri)).
Qed.


(** ** The sliding log within one window *)

Lemma in_window_all now windowMs (ts : list Z) :
  Forall (fun t => now - t < windowMs) ts -> in_window now windowMs ts = ts.
Proof.
  unfold in_window. induction 1 as [|t ts Ht _ IH]; cbn [List.filter]; [done|].
  by rewrite (proj2 (Z.ltb_lt _ _)), IH.
Qed.

(** X20.  The sliding log on a key the map does not hold, with a clock
    that does not run backwards: while the calls come less than
    [windowMs] after the first one, the calls let through are exactly the
    first [limit] of them, and every later one is refused. *)
Theorem sliding_log_limit_then_reject (t0 : Z) (times : list Z) (key : string)
    (limit windowMs : Z) (m : gmap string (list Z)) :
  m !! key = None ->
  StronglySorted Z.le (t0 :: times) ->
  Forall (fun t => t - t0 < windowMs) (t0 :: times) ->
  0 <= limit ->
  (sliding_log_run (t0 :: times) key limit windowMs m).1
  = take (Z.to_nat limit) (t0 :: times).
Proof.
  intros Hm Hsorted Hwindow Hlimit.
  assert (Hgen : forall l, l `prefix_of` (t0 :: times) ->
            (sliding_log_run l key limit windowMs m).1 = take (Z.to_nat limit) l).
  { induction l as [|now l IH] using rev_ind; intros Hprefix; [by rewrite take_nil|].
    assert (Hpre : l `prefix_of` (t0 :: times))
      by (etrans; [apply prefix_app_r; reflexivity | exact Hprefix]).
    specialize (IH Hpre).
    destruct Hprefix as [rest Hrest].
    assert (Hsorted' : StronglySorted Z.le (l ++ [now])).
    { rewrite Hrest in Hsorted. by apply StronglySorted_app_1_l in Hsorted. }
    pose proof Hsorted' as (Hle & Hsl & _)%StronglySorted_app.
    destruct (sliding_log_run_invariant l key limit windowMs m Hm Hsl)
      as (Hlog & _ & _).
    assert (Hbefore : Forall (fun t => t <= now) l).
    { apply Forall_forall. intros t Ht. apply (Hle t now Ht). by left. }
    assert (Hyoung : Forall (fun t => now - t < windowMs) l).
    { apply Forall_forall. intros t Ht.
      assert (Hnow : now ∈ t0 :: times).
      { rewrite Hrest, !elem_of_app, list_elem_of_singleton. by left; right. }
      assert (Ht' : t ∈ t0 :: times).
      { rewrite Hrest, !elem_of_app. by left; left. }
      rewrite Forall_forall in Hwindow. pose proof (Hwindow now Hnow).
      apply StronglySorted_cons in Hsorted as [Hfirst _].
      rewrite Forall_forall in Hfirst.
      assert (t0 <= t).
      { apply elem_of_cons in Ht' as [->|Ht']; [lia | by apply Hfirst]. }
      lia. }
    rewrite sliding_log_run_snoc. unfold sliding_log_step.
    rewrite handleRateLimiting_log. cbn zeta.
    rewrite (Hlog now Hbefore), IH.
    rewrite in_window_all
      by (eapply Forall_forall; intros t Ht%elem_of_take;
          destruct Ht as (i & Ht & _); rewrite Forall_forall in Hyoung;
          apply Hyoung; by eapply list_elem_of_lookup_2).
    rewrite length_take. cbn [fst].
    destruct (limit <=? _) eqn:Hfull.
    - apply Z.leb_le in Hfull. rewrite take_app_le by lia. done.
    - apply Z.leb_gt in Hfull.
      rewrite take_ge by lia. rewrite take_ge by (rewrite length_app; cbn; lia). done. }
  by apply Hgen.
Qed.

(** ** A shared refusal is remembered locally *)

Lemma initialize_settled config w w1 :
  initialize config w = (Return (), w1) ->
  JSON_stringify (Some config) = JSON_stringify (currentConfig w1).
Proof.
  unfold initialize. case_bool_decide as Hdiff.
  - destruct (LRU.create _ _) as [cache|msg]; [|done].
    by destruct (upstash_active _); intros [= <-].
  - by intros [= <-].
Qed.

Lemma initialize_noop config w :
  JSON_stringify (Some config) = JSON_stringify (currentConfig w) ->
  initialize config w = (Return (), w).
Proof. intros H. unfold initialize. by rewrite bool_decide_eq_false_2 by tauto. Qed.

Lemma rateLimit_unfold_rejected env backend now later o w w1 cache :
  has_identity o = true ->
  initialize (call_config env o) w = (Return (), w1) ->
  tokenCache w1 = Some cache ->
  chk_success (checkRateLimit now (call_identifier o) (call_limit o)
                 (call_window o) cache).1 = false ->
  rateLimit env backend now later o w
  = (Return (local_response (opt_response o) (call_limit o)
               (checkRateLimit now (call_identifier o) (call_limit o)
                  (call_window o) cache).1),
     set_tokenCache (checkRateLimit now (call_identifier o) (call_limit o)
                       (call_window o) cache).2 w1).
Proof.
  intros Hid Hinit Hcache Hrej. unfold rateLimit. rewrite has_identity_guard, Hid.
  cbn [negb].
  fold (call_limit o) (call_window o) (call_upstash env o) (call_config env o)
       (call_identifier o).
  rewrite Hinit, Hcache.
  destruct (checkRateLimit now (call_identifier o) (call_limit o) (call_window o) cache)
    as [local cache1].
  cbn [fst snd] in *. unfold local_response. by rewrite Hrej.
Qed.

(** X19.  An Upstash answer that leaves nothing is remembered by the local
    counter.  After a call that Upstash answered with [remaining <= 0], the
    next call with the same options, while the entry written back lives
    (its age runs from the write-back and its lifetime is the [ttl] of the
    cache), is refused by the local counter alone: it returns
    [success = false], [remaining = 0] and the 429 response, and sends
    nothing to Upstash, whatever Upstash would answer by then. *)
Theorem upstash_exhaustion_is_cached (env : Env) (backend backend' : Backend)
    (now later now' later' : Z) (o : RateLimitOptions) (w : World)
    (local : CheckResult) (client : Ratelimit) (u : UpstashResult) :
  local_verdict env now o w = Some local ->
  chk_success local = true ->
  upstash_active (call_upstash env o) = true ->
  client_in_use env o w = Some client ->
  backend client (call_identifier o) = Return u ->
  up_remaining u <= 0 ->
  let w' := (rateLimit env backend now later o w).2 in
  (forall cache', tokenCache w' = Some cache' -> now' - later <= LRU.ttl cache') ->
  exists resp w'',
    rateLimit env backend' now' later' o w'
    = (Return {| success := false; remaining := 0;
                 reset_at := ceil1000 (Z.max (chk_reset local) (ceil1000 (up_reset u)));
                 rateLimitedResponse := Some resp; pending := None |}, w'')
    /\ status resp = 429
    /\ upstash_calls w'' = upstash_calls w'.
Proof.
  intros (Hid & w1 & cache & Hinit & Hcache & ->)%local_verdict_inv Hok Hon Hclient
         Hanswer Hnone.
  unfold client_in_use in Hclient. rewrite Hinit in Hclient. cbn [snd] in Hclient.
  rewrite (rateLimit_unfold_shared _ _ _ _ _ _ _ _ _ Hid Hon Hinit Hcache Hclient Hok).
  rewrite Hanswer. cbn zeta.
  set (local := (checkRateLimit now (call_identifier o) (call_limit o)
                   (call_window o) cache).1) in *.
  set (cache1 := (checkRateLimit now (call_identifier o) (call_limit o)
                    (call_window o) cache).2).
  set (remaining_ := Z.min (chk_remaining local) (up_remaining u)).
  set (reset_ := Z.max (chk_reset local) (ceil1000 (up_reset u))).
  set (d := {| count := call_limit o - remaining_; reset := reset_ |}).
  set (cache' := LRU.set later (call_identifier o) d cache1).
  cbn [snd]. intros Hlive. specialize (Hlive cache' eq_refl).
  set (w' := set_tokenCache cache' _).
  assert (Hinit' : initialize (call_config env o) w' = (Return (), w')).
  { apply initialize_noop. apply initialize_settled in Hinit. exact Hinit. }
  assert (Hfind : LRU.find (call_identifier o) (LRU.items cache')
                  = Some (LRU.Slot (call_identifier o) d later)).
  { unfold cache', LRU.set. destruct (LRU.find _ (LRU.items cache1));
      cbn [LRU.items LRU.with_items]; unfold LRU.find; cbn [List.find];
      unfold LRU.has_key; cbn [LRU.s_key]; by rewrite bool_decide_eq_true_2. }
  assert (Hcheck : (checkRateLimit now' (call_identifier o) (call_limit o)
                      (call_window o) cache').1
                   = {| chk_success := false; chk_remaining := 0;
                        chk_reset := ceil1000 reset_ |}).
  { rewrite (checkRateLimit_live now' _ _ _ _ _ Hfind).
    - cbn [fst LRU.s_val d count reset]. unfold result_of_count.
      by rewrite (proj2 (Z.leb_gt _ _)) by (unfold remaining_; lia).
    - unfold LRU.isStale. cbn [LRU.s_start]. apply andb_false_iff. right.
      apply Z.ltb_ge. lia. }
  rewrite (rateLimit_unfold_rejected env backend' now' later' o w' w' cache' Hid Hinit'
             eq_refl) by (by rewrite Hcheck).
  rewrite Hcheck. unfold local_response. cbn [chk_success chk_remaining chk_reset].
  eexists _, _. split; [reflexivity|]. split; [done|].
  by destruct (up_success u).
Qed.

(** ** The further properties on the sample inputs *)

Lemma rateLimit_seq_limit_then_reject_witness :
  has_identity opts_local = true
  /\ upstash_active (call_upstash env0 opts_local) = false
  /\ 0 < call_limit opts_local
  /\ 0 < call_window opts_local
  /\ JSON_stringify (Some (call_config env0 opts_local))
     <> JSON_stringify (currentConfig initial_world)
  /\ length times_in_window = Z.to_nat (call_limit opts_local)
  /\ Forall (fun tl => tl.1 - 1000 <= call_window opts_local * 1000) times_in_window
  /\ (rateLimit_seq env0 backend_refuses ((1000, 1001) :: times_in_window)
        opts_local initial_world).1
     = ((fun n => Return {| success := true; remaining := call_limit opts_local - n;
                            reset_at := ceil1000 (1000 + call_window opts_local);
                            rateLimitedResponse := None; pending := None |})
          <$> seqZ 1 (call_limit opts_local))
       ++ [ Return {| success := false; remaining := 0;
                      reset_at := ceil1000 (1000 + call_window opts_local);
                      rateLimitedResponse :=
                        Some (tag_remaining_reset 0
                                (ceil1000 (1000 + call_window opts_local))
                                (new_rateLimitedResponse (opt_response opts_local)
                                   (call_limit opts_local)));
                      pending := None |} ].
Proof.
  assert (H1 : has_identity opts_local = true) by reflexivity.
  assert (H2 : upstash_active (call_upstash env0 opts_local) = false) by reflexivity.
  assert (H3 : 0 < call_limit opts_local) by reflexivity.
  assert (H4 : 0 < call_window opts_local) by reflexivity.
  assert (H5 : JSON_stringify (Some (call_config env0 opts_local))
               <> JSON_stringify (currentConfig initial_world))
    by (intros H; vm_compute in H; discriminate H).
  assert (H6 : length times_in_window = Z.to_nat (call_limit opts_local)) by reflexivity.
  assert (H7 : Forall (fun tl => tl.1 - 1000 <= call_window opts_local * 1000)
                 times_in_window)
    by (repeat constructor; vm_compute; discriminate).
  exact (conj H1 (conj H2 (conj H3 (conj H4 (conj H5 (conj H6 (conj H7
           (rateLimit_seq_limit_then_reject env0 backend_refuses opts_local
              initial_world 1000 1001 times_in_window H1 H2 H3 H4 H5 H6 H7)))))))).
Defined.

Lemma rateLimit_local_mode_witness :
  upstash_active (call_upstash env0 opts_local) = false
  /\ local_verdict env0 2000 opts_local world_local
     = Some {| chk_success := true; chk_remaining := 3; chk_reset := 2 |}
  /\ exists w',
       rateLimit env0 backend_refuses 2000 2001 opts_local world_local
       = (Return (local_response (opt_response opts_local) (call_limit opts_local)
                    {| chk_success := true; chk_remaining := 3; chk_reset := 2 |}), w')
       /\ upstash_calls w' = upstash_calls world_local
       /\ redis w' = redis world_local
       /\ ratelimit w' = ratelimit world_local.
Proof.
  exact (conj eq_refl (conj eq_refl
           (rateLimit_local_mode env0 backend_refuses 2000 2001 opts_local world_local
              {| chk_success := true; chk_remaining := 3; chk_reset := 2 |}
              eq_refl eq_refl))).
Defined.

Lemma rateLimit_upstash_failure_propagates_witness :
  local_verdict env0 2000 opts_shared world_shared
  = Some {| chk_success := true; chk_remaining := 0; chk_reset := 1700001 |}
  /\ upstash_active (call_upstash env0 opts_shared) = true
  /\ client_in_use env0 opts_shared world_shared
     = Some (new_Ratelimit (call_config env0 opts_shared)
               {| redis_url := JStr "https://example.upstash.io";
                  redis_token := JStr "secret" |})
  /\ backend_fails
       (new_Ratelimit (call_config env0 opts_shared)
          {| redis_url := JStr "https://example.upstash.io";
             redis_token := JStr "secret" |})
       (call_identifier opts_shared)
     = Throw "fetch failed"
  /\ exists w' cache,
       rateLimit env0 backend_fails 2000 2050 opts_shared world_shared
       = (Throw "fetch failed", w')
       /\ upstash_calls w'
          = upstash_calls world_shared
            ++ [(new_Ratelimit (call_config env0 opts_shared)
                   {| redis_url := JStr "https://example.upstash.io";
                      redis_token := JStr "secret" |}, call_identifier opts_shared)]
       /\ tokenCache (initialize (call_config env0 opts_shared) world_shared).2
          = Some cache
       /\ tokenCache w'
          = Some (checkRateLimit 2000 (call_identifier opts_shared)
                    (call_limit opts_shared) (call_window opts_shared) cache).2.
Proof.
  exact (conj eq_refl (conj eq_refl (conj eq_refl (conj eq_refl
           (rateLimit_upstash_failure_propagates env0 backend_fails 2000 2050
              opts_shared world_shared
              {| chk_success := true; chk_remaining := 0; chk_reset := 1700001 |}
              (new_Ratelimit (call_config env0 opts_shared)
                 {| redis_url := JStr "https://example.upstash.io";
                    redis_token := JStr "secret" |})
              "fetch failed" eq_refl eq_refl eq_refl eq_refl eq_refl))))).
Defined.

Lemma rateLimit_write_back_witness :
  local_verdict env0 1000 opts_shared initial_world
  = Some {| chk_success := true; chk_remaining := 1; chk_reset := 2 |}
  /\ upstash_active (call_upstash env0 opts_shared) = true
  /\ client_in_use env0 opts_shared initial_world
     = Some (new_Ratelimit (call_config env0 opts_shared)
               {| redis_url := JStr "https://example.upstash.io";
                  redis_token := JStr "secret" |})
  /\ exists r w' cache',
       rateLimit env0 backend_allows 1000 1050 opts_shared initial_world = (Return r, w')
       /\ tokenCache w' = Some cache'
       /\ LRU.find (call_identifier opts_shared) (LRU.items cache')
          = Some (LRU.Slot (call_identifier opts_shared)
                    {| count := call_limit opts_shared - remaining r;
                       reset := reset_at r |} 1050)
       /\ call_limit opts_shared - 1 <= call_limit opts_shared - remaining r
       /\ forall t,
            t - 1050 <= LRU.ttl cache' ->
            (checkRateLimit t (call_identifier opts_shared) (call_limit opts_shared)
               (call_window opts_shared) cache').1
            = {| chk_success :=
                   call_limit opts_shared - remaining r + 1 <=? call_limit opts_shared;
                 chk_remaining :=
                   if call_limit opts_shared - remaining r + 1 <=? call_limit opts_shared
                   then remaining r - 1 else 0;
                 chk_reset := ceil1000 (reset_at r) |}.
Proof.
  exact (conj eq_refl (conj eq_refl (conj eq_refl
           (rateLimit_write_back env0 backend_allows 1000 1050 opts_shared initial_world
              {| chk_success := true; chk_remaining := 1; chk_reset := 2 |}
              (new_Ratelimit (call_config env0 opts_shared)
                 {| redis_url := JStr "https://example.upstash.io";
                    redis_token := JStr "secret" |})
              {| up_success := true; up_remaining := 100;
                 up_reset := 1700000012345; up_pending := 0%nat |}
              eq_refl eq_refl eq_refl eq_refl eq_refl)))).
Defined.

Lemma checkRateLimit_frame_witness :
  "a"%string <> "c"%string
  /\ (forall s,
        LRU.find "a" (LRU.items (checkRateLimit 1200 "c" 2 10 cache_full).2) = Some s ->
        LRU.find "a" (LRU.items cache_full) = Some s)
  /\ (forall s,
        LRU.find "a" (LRU.items cache_full) = Some s ->
        LRU.find "a" (LRU.items (checkRateLimit 1200 "c" 2 10 cache_full).2) = None ->
        LRU.peek 1200 "c" cache_full = None
        /\ Z.of_nat (length (LRU.remove "c" (LRU.items cache_full))) = LRU.max cache_full
        /\ last (LRU.remove "c" (LRU.items cache_full)) = Some s).
Proof.
  assert (H : "a"%string <> "c"%string) by discriminate.
  exact (conj H (checkRateLimit_frame 1200 "c" "a" 2 10 cache_full H)).
Defined.

Lemma rateLimit_429_headers_witness :
  local_verdict env0 2000 opts_cors world_cors_spent
  = Some {| chk_success := false; chk_remaining := 0; chk_reset := 2 |}
  /\ exists resp w',
       rateLimit env0 backend_allows 2000 2001 opts_cors world_cors_spent
       = (Return {| success := false; remaining := 0; reset_at := 2;
                    rateLimitedResponse := Some resp; pending := None |}, w')
       /\ status resp = 429
       /\ body resp = json_object [json_member "message" (json_quote "Too Many Requests")]
       /\ response_headers resp !! "x-ratelimit-limit"%string
          = Some (pretty (call_limit opts_cors))
       /\ response_headers resp !! "x-ratelimit-remaining"%string = Some "0"%string
       /\ response_headers resp !! "x-ratelimit-reset"%string = Some (pretty 2)
       /\ response_headers resp !! "content-type"%string = Some "application/json"%string
       /\ (forall name, startsWith "access-control-" name = true ->
                        response_headers resp !! name
                        = default ∅ (opt_response opts_cors) !! name)
       /\ (forall name, startsWith "access-control-" name = false ->
                        name ∉ ["x-ratelimit-limit"; "x-ratelimit-remaining";
                                "x-ratelimit-reset"; "content-type"]%string ->
                        response_headers resp !! name = None).
Proof.
  exact (conj eq_refl
           (rateLimit_429_headers env0 backend_allows 2000 2001 opts_cors
              world_cors_spent
              {| chk_success := false; chk_remaining := 0; chk_reset := 2 |}
              eq_refl eq_refl)).
Defined.

Lemma rateLimit_changed_limit_starts_afresh_witness :
  has_identity opts_local_two = true
  /\ upstash_active (call_upstash env0 opts_local_two) = false
  /\ currentConfig world_local = Some (call_config env0 opts_local)
  /\ (cfg_limit (call_config env0 opts_local) <> call_limit opts_local_two
      \/ cfg_window (call_config env0 opts_local) <> call_window opts_local_two)
  /\ 0 < call_limit opts_local_two
  /\ 0 <= call_window opts_local_two
  /\ exists w',
       rateLimit env0 backend_allows 2000 2001 opts_local_two world_local
       = (Return {| success := true; remaining := call_limit opts_local_two - 1;
                    reset_at := ceil1000 (2000 + call_window opts_local_two);
                    rateLimitedResponse := None; pending := None |}, w')
       /\ LRU.items <$> tokenCache w'
          = Some [LRU.Slot (call_identifier opts_local_two)
                    {| count := 1; reset := 2000 + call_window opts_local_two |} 2000].
Proof.
  assert (H4 : cfg_limit (call_config env0 opts_local) <> call_limit opts_local_two
               \/ cfg_window (call_config env0 opts_local) <> call_window opts_local_two)
    by (left; discriminate).
  assert (H6 : 0 <= call_window opts_local_two) by discriminate.
  exact (conj eq_refl (conj eq_refl (conj eq_refl (conj H4 (conj eq_refl (conj H6
           (rateLimit_changed_limit_starts_afresh env0 backend_allows 2000 2001
              opts_local_two world_local (call_config env0 opts_local)
              eq_refl eq_refl eq_refl H4 eq_refl H6))))))).
Defined.

Lemma fixed_window_limit_then_reject_witness :
  (∅ : gmap (option string) FixedWindowJS.Data) !! Some "a"%string = None
  /\ Forall (fun clk => FixedWindowJS.at_check clk
                        - FixedWindowJS.at_create (clock_at 1000) <= 15000)
            [clock_at 1000; clock_at 2000; clock_at 16000]
  /\ let out := fixed_window_seq [clock_at 1000; clock_at 2000; clock_at 16000]
                  (Some "a"%string) 2 15000 ∅ in
     out.1 = (fun i => bool_decide (2 <= Z.of_nat i)) <$> seq 0 3
     /\ out.2 !! Some "a"%string
        = Some {| FixedWindowJS.count := Z.max 0 (Z.min 2 (Z.of_nat 3));
                  FixedWindowJS.lastReset := FixedWindowJS.at_create (clock_at 1000) |}
     /\ forall k', k' <> Some "a"%string ->
                   out.2 !! k' = (∅ : gmap (option string) FixedWindowJS.Data) !! k'.
Proof.
  assert (H2 : Forall (fun clk => FixedWindowJS.at_check clk
                                  - FixedWindowJS.at_create (clock_at 1000) <= 15000)
                 [clock_at 1000; clock_at 2000; clock_at 16000])
    by (repeat constructor; vm_compute; discriminate).
  exact (conj eq_refl (conj H2
           (fixed_window_limit_then_reject (clock_at 1000)
              [clock_at 2000; clock_at 16000] (Some "a"%string) 2 15000 ∅
              eq_refl H2))).
Defined.

Lemma fixed_window_expiry_witness :
  map_session_spent !! Some "session-1"%string
  = Some {| FixedWindowJS.count := 30; FixedWindowJS.lastReset := 500 |}
  /\ 15000 < FixedWindowJS.at_check (clock_at 15501) - 500
  /\ FixedWindowJS.handleRateLimiting (clock_at 15501) (Some "session-1"%string)
       30 15000 map_session_spent
     = (bool_decide (30 <= 0),
        <[Some "session-1"%string :=
            {| FixedWindowJS.count := if bool_decide (30 <= 0) then 0 else 1;
               FixedWindowJS.lastReset := FixedWindowJS.at_reset (clock_at 15501) |}]>
          map_session_spent).
Proof.
  exact (conj eq_refl (conj eq_refl
           (fixed_window_expiry (clock_at 15501) (Some "session-1"%string) 30 15000
              map_session_spent
              {| FixedWindowJS.count := 30; FixedWindowJS.lastReset := 500 |}
              eq_refl eq_refl))).
Defined.

Lemma sliding_log_window_witness :
  (∅ : gmap string (list Z)) !! "a"%string = None
  /\ StronglySorted Z.le ([1000; 1100; 1200] ++ [11050])
  /\ let before := sliding_log_run [1000; 1100; 1200] "a" 2 10000 ∅ in
     let after := sliding_log_run ([1000; 1100; 1200] ++ [11050]) "a" 2 10000 ∅ in
     (SlidingLogJS.handleRateLimiting 11050 "a" 2 10000 before.2).1
     = (2 <=? Z.of_nat (length (in_window 11050 10000 before.1)))
     /\ after.1 = (if 2 <=? Z.of_nat (length (in_window 11050 10000 before.1))
                   then before.1 else before.1 ++ [11050])
     /\ (0 <= 2 -> Z.of_nat (length (in_window 11050 10000 after.1)) <= 2).
Proof.
  assert (H2 : StronglySorted Z.le ([1000; 1100; 1200] ++ [11050]))
    by (repeat constructor; discriminate).
  exact (conj eq_refl (conj H2
           (sliding_log_window [1000; 1100; 1200] 11050 "a" 2 10000 ∅ eq_refl H2))).
Defined.

Lemma anonymous_client_is_never_limited_witness :
  str_truthy (MiddlewareJS.address_key request_bare) = false
  /\ str_truthy None = false
  /\ log_session_spent !! "5f0c"%string = None
  /\ 0 < default 30 (Some 2)
  /\ MiddlewareJS.rateLimit 1000 1001 "5f0c" request_bare None (Some 2) None None
       log_session_spent
     = ({| MiddlewareJS.returned := None; MiddlewareJS.set_cookie := Some "5f0c"%string;
           MiddlewareJS.warned := None |},
        <["5f0c"%string := [1001]]> log_session_spent).
Proof.
  exact (conj eq_refl (conj eq_refl (conj eq_refl (conj eq_refl
           (anonymous_client_is_never_limited 1000 1001 "5f0c" request_bare None
              (Some 2) None None log_session_spent
              eq_refl eq_refl eq_refl eq_refl))))).
Defined.

Lemma session_refusal_counts_against_address_witness :
  MiddlewareJS.address_key request_forwarded = Some "203.0.113.4"%string
  /\ "203.0.113.4"%string <> EmptyString
  /\ "203.0.113.4"%string <> MiddlewareJS.session_id (Some "session-1"%string) "5f0c"
  /\ Z.of_nat (length (in_window 1000 (default (15 * 1000) None)
                         (default [] (log_session_spent !! "203.0.113.4"%string))))
     < default 300 None
  /\ default 30 (Some 2)
     <= Z.of_nat (length (in_window 1001 (default (15 * 1000) None)
                            (default [] (log_session_spent
                                           !! MiddlewareJS.session_id
                                                (Some "session-1"%string) "5f0c"))))
  /\ let out := MiddlewareJS.rateLimit 1000 1001 "5f0c" request_forwarded
                  (Some "session-1"%string) (Some 2) None None log_session_spent in
     MiddlewareJS.returned out.1 = Some MiddlewareJS.too_many_requests
     /\ MiddlewareJS.warned out.1
        = Some ("Rate limit exceeded for session ID: "
                  +:+ MiddlewareJS.session_id (Some "session-1"%string) "5f0c")
     /\ out.2 !! "203.0.113.4"%string
        = Some (in_window 1000 (default (15 * 1000) None)
                  (default [] (log_session_spent !! "203.0.113.4"%string)) ++ [1000])
     /\ out.2 !! MiddlewareJS.session_id (Some "session-1"%string) "5f0c"
        = Some (in_window 1001 (default (15 * 1000) None)
                  (default [] (log_session_spent
                                 !! MiddlewareJS.session_id
                                      (Some "session-1"%string) "5f0c")))
     /\ forall k, k <> "203.0.113.4"%string ->
                  k <> MiddlewareJS.session_id (Some "session-1"%string) "5f0c" ->
                  out.2 !! k = log_session_spent !! k.
Proof.
  assert (H2 : "203.0.113.4"%string <> EmptyString) by discriminate.
  assert (H3 : "203.0.113.4"%string
               <> MiddlewareJS.session_id (Some "session-1"%string) "5f0c")
    by discriminate.
  assert (H5 : default 30 (Some 2)
               <= Z.of_nat (length (in_window 1001 (default (15 * 1000) None)
                                      (default [] (log_session_spent
                                                     !! MiddlewareJS.session_id
                                                          (Some "session-1"%string)
                                                          "5f0c")))))
    by (vm_compute; discriminate).
  exact (conj eq_refl (conj H2 (conj H3 (conj eq_refl (conj H5
           (session_refusal_counts_against_address 1000 1001 "5f0c" request_forwarded
              (Some "session-1"%string) (Some 2) None None log_session_spent
              "203.0.113.4" eq_refl H2 H3 eq_refl H5)))))).
Defined.

Lemma upstash_clients_follow_the_call_witness :
  UpstashJS.reachable UpstashJS.initial_world
  /\ upstash_active (with_env env0 (default [] (UpstashJS.o_upstash opts_upstash_js)))
     = true
  /\ let w' := (UpstashJS.rateLimit env0 backend_allows 1000 1001 "5f0c"
                  opts_upstash_js UpstashJS.initial_world).2 in
     exists r,
       UpstashJS.sessionRatelimit w'
       = Some {| rl_redis := r;
                 limiter :=
                   slidingWindow (default 20 (UpstashJS.o_sessionLimit opts_upstash_js))
                     (duration (default 10 (UpstashJS.o_sessionWindow opts_upstash_js)));
                 analytics := JUndefined |}
       /\ UpstashJS.ipRatelimit w'
          = Some {| rl_redis := r;
                    limiter :=
                      slidingWindow (default 100 (UpstashJS.o_ipLimit opts_upstash_js))
                        (duration (default 10 (UpstashJS.o_ipWindow opts_upstash_js)));
                    analytics := JUndefined |}.
Proof.
  exact (conj UpstashJS.reachable_initial (conj eq_refl
           (upstash_clients_follow_the_call env0 backend_allows 1000 1001 "5f0c"
              opts_upstash_js UpstashJS.initial_world
              UpstashJS.reachable_initial eq_refl))).
Defined.


Lemma resolve_identifier_truthy_witness :
  has_identity opts_shared = true
  /\ exists s,
       resolve_identifier (opt_req opts_shared) (opt_request opts_shared)
         (opt_identifier opts_shared) = Some s
       /\ s <> EmptyString /\ call_identifier opts_shared = s.
Proof.
  exact (conj eq_refl (resolve_identifier_truthy opts_shared eq_refl)).
Defined.

Lemma reachable_within_capacity_witness :
  reachable world_shared /\ within_capacity world_shared.
Proof.
  assert (H : reachable world_shared)
    by exact (reachable_call env0 backend_allows 1000 1050 opts_shared initial_world
                reachable_initial).
  exact (conj H (reachable_within_capacity world_shared H)).
Defined.

Lemma upstash_exhaustion_is_cached_witness :
  local_verdict env0 1000 opts_shared initial_world
  = Some {| chk_success := true; chk_remaining := 1; chk_reset := 2 |}
  /\ upstash_active (call_upstash env0 opts_shared) = true
  /\ client_in_use env0 opts_shared initial_world
     = Some (new_Ratelimit (call_config env0 opts_shared)
               {| redis_url := JStr "https://example.upstash.io";
                  redis_token := JStr "secret" |})
  /\ (forall cache',
        tokenCache (rateLimit env0 backend_refuses 1000 1050 opts_shared initial_world).2
        = Some cache' ->
        2000 - 1050 <= LRU.ttl cache')
  /\ exists resp w'',
       rateLimit env0 backend_allows 2000 2050 opts_shared
         (rateLimit env0 backend_refuses 1000 1050 opts_shared initial_world).2
       = (Return {| success := false; remaining := 0;
                    reset_at := ceil1000 (Z.max 2 (ceil1000 1700000012345));
                    rateLimitedResponse := Some resp; pending := None |}, w'')
       /\ status resp = 429
       /\ upstash_calls w''
          = upstash_calls
              (rateLimit env0 backend_refuses 1000 1050 opts_shared initial_world).2.
Proof.
  assert (H6 : up_remaining {| up_success := false; up_remaining := 0;
                               up_reset := 1700000012345; up_pending := 0%nat |} <= 0)
    by discriminate.
  assert (H7 : forall cache',
             tokenCache (rateLimit env0 backend_refuses 1000 1050 opts_shared
                           initial_world).2 = Some cache' ->
             2000 - 1050 <= LRU.ttl cache')
    by (intros cache' H; vm_compute in H; injection H as <-; discriminate).
  exact (conj eq_refl (conj eq_refl (conj eq_refl (conj H7
           (upstash_exhaustion_is_cached env0 backend_refuses backend_allows
              1000 1050 2000 2050 opts_shared initial_world
              {| chk_success := true; chk_remaining := 1; chk_reset := 2 |}
              (new_Ratelimit (call_config env0 opts_shared)
                 {| redis_url := JStr "https://example.upstash.io";
                    redis_token := JStr "secret" |})
              {| up_success := false; up_remaining := 0;
                 up_reset := 1700000012345; up_pending := 0%nat |}
              eq_refl eq_refl eq_refl eq_refl eq_refl H6 H7))))).
Defined.

Lemma sliding_log_limit_then_reject_witness :
  (∅ : gmap string (list Z)) !! "a"%string = None
  /\ StronglySorted Z.le (1000 :: [1100; 1200; 10999])
  /\ Forall (fun t => t - 1000 < 10000) (1000 :: [1100; 1200; 10999])
  /\ 0 <= 2
  /\ (sliding_log_run (1000 :: [1100; 1200; 10999]) "a" 2 10000 ∅).1
     = take (Z.to_nat 2) (1000 :: [1100; 1200; 10999]).
Proof.
  assert (H2 : StronglySorted Z.le (1000 :: [1100; 1200; 10999]))
    by (repeat constructor; discriminate).
  assert (H3 : Forall (fun t => t - 1000 < 10000) (1000 :: [1100; 1200; 10999]))
    by (repeat constructor).
  assert (H4 : 0 <= 2) by discriminate.
  exact (conj eq_refl (conj H2 (conj H3 (conj H4
           (sliding_log_limit_then_reject 1000 [1100; 1200; 10999] "a" 2 10000 ∅
              eq_refl H2 H3 H4))))).
Defined.
